(** * The route recognizer of ember-routing (module "route-recognizer")

    A shallow embedding of [src/modules/ember-routing.js], lines 1-474:
    segment parsing, the matcher automaton (a heap of [State] objects linked
    by [nextStates]), solution ranking, parameter extraction through the
    accepting state's regular expression, and reverse URL generation.

    Conventions of the embedding.
    - A JavaScript string is a [string]; loops over [charAt(i)] run over its
      list of characters.
    - [State] objects live in a heap (a [list State]); a reference to a state
      is its index, the root state is index 0, and [new State(..)] appends.
    - A [throw] is the [Throw] branch of [result].
    - Objects used as string-keyed tables ([names], [params], [queryParams])
      are finite maps of their own properties. A lookup [obj[key]] that
      finds no own property finds the member that [obj] inherits from
      [Object.prototype], if [key] names one; a call [obj.hasOwnProperty(..)]
      on an object with an own property of that name throws; and an
      assignment of a primitive to [__proto__] creates no property.
    - The host functions [encodeURIComponent] and [decodeURIComponent] are
      parameters of the development, and so is the text that the host
      gives for a member of [Object.prototype] ([inheritedText]). *)

From Stdlib Require Import Ascii String ZArith Lia.
From stdpp Require Import base option list gmap strings pretty.

Local Open Scope Z_scope.
Local Open Scope nat_scope.

(** ** JavaScript strings *)

Definition chars (s : string) : list ascii := String.list_ascii_of_string s.
Definition str (l : list ascii) : string := String.string_of_list_ascii l.

(** [s.charAt(i)]; [None] stands for the empty string returned out of range. *)
Definition charAt (s : string) (i : nat) : option ascii := chars s !! i.

(** [s.substr(start, len)] and [s.substr(start)]. *)
Definition substr (s : string) (start len : nat) : string :=
  str (take len (drop start (chars s))).
Definition substr_from (s : string) (start : nat) : string :=
  str (drop start (chars s)).

(** [s.indexOf(c)] for a one-character [c]; [None] stands for -1. *)
Definition indexOf (s : string) (c : ascii) : option nat :=
  fst <$> list_find (λ a, a = c) (chars s).

(** [chars.indexOf(char) !== -1]. *)
Definition contains (s : string) (c : ascii) : bool :=
  bool_decide (c ∈ chars s).

Fixpoint split_chars (c : ascii) (l : list ascii) : list (list ascii) :=
  match l with
  | [] => [[]]
  | a :: l' =>
      if decide (a = c) then [] :: split_chars c l'
      else match split_chars c l' with
           | x :: xs => (a :: x) :: xs
           | [] => [[a]]
           end
  end.

(** [s.split(c)] for a one-character separator. *)
Definition split (c : ascii) (s : string) : list string :=
  str <$> split_chars c (chars s).

(** ** Exceptions *)

Inductive JsError :=
  | NoSuchRoute (name : string)        (* Error("There is no route named " + name) *)
  | UnknownQueryParam (key : string)   (* 'Query param "' + key + '" is not specified ...' *)
  | TypeError                          (* property access on undefined or null *)
  | URIError.                          (* raised by the URI coding functions *)

Inductive result (A : Type) :=
  | Ok (a : A)
  | Throw (e : JsError).
Arguments Ok {A} a.
Arguments Throw {A} e.

Definition bind {A B} (r : result A) (k : A → result B) : result B :=
  match r with
  | Ok a => k a
  | Throw e => Throw e
  end.

Notation "x ←! r ; k" := (bind r (λ x, k))
  (at level 20, r at level 100, k at level 200, right associativity,
   format "x  ←!  r ;  '/' k").
Notation "' x ←! r ; k" := (bind r (λ x, k))
  (at level 20, x pattern, r at level 100, k at level 200,
   right associativity, format "' x  ←!  r ;  '/' k").

(** ** Segments *)

Inductive Segment :=
  | StaticSegment (string : string)
  | DynamicSegment (name : string)
  | StarSegment (name : string)
  | EpsilonSegment.

Record CharSpec := mkCharSpec {
  validChars : option string;
  invalidChars : option string;
  repeat : bool
}.

(** The source text of a regular expression, atom by atom, in the order in
    which [add] concatenates it. [RChar c] is a character that matches
    itself (written bare, or as [\c] when [c] is one of [specials]); [RBol]
    and [REol] are the assertions [^] and [$]; [RDynamic] is [([^/]+)] and
    [RStar] is [(.+)]. *)
Inductive RegexAtom :=
  | RChar (c : ascii)
  | RBol
  | REol
  | RDynamic
  | RStar.

Definition specials : list ascii :=
  ["/"; "."; "*"; "+"; "?"; "|"; "("; ")"; "["; "]"; "{"; "}"; "\"]%char.

(** One character of [this.string.replace(escapeRegex, '\\$1')]: a special
    character is escaped and matches itself; of the remaining characters
    only [^] and [$] have a meaning of their own in a regular expression. *)
Definition escapeRegex (c : ascii) : RegexAtom :=
  if bool_decide (c ∈ specials) then RChar c
  else if bool_decide (c = "^"%char) then RBol
  else if bool_decide (c = "$"%char) then REol
  else RChar c.

Definition eachChar (seg : Segment) : list CharSpec :=
  match seg with
  | StaticSegment s =>
      (λ c, mkCharSpec (Some (String c "")) None false) <$> chars s
  | DynamicSegment _ => [mkCharSpec None (Some "/") true]
  | StarSegment _ => [mkCharSpec None (Some "") true]
  | EpsilonSegment => []
  end.

Definition Segment_regex (seg : Segment) : list RegexAtom :=
  match seg with
  | StaticSegment s => escapeRegex <$> chars s
  | DynamicSegment _ => [RDynamic]
  | StarSegment _ => [RStar]
  | EpsilonSegment => []
  end.

Definition isEpsilon (seg : Segment) : bool :=
  match seg with EpsilonSegment => true | _ => false end.

Record Types := mkTypes { statics : nat; dynamics : nat; stars : nat }.

(** [segment.match(/^:([^\/]+)$/)] and [segment.match(/^\*([^\/]+)$/)]:
    the capture, when the segment is [c] followed by one or more characters
    other than [/]. *)
Definition match_marker (c : ascii) (segment : string) : option string :=
  match segment with
  | String a rest =>
      if bool_decide (a = c) && negb (bool_decide (rest = ""))
         && negb (contains rest "/")
      then Some rest else None
  | EmptyString => None
  end.

Fixpoint parse_loop (segments : list string)
    (results : list Segment) (names : list string) (types : Types)
    : list Segment * list string * Types :=
  match segments with
  | [] => (results, names, types)
  | segment :: segments' =>
      match match_marker ":" segment with
      | Some m =>
          parse_loop segments' (results ++ [DynamicSegment m]) (names ++ [m])
            (mkTypes (statics types) (S (dynamics types)) (stars types))
      | None =>
      match match_marker "*" segment with
      | Some m =>
          parse_loop segments' (results ++ [StarSegment m]) (names ++ [m])
            (mkTypes (statics types) (dynamics types) (S (stars types)))
      | None =>
      if bool_decide (segment = "")
      then parse_loop segments' (results ++ [EpsilonSegment]) names types
      else parse_loop segments' (results ++ [StaticSegment segment]) names
             (mkTypes (S (statics types)) (dynamics types) (stars types))
      end end
  end.

(** [parse(route, names, types)]: [names] starts empty at every call site and
    is returned; [types] is threaded through. *)
Definition parse (route : string) (types : Types)
    : list Segment * list string * Types :=
  let route :=
    if bool_decide (charAt route 0 = Some "/"%char) then substr_from route 1
    else route in
  parse_loop (split "/" route) [] [] types.

(** ** Automaton states *)

Module Route.
Record t := mk {
  path : string;
  handler : string;
  queryParams : option (list string)
}.
End Route.

Module Handler.
Record t := mk {
  handler : string;
  names : list string;
  queryParams : option (list string)
}.
End Handler.

(** The properties an accepting state has in addition: [add] assigns the
    three of them together (lines 345-347) and nothing else writes them. *)
Record Accepting := mkAccepting {
  handlers : list Handler.t;
  regex : list RegexAtom;
  types : Types
}.

Record State := mkState {
  charSpec : option CharSpec;      (* [undefined] for the root state *)
  nextStates : list nat;
  accepting : option Accepting
}.

Abbreviation Heap := (list State).

(** [new State()], the root, is the first object of a fresh heap. *)
Definition rootState : nat := 0.

Definition child_spec (h : Heap) (child : nat) : option CharSpec :=
  h !! child ≫= charSpec.

(** The test of [State.prototype.get], lines 145-146. A state without a
    [charSpec] is only ever the root, which is nobody's child. *)
Definition isEqual (h : Heap) (charSpec : CharSpec) (child : nat) : bool :=
  match child_spec h child with
  | Some cs =>
      bool_decide (validChars cs = validChars charSpec)
      && bool_decide (invalidChars cs = invalidChars charSpec)
  | None => false
  end.

Definition State_get (h : Heap) (this : nat) (charSpec : CharSpec) : option nat :=
  st ← h !! this; List.find (isEqual h charSpec) (nextStates st).

Definition push_child (h : Heap) (parent child : nat) : Heap :=
  alter (λ st, mkState (charSpec st) (nextStates st ++ [child]) (accepting st))
        parent h.

Definition State_put (h : Heap) (this : nat) (charSpec : CharSpec) : Heap * nat :=
  match State_get h this charSpec with
  | Some state => (h, state)
  | None =>
      let state := length h in
      let h := h ++ [mkState (Some charSpec) [] None] in
      let h := push_child h this state in
      let h := if repeat charSpec then push_child h state state else h in
      (h, state)
  end.

(** The test of [State.prototype.match], lines 190-194. *)
Definition accepts (cs : CharSpec) (char : ascii) : bool :=
  match validChars cs with
  | Some chars => contains chars char
  | None =>
      match invalidChars cs with
      | Some chars => negb (contains chars char)
      | None => false
      end
  end.

Definition State_match (h : Heap) (this : nat) (char : ascii) : list nat :=
  match h !! this with
  | Some st =>
      List.filter (λ child,
        match child_spec h child with
        | Some cs => accepts cs char
        | None => false
        end) (nextStates st)
  | None => []
  end.

Fixpoint recognizeChar (h : Heap) (states : list nat) (char : ascii) : list nat :=
  match states with
  | [] => []
  | state :: states' => State_match h state char ++ recognizeChar h states' char
  end.

(** ** Ranking *)

(** The comparator of [sortSolutions], on the [types] of two states. *)
Definition compareSolutions (a b : Types) : Z :=
  if negb (stars a =? stars b) then (Z.of_nat (stars a) - Z.of_nat (stars b))%Z
  else if negb (dynamics a =? dynamics b)
       then (Z.of_nat (dynamics a) - Z.of_nat (dynamics b))%Z
  else if negb (statics a =? statics b)
       then (Z.of_nat (statics b) - Z.of_nat (statics a))%Z
  else 0%Z.

(** A solution is an accepting state: its reference and accepting fields. *)
Abbreviation Solution := (nat * Accepting)%type.

Fixpoint sort_insert (x : Solution) (l : list Solution) : list Solution :=
  match l with
  | [] => [x]
  | y :: l' =>
      if (compareSolutions (types x.2) (types y.2) <=? 0)%Z then x :: l
      else y :: sort_insert x l'
  end.

(** [states.sort(comparator)]: a stable sort, as engines implement it. *)
Definition sortSolutions (states : list Solution) : list Solution :=
  foldr sort_insert [] states.

(** ** Matching a path against an accepting state's regular expression *)

Definition notSlash (a : ascii) : bool := negb (bool_decide (a = "/"%char)).

(** [.] matches every character except the line terminators. *)
Definition notLineTerminator (a : ascii) : bool :=
  negb (bool_decide (a = "010"%char)) && negb (bool_decide (a = "013"%char)).

Fixpoint run_length (cls : ascii → bool) (input : list ascii) : nat :=
  match input with
  | a :: input' => if cls a then S (run_length cls input') else 0
  | [] => 0
  end.

(** A greedy [+] group: the longest run first, giving back one character at
    a time while the rest of the expression fails. *)
Fixpoint greedy (k : nat → list ascii → option (nat * list string))
    (n pos : nat) (input : list ascii) : option (nat * list string) :=
  match n with
  | 0 => None
  | S n' =>
      match k (pos + n) (drop n input) with
      | Some (e, captures) => Some (e, str (take n input) :: captures)
      | None => greedy k n' pos input
      end
  end.

(** Backtracking match of [atoms] at position [pos], where [input] is what
    remains of the subject: the end position and the captures. *)
Fixpoint rmatch (atoms : list RegexAtom) (pos : nat) (input : list ascii)
    {struct atoms} : option (nat * list string) :=
  match atoms with
  | [] => Some (pos, [])
  | RChar c :: rest =>
      match input with
      | a :: input' => if bool_decide (a = c) then rmatch rest (S pos) input' else None
      | [] => None
      end
  | RBol :: rest => if bool_decide (pos = 0) then rmatch rest pos input else None
  | REol :: rest =>
      match input with
      | [] => rmatch rest pos input
      | _ :: _ => None
      end
  | RDynamic :: rest => greedy (rmatch rest) (run_length notSlash input) pos input
  | RStar :: rest => greedy (rmatch rest) (run_length notLineTerminator input) pos input
  end.

Fixpoint exec_from (atoms : list RegexAtom) (pos : nat) (input : list ascii)
    : option (list string) :=
  match rmatch atoms pos input with
  | Some (e, captures) => Some (str (take (e - pos) input) :: captures)
  | None =>
      match input with
      | [] => None
      | _ :: input' => exec_from atoms (S pos) input'
      end
  end.

(** [path.match(regex)]: [None] is [null], otherwise the whole match followed
    by the captures. *)
Definition String_match (path : string) (regex : list RegexAtom)
    : option (list string) :=
  exec_from regex 0 (chars path).

(** ** Recognition results *)

Inductive QueryValue :=
  | QTrue
  | QString (s : string).

Definition truthy (v : option QueryValue) : bool :=
  match v with
  | Some QTrue => true
  | Some (QString s) => negb (bool_decide (s = ""))
  | None => false
  end.

(** [obj[key] = value]: an own property, except that the key [__proto__]
    is the inherited accessor, whose setter ignores a primitive [value] and
    makes any other [value] the prototype of [obj]; the only such value
    assigned here is [Object.prototype], which is that already. *)
Definition assign {V} (obj : gmap string V) (key : string) (value : V)
    : gmap string V :=
  if bool_decide (key = "__proto__") then obj else <[key := value]> obj.

(** The property names every ordinary object inherits. *)
Definition ObjectPrototype : list string :=
  ["constructor"; "toString"; "toLocaleString"; "valueOf"; "hasOwnProperty";
   "isPrototypeOf"; "propertyIsEnumerable"; "__proto__"; "__defineGetter__";
   "__defineSetter__"; "__lookupGetter__"; "__lookupSetter__"].

(** A value of the [queryParams] of a recognized handler: a value of the
    parsed query string, or the member of [Object.prototype] that the query
    string's object inherits under the same key. *)
Inductive ActiveValue :=
  | AValue (v : QueryValue)
  | AInherited.

Module Recognized.
Record t := mk {
  handler : string;
  params : gmap string (option string);   (* [None] is [undefined] *)
  isDynamic : bool;
  queryParams : option (gmap string ActiveValue)
}.
End Recognized.

(** Lines 265-267: [params[names[j]] = captures[currentCapture++]]. *)
Fixpoint bind_names (names : list string) (captures : option (list string))
    (currentCapture : nat) (params : gmap string (option string))
    : result (gmap string (option string) * nat) :=
  match names with
  | [] => Ok (params, currentCapture)
  | name :: names' =>
      match captures with
      | None => Throw TypeError
      | Some caps =>
          bind_names names' captures (S currentCapture)
            (assign params name (caps !! currentCapture))
      end
  end.

(** Lines 268-273. [queryParams[key]] is an own property of the parsed
    query string, or else what its object inherits, which is truthy. *)
Fixpoint watch (watchedQueryParams : list string)
    (queryParams : gmap string QueryValue)
    (activeQueryParams : gmap string ActiveValue)
    : gmap string ActiveValue :=
  match watchedQueryParams with
  | [] => activeQueryParams
  | key :: rest =>
      watch rest queryParams
        (match queryParams !! key with
         | Some v =>
             if truthy (Some v) then assign activeQueryParams key (AValue v)
             else activeQueryParams
         | None =>
             if bool_decide (key ∈ ObjectPrototype)
             then assign activeQueryParams key AInherited
             else activeQueryParams
         end)
  end.

Fixpoint findHandler_loop (handlers : list Handler.t)
    (captures : option (list string)) (currentCapture : nat)
    (queryParams : gmap string QueryValue) (result_ : list Recognized.t)
    : result (list Recognized.t) :=
  match handlers with
  | [] => Ok result_
  | handler :: handlers' =>
      let names := Handler.names handler in
      let watchedQueryParams := default [] (Handler.queryParams handler) in
      '(params, currentCapture') ←! bind_names names captures currentCapture ∅;
      let activeQueryParams := watch watchedQueryParams queryParams ∅ in
      let currentResult :=
        Recognized.mk (Handler.handler handler) params
          (negb (length names =? 0))
          (if 0 <? length watchedQueryParams then Some activeQueryParams
           else None) in
      findHandler_loop handlers' captures currentCapture' queryParams
        (result_ ++ [currentResult])
  end.

Definition findHandler (state : Accepting) (path : string)
    (queryParams : gmap string QueryValue) : result (list Recognized.t) :=
  findHandler_loop (handlers state) (String_match path (regex state)) 1
    queryParams [].

(** ** The URI coding functions of the host, on 8-bit strings

    [encodeURIComponent] and [decodeURIComponent] belong to the JavaScript
    host, not to this repository. The two definitions below follow
    ECMA-262 (15.1.3) on strings of 8-bit characters (read as Latin-1 code
    units); they instantiate the parameters of the development in closed
    examples. An escape sequence that denotes a code point above U+00FF has
    no counterpart in [string] and is rejected here. *)

Definition hex_value (c : ascii) : option nat :=
  let n := nat_of_ascii c in
  if (48 <=? n) && (n <=? 57) then Some (n - 48)
  else if (65 <=? n) && (n <=? 70) then Some (n - 55)
  else if (97 <=? n) && (n <=? 102) then Some (n - 87)
  else None.

Definition hex_digit (n : nat) : ascii :=
  if n <? 10 then ascii_of_nat (48 + n) else ascii_of_nat (55 + n).

Definition escape_byte (b : nat) : list ascii :=
  ["%"%char; hex_digit (b / 16); hex_digit (b mod 16)].

Definition unreserved (c : ascii) : bool :=
  let n := nat_of_ascii c in
  ((48 <=? n) && (n <=? 57)) || ((65 <=? n) && (n <=? 90))
  || ((97 <=? n) && (n <=? 122))
  || bool_decide (c ∈ ["-"; "_"; "."; "!"; "~"; "*"; "'"; "("; ")"]%char).

Definition encode_char (c : ascii) : list ascii :=
  let n := nat_of_ascii c in
  if unreserved c then [c]
  else if n <? 128 then escape_byte n
  else escape_byte (192 + n / 64) ++ escape_byte (128 + n mod 64).

Definition latin1_encodeURIComponent (s : string) : result string :=
  Ok (str (concat (encode_char <$> chars s))).

Definition escaped_byte (l : list ascii) : option (nat * list ascii) :=
  match l with
  | p :: h1 :: h2 :: l' =>
      if bool_decide (p = "%"%char) then
        match hex_value h1, hex_value h2 with
        | Some a, Some b => Some (16 * a + b, l')
        | _, _ => None
        end
      else None
  | _ => None
  end.

Fixpoint decode_chars (l : list ascii) : result (list ascii) :=
  match l with
  | [] => Ok []
  | c :: l1 =>
      if bool_decide (c = "%"%char) then
        match l1 with
        | h1 :: h2 :: l2 =>
            match hex_value h1, hex_value h2 with
            | Some a, Some b =>
                let B := 16 * a + b in
                if B <? 128 then
                  rest ←! decode_chars l2; Ok (ascii_of_nat B :: rest)
                else if (B =? 194) || (B =? 195) then
                  match l2 with
                  | p :: h3 :: h4 :: l3 =>
                      match escaped_byte [p; h3; h4] with
                      | Some (B', _) =>
                          if (128 <=? B') && (B' <? 192) then
                            rest ←! decode_chars l3;
                            Ok (ascii_of_nat ((B - 192) * 64 + (B' - 128)) :: rest)
                          else Throw URIError
                      | None => Throw URIError
                      end
                  | _ => Throw URIError
                  end
                else Throw URIError
            | _, _ => Throw URIError
            end
        | _ => Throw URIError
        end
      else rest ←! decode_chars l1; Ok (c :: rest)
  end.

Definition latin1_decodeURIComponent (s : string) : result string :=
  rest ←! decode_chars (chars s); Ok (str rest).

(** ** The recognizer *)

Module NamedRoute.
Record t := mk {
  segments : list Segment;
  handlers : list Handler.t
}.
End NamedRoute.

Record RouteRecognizer := mkRouteRecognizer {
  heap : Heap;
  names : gmap string NamedRoute.t
}.

(** [new RouteRecognizer()]. *)
Definition RouteRecognizer_new : RouteRecognizer :=
  mkRouteRecognizer [mkState None [] None] ∅.

Definition slashSpec : CharSpec := mkCharSpec (Some "/") None false.

Fixpoint put_all (h : Heap) (currentState : nat) (specs : list CharSpec)
    : Heap * nat :=
  match specs with
  | [] => (h, currentState)
  | char :: specs' =>
      let '(h', state) := State_put h currentState char in
      put_all h' state specs'
  end.

(** [segment.eachChar] calls back once per character specification. *)
Definition addSegment (h : Heap) (currentState : nat) (segment : Segment)
    : Heap * nat :=
  put_all h currentState (eachChar segment).

(** The inner loop of [add], lines 317-331. *)
Fixpoint add_segments (segments : list Segment) (h : Heap) (currentState : nat)
    (regex : list RegexAtom) (isEmpty : bool)
    : Heap * nat * list RegexAtom * bool :=
  match segments with
  | [] => (h, currentState, regex, isEmpty)
  | segment :: segments' =>
      if isEpsilon segment
      then add_segments segments' h currentState regex isEmpty
      else
        let '(h1, s1) := State_put h currentState slashSpec in
        let regex := regex ++ [RChar "/"] in
        let '(h2, s2) := addSegment h1 s1 segment in
        let regex := regex ++ Segment_regex segment in
        add_segments segments' h2 s2 regex false
  end.

(** The outer loop of [add], lines 310-338. *)
Fixpoint add_routes (routes : list Route.t) (h : Heap) (currentState : nat)
    (regex : list RegexAtom) (types : Types) (handlers : list Handler.t)
    (allSegments : list Segment) (isEmpty : bool)
    : Heap * nat * list RegexAtom * Types * list Handler.t * list Segment * bool :=
  match routes with
  | [] => (h, currentState, regex, types, handlers, allSegments, isEmpty)
  | route :: routes' =>
      let '(segments, names, types) := parse (Route.path route) types in
      let allSegments := allSegments ++ segments in
      let '(h, currentState, regex, isEmpty) :=
        add_segments segments h currentState regex isEmpty in
      let handler :=
        Handler.mk (Route.handler route) names (Route.queryParams route) in
      add_routes routes' h currentState regex types (handlers ++ [handler])
        allSegments isEmpty
  end.

Definition set_accepting (h : Heap) (state : nat) (acc : Accepting) : Heap :=
  alter (λ st, mkState (charSpec st) (nextStates st) (Some acc)) state h.

(** [add(routes, options)]; [as_] is [options && options.as], registered
    when it is truthy, that is a non-empty string. *)
Definition add (this : RouteRecognizer) (routes : list Route.t)
    (as_ : option string) : RouteRecognizer :=
  let '(h, currentState, regex, types, handlers, allSegments, isEmpty) :=
    add_routes routes (heap this) rootState [RBol] (mkTypes 0 0 0) [] [] true in
  let '(h, currentState, regex) :=
    if isEmpty then
      let '(h', state) := State_put h currentState slashSpec in
      (h', state, regex ++ [RChar "/"])
    else (h, currentState, regex) in
  let h := set_accepting h currentState
             (mkAccepting handlers (regex ++ [REol]) types) in
  let names :=
    match as_ with
    | Some name =>
        if bool_decide (name = "") then names this
        else <[name := NamedRoute.mk allSegments handlers]> (names this)
    | None => names this
    end in
  mkRouteRecognizer h names.

Inductive NamesEntry :=
  | EntryRoute (route : NamedRoute.t)  (* a record stored by [add] *)
  | EntryInherited                     (* some other object, found on the prototype chain *)
  | EntryUndefined.

(** [this.names[name]], where [this.names] was created as [{}]. A record
    assigned under the key [__proto__] becomes the prototype of [names], so
    that its two members are then found under their own names. *)
Definition names_get (names : gmap string NamedRoute.t) (name : string)
    : NamesEntry :=
  match names !! name with
  | Some route => EntryRoute route
  | None =>
      if bool_decide (name ∈ ObjectPrototype) then EntryInherited
      else if bool_decide (is_Some (names !! "__proto__"))
              && bool_decide (name ∈ ["segments"; "handlers"])
      then EntryInherited
      else EntryUndefined
  end.

Definition handlersFor (this : RouteRecognizer) (name : string)
    : result (list Handler.t) :=
  match names_get (names this) name with
  | EntryUndefined => Throw (NoSuchRoute name)
  | EntryInherited => Throw TypeError       (* [route.handlers] is undefined *)
  | EntryRoute route => Ok (NamedRoute.handlers route)
  end.

Definition hasRoute (this : RouteRecognizer) (name : string) : bool :=
  match names_get (names this) name with
  | EntryUndefined => false
  | _ => true
  end.

(** A property of the [params] argument of [generate]: a string, or an
    object of query params, given by its own enumerable properties in
    enumeration order. The argument itself is the finite map of its own
    properties. *)
Inductive ParamValue :=
  | PString (s : string)
  | PQuery (queryParams : list (string * QueryValue)).

Abbreviation Params := (gmap string ParamValue).

(** The object [{ ...P, queryParams: qp }], and [{ ...P }]. *)
Definition with_query (P : gmap string string)
    (queryParams : list (string * QueryValue)) : Params :=
  <["queryParams" := PQuery queryParams]> (PString <$> P).

Definition strings (P : gmap string string) : Params := PString <$> P.

(** What [for (key in s)] enumerates when [s] is a string: its indices,
    as own properties that hold one character each. *)
Definition string_entries (s : string) : list (string * QueryValue) :=
  imap (λ i c, (pretty i, QString (String c ""))) (chars s).

Fixpoint allowed_params (handlers : list Handler.t) : list string :=
  match handlers with
  | [] => []
  | handler :: handlers' =>
      match Handler.queryParams handler with
      | Some currentParamList => currentParamList ++ allowed_params handlers'
      | None => allowed_params handlers'
      end
  end.

Fixpoint join (sep : string) (l : list string) : string :=
  match l with
  | [] => ""
  | [x] => x
  | x :: l' => x +:+ sep +:+ join sep l'
  end.

Section Recognizer.

(** [inheritedText name] is the string that [Object.prototype[name]] converts
    to, for the names of [ObjectPrototype]: the source text of a built-in
    function, which the engine chooses. *)
Variable inheritedText : string → string.
Variable encodeURIComponent : string → result string.
Variable decodeURIComponent : string → result string.

(** [params[this.name]] converted to a string by [output += ...]. [params]
    itself may be missing, in which case the property access throws. A name
    that is no own property of [params] finds what [params] inherits; an
    object of query params converts to [[object Object]] through the
    [toString] it inherits, and not at all if it has an own property of that
    name, which is no function. *)
Definition Segment_generate (seg : Segment) (params : option Params)
    : result string :=
  match seg with
  | StaticSegment s => Ok s
  | DynamicSegment name | StarSegment name =>
      match params with
      | Some p =>
          match p !! name with
          | Some (PString s) => Ok s
          | Some (PQuery queryParams) =>
              if bool_decide ("toString" ∈ queryParams.*1) then Throw TypeError
              else Ok "[object Object]"
          | None =>
              if bool_decide (name ∈ ObjectPrototype)
              then Ok (inheritedText name)
              else Ok "undefined"
          end
      | None => Throw TypeError
      end
  | EpsilonSegment => Ok ""
  end.

Fixpoint generate_loop (segments : list Segment) (params : option Params)
    (output : string) : result string :=
  match segments with
  | [] => Ok output
  | segment :: segments' =>
      if isEpsilon segment then generate_loop segments' params output
      else
        text ←! Segment_generate segment params;
        generate_loop segments' params (output +:+ "/" +:+ text)
  end.

(** The loop of lines 404-416. [hasOwnProperty] tells whether
    [params.hasOwnProperty] is the function that [params] inherits; the call
    of anything else throws. *)
Fixpoint query_pairs (hasOwnProperty : bool)
    (params : list (string * QueryValue))
    (allowedParams : list string) (pairs : list string) : result (list string) :=
  match params with
  | [] => Ok pairs
  | (key, value) :: params' =>
      if negb hasOwnProperty then Throw TypeError
      else if negb (bool_decide (key ∈ allowedParams))
      then Throw (UnknownQueryParam key)
      else
        pair ←! encodeURIComponent key;
        pair ←! match value with
                | QTrue => Ok pair
                | QString v => e ←! encodeURIComponent v; Ok (pair +:+ "=" +:+ e)
                end;
        query_pairs hasOwnProperty params' allowedParams (pairs ++ [pair])
  end.

(** [generateQueryString(params, handlers)] for an object [params] with the
    own enumerable properties [params]. *)
Definition generateQueryString (params : list (string * QueryValue))
    (handlers : list Handler.t) : result string :=
  pairs ←! query_pairs (negb (bool_decide ("hasOwnProperty" ∈ params.*1)))
             params (allowed_params handlers) [];
  if length pairs =? 0 then Ok "" else Ok ("?" +:+ join "&" pairs).

(** [generate(name, params)]. The test [params && params.queryParams] reads
    the property that a segment named [queryParams] reads as well; a string
    found there is truthy unless it is empty, and is then enumerated index
    by index, with the [hasOwnProperty] of strings. *)
Definition generate (this : RouteRecognizer) (name : string)
    (params : option Params) : result string :=
  match names_get (names this) name with
  | EntryUndefined => Throw (NoSuchRoute name)
  | EntryInherited => Throw TypeError       (* [route.segments] is undefined *)
  | EntryRoute route =>
      output ←! generate_loop (NamedRoute.segments route) params "";
      let output :=
        if bool_decide (charAt output 0 = Some "/"%char) then output
        else "/" +:+ output in
      match params ≫= (.!! "queryParams") with
      | Some (PQuery queryParams) =>
          q ←! generateQueryString queryParams (NamedRoute.handlers route);
          Ok (output +:+ q)
      | Some (PString s) =>
          if bool_decide (s = "") then Ok output
          else
            q ←! generateQueryString (string_entries s)
                   (NamedRoute.handlers route);
            Ok (output +:+ q)
      | None => Ok output
      end
  end.

Fixpoint parse_pairs (pairs : list string) (queryParams : gmap string QueryValue)
    : result (gmap string QueryValue) :=
  match pairs with
  | [] => Ok queryParams
  | p :: pairs' =>
      let pair := split "=" p in
      key ←! decodeURIComponent (default "" (pair !! 0));
      value ←! match pair !! 1 with
               | Some v =>
                   if bool_decide (v = "") then Ok QTrue
                   else d ←! decodeURIComponent v; Ok (QString d)
               | None => Ok QTrue
               end;
      parse_pairs pairs' (assign queryParams key value)
  end.

Definition parseQueryString (queryString : string)
    : result (gmap string QueryValue) :=
  parse_pairs (split "&" queryString) ∅.

(** The traversal loop of [recognize], lines 454-457, with its [break]. *)
Fixpoint recognize_loop (h : Heap) (states : list nat) (path : list ascii)
    : list nat :=
  match path with
  | [] => states
  | char :: path' =>
      match recognizeChar h states char with
      | [] => []
      | states' => recognize_loop h states' path'
      end
  end.

(** Lines 461-464: the states that have [handlers]. *)
Definition solutions_of (h : Heap) (states : list nat) : list Solution :=
  omap (λ state, acc ← h !! state ≫= accepting; Some (state, acc)) states.

(** Lines 447-452: the path with a leading slash and without one trailing
    slash. *)
Definition normalize_path (path : string) : string :=
  let path :=
    if bool_decide (charAt path 0 = Some "/"%char) then path
    else "/" +:+ path in
  let pathLen := String.length path in
  if (1 <? pathLen) && bool_decide (charAt path (pathLen - 1) = Some "/"%char)
  then substr path 0 (pathLen - 1)
  else path.

(** Lines 447-472 of [recognize]: what happens once the query string has
    been split off. *)
Definition recognize_path (this : RouteRecognizer) (path : string)
    (queryParams : gmap string QueryValue)
    : result (option (list Recognized.t)) :=
  let states := [rootState] in
  let path := normalize_path path in
  let states := recognize_loop (heap this) states (chars path) in
  let solutions := sortSolutions (solutions_of (heap this) states) in
  match solutions with
  | (_, state) :: _ => r ←! findHandler state path queryParams; Ok (Some r)
  | [] => Ok None
  end.

(** [recognize(path)]; [Ok None] is the result [undefined]. *)
Definition recognize (this : RouteRecognizer) (path : string)
    : result (option (list Recognized.t)) :=
  match indexOf path "?" with
  | Some queryStart =>
      let queryString := substr path (queryStart + 1) (String.length path) in
      let path := substr path 0 queryStart in
      queryParams ←! parseQueryString queryString;
      recognize_path this path queryParams
  | None => recognize_path this path ∅
  end.

End Recognizer.

(** ** Recognizers built by registration *)

(** One call [add(routes, {as: name})] or [add(routes)]. *)
Abbreviation Registration := (list Route.t * option string)%type.

Definition register (this : RouteRecognizer) (reg : Registration)
    : RouteRecognizer :=
  add this reg.1 reg.2.

(** The recognizer after the calls [regs], in order, on a new one. *)
Definition build (regs : list Registration) : RouteRecognizer :=
  foldl register RouteRecognizer_new regs.

(** A route is registered under [name] by an [add] whose [as] option is
    [name], provided the name is truthy. *)
Definition registered_name (regs : list Registration) (name : string) : Prop :=
  name ≠ "" ∧ ∃ routes, (routes, Some name) ∈ regs.

(** Two character specifications that [State.prototype.get] does not
    distinguish. *)
Definition same_chars (a b : CharSpec) : Prop :=
  validChars a = validChars b ∧ invalidChars a = invalidChars b.

(** Two character specifications with the same three members. *)
Definition equal_specs (a b : CharSpec) : Prop :=
  validChars a = validChars b ∧ invalidChars a = invalidChars b
  ∧ repeat a = repeat b.

(** The character specifications that [add] ever passes to [put]. *)
Definition emitted (cs : CharSpec) : Prop :=
  cs = slashSpec ∨ ∃ segment, cs ∈ eachChar segment.

(** A query parameter declared by at least one handler of a chain. *)
Definition declared (handlers : list Handler.t) (key : string) : Prop :=
  ∃ handler l, handler ∈ handlers
               ∧ Handler.queryParams handler = Some l ∧ key ∈ l.

(** The text of one pair of a generated query string: the encoded key,
    followed by [=] and the encoded value unless the value is [true]. *)
Definition rendered (encodeURIComponent : string → result string)
    (pair : string * QueryValue) (text : string) : Prop :=
  ∃ ek, encodeURIComponent pair.1 = Ok ek ∧
    match pair.2 with
    | QTrue => text = ek
    | QString v => ∃ ev, encodeURIComponent v = Ok ev ∧ text = ek +:+ "=" +:+ ev
    end.


(** The ranking of [sortSolutions]: fewer star segments first; then fewer
    dynamic segments; then more static segments. [ranks_before a b] says
    that the comparator does not put [a] after [b]; it holds both ways for
    two tallies that tie. *)
Definition ranks_before (a b : Types) : Prop :=
  stars a < stars b
  ∨ (stars a = stars b
     ∧ (dynamics a < dynamics b
        ∨ (dynamics a = dynamics b ∧ statics b ≤ statics a))).

(** The accepting states reached by a path, as [recognize] collects them. *)
Definition candidates (this : RouteRecognizer) (path : string) : list Solution :=
  solutions_of (heap this)
    (recognize_loop (heap this) [rootState] (chars (normalize_path path))).

(** What [add] may do to a state that exists already: keep its [charSpec],
    append to its [nextStates]. *)
Definition extends (st st' : State) : Prop :=
  charSpec st' = charSpec st ∧ nextStates st `prefix_of` nextStates st'.

(** [h'] keeps every state of [h], extended, with its accepting fields. *)
Definition heap_le (h h' : Heap) : Prop :=
  ∀ i st, h !! i = Some st →
    ∃ st', h' !! i = Some st' ∧ extends st st' ∧ accepting st' = accepting st.

(** ** What [add] computes besides the automaton

    The regular expression, the segment tallies, the handler entries, the
    segment list and the [isEmpty] flag that the loops of [add] accumulate
    do not depend on the automaton; these are the same loops without it. *)

Fixpoint segments_data (segments : list Segment) (regex : list RegexAtom)
    (isEmpty : bool) : list RegexAtom * bool :=
  match segments with
  | [] => (regex, isEmpty)
  | segment :: segments' =>
      if isEpsilon segment then segments_data segments' regex isEmpty
      else segments_data segments'
             ((regex ++ [RChar "/"%char]) ++ Segment_regex segment) false
  end.

Fixpoint routes_data (routes : list Route.t) (regex : list RegexAtom)
    (types : Types) (handlers : list Handler.t) (allSegments : list Segment)
    (isEmpty : bool)
    : list RegexAtom * Types * list Handler.t * list Segment * bool :=
  match routes with
  | [] => (regex, types, handlers, allSegments, isEmpty)
  | route :: routes' =>
      let '(segments, names, types) := parse (Route.path route) types in
      let '(regex, isEmpty) := segments_data segments regex isEmpty in
      routes_data routes' regex types
        (handlers ++ [Handler.mk (Route.handler route) names
                        (Route.queryParams route)])
        (allSegments ++ segments) isEmpty
  end.

(** The accepting fields that [add(routes)] assigns (lines 345-347). *)
Definition chain_accepting (routes : list Route.t) : Accepting :=
  let '(regex, types, handlers, _, isEmpty) :=
    routes_data routes [RBol] (mkTypes 0 0 0) [] [] true in
  mkAccepting handlers
    ((if isEmpty then regex ++ [RChar "/"%char] else regex) ++ [REol]) types.

(** The segments of one route of a chain, and of the whole chain. *)
Definition route_segments (route : Route.t) : list Segment :=
  (parse (Route.path route) (mkTypes 0 0 0)).1.1.

Definition chain_segments (routes : list Route.t) : list Segment :=
  concat (route_segments <$> routes).

Definition segment_name (segment : Segment) : option string :=
  match segment with
  | DynamicSegment name | StarSegment name => Some name
  | _ => None
  end.

(** Every accepting state of [h] has accepting fields satisfying [P]. *)
Definition accepting_all (P : Accepting → Prop) (h : Heap) : Prop :=
  ∀ i st acc, h !! i = Some st → accepting st = Some acc → P acc.

(** The segment that [parse] makes of one piece of a route path. *)
Definition parse_segment (segment : string) : Segment :=
  match match_marker ":" segment with
  | Some m => DynamicSegment m
  | None =>
      match match_marker "*" segment with
      | Some m => StarSegment m
      | None =>
          if bool_decide (segment = "") then EpsilonSegment
          else StaticSegment segment
      end
  end.

(** The regular expression text that [add] appends for a list of
    segments, and the handler entries it makes for a chain. *)
Definition segments_regex (segments : list Segment) : list RegexAtom :=
  concat ((λ segment, if isEpsilon segment then []
                      else RChar "/"%char :: Segment_regex segment)
          <$> segments).

Definition chain_handlers (routes : list Route.t) : list Handler.t :=
  (λ route, Handler.mk (Route.handler route)
              (omap segment_name (route_segments route))
              (Route.queryParams route)) <$> routes.

(** The capture groups of a regular expression, in order. *)
Definition isGroup (atom : RegexAtom) : bool :=
  match atom with RDynamic | RStar => true | _ => false end.

Definition groups (atoms : list RegexAtom) : list RegexAtom :=
  List.filter isGroup atoms.

(** What a group can capture: one or more characters of its class. *)
Definition group_capture (atom : RegexAtom) (s : string) : Prop :=
  s ≠ "" ∧
  match atom with
  | RDynamic => Forall (λ a, notSlash a = true) (chars s)
  | RStar => Forall (λ a, notLineTerminator a = true) (chars s)
  | _ => True
  end.

(** The segments that capture: dynamic and star segments. *)
Definition named (segments : list Segment) : list Segment :=
  filter (λ segment, is_Some (segment_name segment)) segments.

(** What a dynamic or star segment can bind: a non-empty string, without
    [/] for a dynamic segment. *)
Definition segment_capture (segment : Segment) (s : string) : Prop :=
  s ≠ "" ∧
  match segment with
  | DynamicSegment _ => "/"%char ∉ chars s
  | _ => True
  end.

(** What [findHandler] returns for the handlers of a chain: one entry per
    route of the chain, whose params are captures of its own segments. *)
Definition entry_of (r : Recognized.t) (route : Route.t) : Prop :=
  Recognized.handler r = Route.handler route
  ∧ ∀ name v, Recognized.params r !! name = Some v →
      ∃ s seg, v = Some s ∧ seg ∈ route_segments route
               ∧ segment_name seg = Some name ∧ segment_capture seg s.

(** ** The automaton as a trie with self-loops *)

(** The character specifications that [add] passes to [put] for a list of
    segments and for a whole chain (lines 317-343). *)
Definition segments_specs (segments : list Segment) : list CharSpec :=
  concat ((λ segment, if isEpsilon segment then []
                      else slashSpec :: eachChar segment) <$> segments).

Definition chain_specs (routes : list Route.t) : list CharSpec :=
  segments_specs (chain_segments routes)
  ++ (if forallb isEpsilon (chain_segments routes) then [slashSpec] else []).

Definition child (h : Heap) (parent c : nat) : Prop :=
  ∃ st, h !! parent = Some st ∧ c ∈ nextStates st.

(** [reach h specs s]: from the root, the edges to new children labelled
    [specs] lead to the state [s]. *)
Inductive reach (h : Heap) : list CharSpec → nat → Prop :=
  | reach_root : reach h [] rootState
  | reach_step specs parent c cs :
      reach h specs parent → child h parent c → c ≠ parent →
      child_spec h c = Some cs → reach h (specs ++ [cs]) c.

(** The shape of the automata that [put] builds. *)
Record wf (h : Heap) : Prop := mkWf {
  wf_root : child_spec h rootState = None ∧ rootState < length h;
  wf_child : ∀ p c, child h p c →
               p ≤ c < length h ∧ ∃ cs, child_spec h c = Some cs ∧ emitted cs;
  wf_parent : ∀ p p' c, child h p c → child h p' c → c ≠ p → c ≠ p' → p = p';
  wf_sibling : ∀ p c c' cs cs',
      child h p c → child h p c' →
      child_spec h c = Some cs → child_spec h c' = Some cs' →
      same_chars cs cs' → c = c';
  wf_loop : ∀ c cs, child_spec h c = Some cs →
              (child h c c ↔ repeat cs = true)
}.

(** The words that a sequence of character specifications consumes: one
    character per specification, or one or more for a repeating one. *)
Definition block (cs : CharSpec) (u : list ascii) : Prop :=
  u ≠ [] ∧ Forall (λ a, accepts cs a = true) u
  ∧ (repeat cs = false → length u = 1).

Definition lang (specs : list CharSpec) (w : list ascii) : Prop :=
  ∃ blocks, Forall2 block specs blocks ∧ w = concat blocks.

(** A repeating specification is never followed by one that [get] would
    confuse with it. *)
Fixpoint sequenced (specs : list CharSpec) : Prop :=
  match specs with
  | a :: (b :: _) as specs' =>
      (repeat a = true → ¬ same_chars a b) ∧ sequenced specs'
  | _ => True
  end.

(** [foldl] view of the traversal loop. *)
Definition run (h : Heap) (states : list nat) (w : list ascii) : list nat :=
  foldl (recognizeChar h) states w.

(** ** Route patterns, segment by segment *)

(** What one segment of a pattern matches, after its [/]. *)
Definition segment_text (segment : Segment) (text : list ascii) : Prop :=
  match segment with
  | StaticSegment s => text = chars s
  | DynamicSegment _ => text ≠ [] ∧ "/"%char ∉ text
  | StarSegment _ => text ≠ []
  | EpsilonSegment => False
  end.

Fixpoint segments_accept (segments : list Segment) (w : list ascii) : Prop :=
  match segments with
  | [] => w = []
  | segment :: segments' =>
      if isEpsilon segment then segments_accept segments' w
      else ∃ text w', w = "/"%char :: text ++ w'
                      ∧ segment_text segment text
                      ∧ segments_accept segments' w'
  end.

(** A chain's pattern matches a (normalized) path: each segment that is not
    empty matches one [/]-introduced piece; a chain of empty segments only
    matches the root path. *)
Definition pattern_matches (routes : list Route.t) (path : string) : Prop :=
  if forallb isEpsilon (chain_segments routes) then path = "/"
  else segments_accept (chain_segments routes) (chars path).

(** Every accepting state of [h'] was accepting in [h], with the same
    fields. *)
Definition accepting_from (h h' : Heap) : Prop :=
  ∀ i st acc, h' !! i = Some st → accepting st = Some acc →
    ∃ st0, h !! i = Some st0 ∧ accepting st0 = Some acc.

(** No registered chain's pattern matches the path (once normalized). *)
Definition unmatched (regs : list Registration) (path : string) : Prop :=
  ∀ routes as_, (routes, as_) ∈ regs →
    ¬ pattern_matches routes (normalize_path path).

(** ** Generated URLs *)

(** The strings that an object of strings inherits, by name. *)
Definition inherited (inheritedText : string → string) : gmap string string :=
  list_to_map ((λ name, (name, inheritedText name)) <$> ObjectPrototype).

(** The text of [params[name]] when [name] is found in [P], and when it is
    not found at all. *)
Definition binding (P : gmap string string) (name : string) : string :=
  default "undefined" (P !! name).

(** No dynamic or star segment reads an inherited member: its name is
    bound by [P] or is none of the names that objects inherit. *)
Definition own_names (P : gmap string string) (segments : list Segment)
    : Prop :=
  ∀ segment name, segment ∈ segments → segment_name segment = Some name →
    is_Some (P !! name) ∨ name ∉ ObjectPrototype.

(** The text that [generate] emits for a segment, after its [/]. *)
Definition segment_value (P : gmap string string) (segment : Segment)
    : list ascii :=
  match segment with
  | StaticSegment s => chars s
  | DynamicSegment name | StarSegment name => chars (binding P name)
  | EpsilonSegment => []
  end.

Definition url_chars (P : gmap string string) (segments : list Segment)
    : list ascii :=
  concat ((λ segment, if isEpsilon segment then []
                      else "/"%char :: segment_value P segment) <$> segments).

(** The URL that [generate] returns for a chain, without query string. *)
Definition chain_url (P : gmap string string) (routes : list Route.t) : string :=
  if forallb isEpsilon (chain_segments routes) then "/"
  else str (url_chars P (chain_segments routes)).

(** What [parse] guarantees of a static segment. *)
Definition static_ok (segment : Segment) : Prop :=
  match segment with
  | StaticSegment s => s ≠ "" ∧ "/"%char ∉ chars s
  | _ => True
  end.

(** The conditions under which a segment of a pattern survives the round
    trip: a static segment has none of the characters [?], [^], [$]; a
    dynamic or star segment is not named [__proto__] and is bound to a
    non-empty string without [?] - without [/] for a dynamic segment,
    without line terminator for a star segment. *)
Definition binding_ok (P : gmap string string) (segment : Segment) : Prop :=
  match segment with
  | StaticSegment s =>
      ("?"%char ∉ chars s) ∧ ("^"%char ∉ chars s) ∧ ("$"%char ∉ chars s)
  | DynamicSegment name =>
      name ≠ "__proto__" ∧
      ∃ v, P !! name = Some v ∧ v ≠ "" ∧ ("?"%char ∉ chars v)
           ∧ ("/"%char ∉ chars v)
  | StarSegment name =>
      name ≠ "__proto__" ∧
      ∃ v, P !! name = Some v ∧ v ≠ "" ∧ ("?"%char ∉ chars v)
           ∧ Forall (λ a, notLineTerminator a = true) (chars v)
  | EpsilonSegment => True
  end.

(** The star segments of a list are bound to values without [/]. *)
Definition plain_stars (P : gmap string string) (segments : list Segment)
    : Prop :=
  ∀ name, StarSegment name ∈ segments → "/"%char ∉ chars (binding P name).

(** Every star segment after the first one is bound to a value without
    [/]: the group of the first star segment is greedy and would take the
    pieces of a later one. *)
Fixpoint later_stars_plain (P : gmap string string) (segments : list Segment)
    : Prop :=
  match segments with
  | [] => True
  | StarSegment _ :: segments' => plain_stars P segments'
  | _ :: segments' => later_stars_plain P segments'
  end.

(** The segment that ends a pattern, and the condition under which the
    generated URL keeps its last character in [recognize]: a star segment
    that ends the pattern is bound to a value that does not end in [/]. *)
Definition last_segment (segments : list Segment) : option Segment :=
  last (List.filter (λ segment, negb (isEpsilon segment)) segments).

Definition last_ok (P : gmap string string) (segments : list Segment) : Prop :=
  ∀ name, last_segment segments = Some (StarSegment name) →
    last (chars (binding P name)) ≠ Some "/"%char.

(** The number of segments of a pattern that are not empty, and of [/] in
    a word. *)
Definition pieces (segments : list Segment) : nat :=
  length (List.filter (λ segment, negb (isEpsilon segment)) segments).

Definition count_slash (w : list ascii) : nat :=
  length (filter (λ a, a = "/"%char) w).

(** ** Routes used in the closed examples *)

(** The texts of the members of [Object.prototype] as V8 prints them; they
    stand for [inheritedText] in the closed examples. *)
Definition v8_inheritedText (name : string) : string :=
  if bool_decide (name = "__proto__") then "[object Object]"
  else "function "
       +:+ (if bool_decide (name = "constructor") then "Object" else name)
       +:+ "() { [native code] }".

Definition posts_id : list Route.t := [Route.mk "/posts/:id" "post" None].
Definition posts_new : list Route.t := [Route.mk "/posts/new" "newPost" None].
Definition search : list Route.t :=
  [Route.mk "/search" "search" (Some ["q"; "exact"])].
Definition files : list Route.t := [Route.mk "/files/*path" "files" None].

Definition blog : list Registration :=
  [(posts_id, Some "post"); (posts_new, Some "newPost");
   (search, Some "search")].

(** ** Segment tallies *)

(** The counts that [parse] adds to [types] for a list of segments. *)
Fixpoint tally (segments : list Segment) (types : Types) : Types :=
  match segments with
  | [] => types
  | segment :: segments' =>
      tally segments'
        match segment with
        | StaticSegment _ =>
            mkTypes (S (statics types)) (dynamics types) (stars types)
        | DynamicSegment _ =>
            mkTypes (statics types) (S (dynamics types)) (stars types)
        | StarSegment _ =>
            mkTypes (statics types) (dynamics types) (S (stars types))
        | EpsilonSegment => types
        end
  end.

Definition isSlashSpec (cs : CharSpec) : bool :=
  bool_decide (validChars cs = Some "/").
Definition isDynamicSpec (cs : CharSpec) : bool :=
  bool_decide (invalidChars cs = Some "/").
Definition isStarSpec (cs : CharSpec) : bool :=
  bool_decide (invalidChars cs = Some "").

Definition count_specs (f : CharSpec → bool) (specs : list CharSpec) : nat :=
  length (List.filter f specs).

(** The tallies of a chain, read off its character specifications. *)
Definition specs_types (specs : list CharSpec) : Types :=
  let d := count_specs isDynamicSpec specs in
  let s := count_specs isStarSpec specs in
  mkTypes (if length specs =? 1 then 0
           else count_specs isSlashSpec specs - d - s) d s.

(** ** What [findHandler] reports besides the params *)

(** What [queryParams[key]] gives to a handler that watches [key], if it
    is truthy. *)
Definition watched_value (qp : gmap string QueryValue) (key : string)
    : option ActiveValue :=
  match qp !! key with
  | Some v => if truthy (Some v) then Some (AValue v) else None
  | None => if bool_decide (key ∈ ObjectPrototype) then Some AInherited
            else None
  end.

(** The [queryParams] member of a recognized handler that watches the keys
    [watched], when the URL's query string parsed to [qp]: the watched keys
    that [qp] binds to a truthy value, with that value, and the watched keys
    that [qp] does not bind and that name a member of [Object.prototype],
    with that member; never the key [__proto__]. *)
Definition watched_params (watched : list string)
    (qp : gmap string QueryValue) (m : gmap string ActiveValue) : Prop :=
  ∀ key a, m !! key = Some a ↔
    key ∈ watched ∧ key ≠ "__proto__"
    ∧ ((∃ v, a = AValue v ∧ qp !! key = Some v ∧ truthy (Some v) = true)
       ∨ (a = AInherited ∧ qp !! key = None ∧ key ∈ ObjectPrototype)).

(** The [isDynamic] and [queryParams] members of the entry that
    [findHandler] makes for a route. *)
Definition flags_of (qp : gmap string QueryValue) (r : Recognized.t)
    (route : Route.t) : Prop :=
  Recognized.handler r = Route.handler route
  ∧ Recognized.isDynamic r
    = negb (bool_decide (omap segment_name (route_segments route) = []))
  ∧ match Route.queryParams route with
    | Some (key :: keys) =>
        ∃ m, Recognized.queryParams r = Some m
             ∧ watched_params (key :: keys) qp m
    | _ => Recognized.queryParams r = None
    end.

(** ** One pair of a query string *)

(** The key and value that the loop of [parseQueryString] (lines 426-428)
    reads off one [&]-separated pair. *)
Definition parse_pair (decodeURIComponent : string → result string)
    (p : string) : result (string * QueryValue) :=
  let pair := split "=" p in
  key ←! decodeURIComponent (default "" (pair !! 0));
  value ←! match pair !! 1 with
           | Some v =>
               if bool_decide (v = "") then Ok QTrue
               else d ←! decodeURIComponent v; Ok (QString d)
           | None => Ok QTrue
           end;
  Ok (key, value).

(** The value as which a generated pair is read back: the empty string is
    written as [key=], which reads as the flag [key]. *)
Definition read_back (v : QueryValue) : QueryValue :=
  match v with
  | QString "" => QTrue
  | _ => v
  end.

(** * The router (module "router")

    The parts of [src/modules/ember-routing.js], lines 600-2053, that
    compute without running a handler's hooks or a promise: comparing and
    merging query params, the handler infos of a named transition, the
    partition of handlers on a transition, and event bubbling.

    Query param values are the values the recognizer produces ([true] and
    strings) together with the values that remove a param ([null], [false],
    [undefined]). A query params object is the finite map of its own
    enumerable properties; whatever such an object inherits is a member of
    [Object.prototype], which is none of these values. *)

Module Router.

Inductive Value :=
  | VUndefined
  | VNull
  | VBool (b : bool)
  | VString (s : string).

#[global] Instance Value_eq_dec : EqDecision Value.
Proof. solve_decision. Defined.

Abbreviation Object := (gmap string Value).

(** [b[key] !== v] for a value [v] of [Value]. *)
Definition differs (b : Object) (key : string) (v : Value) : bool :=
  match b !! key with
  | Some w => negb (bool_decide (w = v))
  | None =>
      if bool_decide (key ∈ ObjectPrototype) then true
      else negb (bool_decide (v = VUndefined))
  end.

(** [obj.hasOwnProperty] is the function that [obj] inherits, and not an
    own property, which would hold a value that cannot be called. *)
Definition callable_hasOwnProperty (obj : Object) : bool :=
  bool_decide (obj !! "hasOwnProperty" = None).

(** [queryParamsEqual(a, b)], lines 1445-1461. A missing argument stands
    for [{}]. Each loop calls [hasOwnProperty] first, on an object that has
    a property to enumerate, and then returns at the first offending key, so
    that the order in which the keys are enumerated does not show in the
    result. *)
Definition queryParamsEqual (a b : option Object) : result bool :=
  let a := default ∅ a in
  let b := default ∅ b in
  let checkedKeys := (map_to_list a).*1 in
  if negb (callable_hasOwnProperty a) then Throw TypeError
  else if existsb (λ kv, differs b kv.1 kv.2) (map_to_list a) then Ok false
  else if negb (callable_hasOwnProperty b) then Throw TypeError
  else if existsb (λ kv, negb (bool_decide (kv.1 ∈ checkedKeys)))
            (map_to_list b)
  then Ok false
  else Ok true.

(** [value === null || value === false || typeof value === "undefined"]. *)
Definition removes (value : Value) : bool :=
  match value with
  | VNull | VBool false | VUndefined => true
  | _ => false
  end.

Fixpoint mergeSomeKeys_loop (hash other : Object) (keys : list string)
    : result Object :=
  match keys with
  | [] => Ok hash
  | key :: keys' =>
      if negb (callable_hasOwnProperty other) then Throw TypeError
      else
        mergeSomeKeys_loop
          match other !! key with
          | Some value =>
              if removes value then delete key hash else assign hash key value
          | None => hash
          end other keys'
  end.

(** [mergeSomeKeys(hash, other, keys)], lines 1216-1229: the [hash]
    afterwards. *)
Definition mergeSomeKeys (hash : Object) (other : option Object)
    (keys : option (list string)) : result Object :=
  match other, keys with
  | Some other, Some keys => mergeSomeKeys_loop hash other keys
  | _, _ => Ok hash
  end.

(** The members of a router that these functions read. *)
Record t := mk {
  recognizer : RouteRecognizer;
  currentQueryParams : option Object
}.

(** The [queryParams] argument of a named transition: [false], or an
    object, or nothing. *)
Inductive QueryParamsArg :=
  | QPFalse
  | QPObject (queryParams : option Object).

(** The handler infos that [generateHandlerInfosWithQueryParams] makes of
    the entries of [handlersFor]; their members [context] and [isDynamic]
    are copies of members that such entries do not have. *)
Module HandlerObj.
Record t := mk {
  handler : string;
  names : list string;
  queryParams : option Object
}.
End HandlerObj.

(** Lines 1235-1256. *)
Fixpoint generateHandlerInfosWithQueryParams (router : t)
    (handlers : list Handler.t) (queryParams : QueryParamsArg)
    : result (list HandlerObj.t) :=
  match handlers with
  | [] => Ok []
  | handler :: handlers' =>
      activeQueryParams ←!
        match queryParams with
        | QPFalse => Ok ∅
        | QPObject queryParams =>
            active ←! mergeSomeKeys ∅ (currentQueryParams router)
                        (Handler.queryParams handler);
            mergeSomeKeys active queryParams (Handler.queryParams handler)
        end;
      let handlerInfo :=
        HandlerObj.mk (Handler.handler handler) (Handler.names handler)
          (match Handler.queryParams handler with
           | Some (_ :: _) => Some activeQueryParams
           | _ => None
           end) in
      handlerInfos ←!
        generateHandlerInfosWithQueryParams router handlers' queryParams;
      Ok (handlerInfo :: handlerInfos)
  end.

(** The value that a handler info holds for a key its handler declares,
    given the router's current query params and those of the transition:
    the new value if there is one, else the current one, and nothing when
    that value is [null], [false] or [undefined]. *)
Definition active_param (current new : Object) (key : string)
    : option Value :=
  match new !! key with
  | Some v => if removes v then None else Some v
  | None =>
      match current !! key with
      | Some v => if removes v then None else Some v
      | None => None
      end
  end.

(** [queryParamsForHandler(router, handlerName)], lines 1150-1159. *)
Definition queryParamsForHandler (router : t) (handlerName : string)
    : result (list string) :=
  handlers ←! handlersFor (recognizer router) handlerName;
  Ok (concat ((λ handler, default [] (Handler.queryParams handler))
              <$> handlers)).

(** ** Handler infos of a transition

    A handler is an object of the application and a context is whatever a
    model hook resolved to; both are compared by identity. *)

Module HandlerInfo.
Record t (H C : Type) := mk {
  isDynamic : bool;
  name : string;
  handler : H;
  context : C;
  queryParams : option Object
}.
Arguments mk {H C}.
Arguments isDynamic {H C}.
Arguments name {H C}.
Arguments handler {H C}.
Arguments context {H C}.
Arguments queryParams {H C}.
End HandlerInfo.

Module Partition.
Record t (H C : Type) := mk {
  updatedContext : list (HandlerInfo.t H C);
  exited : list (HandlerInfo.t H C);
  entered : list (HandlerInfo.t H C);
  unchanged : list (HandlerInfo.t H C)
}.
Arguments mk {H C}.
Arguments updatedContext {H C}.
Arguments exited {H C}.
Arguments entered {H C}.
Arguments unchanged {H C}.
End Partition.

Section Handlers.

Context {H C : Type} `{!EqDecision H, !EqDecision C}.

(** The first loop of [partitionHandlers], lines 1514-1532; the three flags
    are declared outside the loop and never reset. *)
Fixpoint partition_loop (i : nat)
    (oldHandlers newHandlers : list (HandlerInfo.t H C))
    (handlerChanged contextChanged queryParamsChanged : bool)
    (handlers : Partition.t H C) : result (Partition.t H C) :=
  match newHandlers with
  | [] => Ok handlers
  | newHandler :: newHandlers' =>
      match oldHandlers !! i with
      | None =>
          partition_loop (S i) oldHandlers newHandlers'
            true contextChanged queryParamsChanged
            (Partition.mk (Partition.updatedContext handlers)
               (Partition.exited handlers)
               (Partition.entered handlers ++ [newHandler])
               (Partition.unchanged handlers))
      | Some oldHandler =>
          let differ :=
            negb (bool_decide (HandlerInfo.handler oldHandler
                               = HandlerInfo.handler newHandler)) in
          let handlerChanged := handlerChanged || differ in
          equal ←!
            (if differ then Ok true
             else queryParamsEqual (HandlerInfo.queryParams oldHandler)
                    (HandlerInfo.queryParams newHandler));
          let queryParamsChanged := queryParamsChanged || negb equal in
          if handlerChanged then
            partition_loop (S i) oldHandlers newHandlers'
              handlerChanged contextChanged queryParamsChanged
              (Partition.mk (Partition.updatedContext handlers)
                 (oldHandler :: Partition.exited handlers)
                 (Partition.entered handlers ++ [newHandler])
                 (Partition.unchanged handlers))
          else if contextChanged
                  || negb (bool_decide (HandlerInfo.context oldHandler
                                        = HandlerInfo.context newHandler))
                  || queryParamsChanged then
            partition_loop (S i) oldHandlers newHandlers'
              handlerChanged true queryParamsChanged
              (Partition.mk (Partition.updatedContext handlers ++ [newHandler])
                 (Partition.exited handlers)
                 (Partition.entered handlers)
                 (Partition.unchanged handlers))
          else
            partition_loop (S i) oldHandlers newHandlers'
              handlerChanged contextChanged queryParamsChanged
              (Partition.mk (Partition.updatedContext handlers)
                 (Partition.exited handlers)
                 (Partition.entered handlers)
                 (Partition.unchanged handlers ++ [oldHandler]))
      end
  end.

(** The query params of a handler info have no own property
    [hasOwnProperty]. *)
Definition plain_query_params (info : HandlerInfo.t H C) : Prop :=
  default ∅ (HandlerInfo.queryParams info) !! "hasOwnProperty" = None.

(** [partitionHandlers(oldHandlers, newHandlers)], lines 1504-1539; the
    second loop unshifts the old handlers beyond the new ones. *)
Definition partitionHandlers (oldHandlers newHandlers : list (HandlerInfo.t H C))
    : result (Partition.t H C) :=
  handlers ←!
    partition_loop 0 oldHandlers newHandlers false false false
      (Partition.mk [] [] [] []);
  Ok (Partition.mk (Partition.updatedContext handlers)
        (reverse (drop (length newHandlers) oldHandlers)
         ++ Partition.exited handlers)
        (Partition.entered handlers)
        (Partition.unchanged handlers)).

End Handlers.

(** ** Events *)

Inductive Error :=
  | NoActiveHandlers (name : string)   (* "Could not trigger event '...'. There are no active handlers" *)
  | NothingHandled (name : string).    (* "Nothing handled the event '...'." *)

Section Events.

Context {H C : Type}.

(** What a handler does with an event: [events handler name] is [None]
    unless [handler.events && handler.events[name]] holds, and otherwise
    tells whether the call of that function returns [true]. *)
Variable events : H → string → option bool.

(** The loop of lines 1556-1567 over the handler infos from the last to the
    first: the handlers whose function was called, and the final
    [eventWasHandled], or [None] after the [return] inside the loop. *)
Fixpoint trigger_loop (name : string) (handlerInfos : list (HandlerInfo.t H C))
    (eventWasHandled : bool) (called : list H) : list H * option bool :=
  match handlerInfos with
  | [] => (called, Some eventWasHandled)
  | handlerInfo :: handlerInfos' =>
      let handler := HandlerInfo.handler handlerInfo in
      match events handler name with
      | Some true => trigger_loop name handlerInfos' true (called ++ [handler])
      | Some false => (called ++ [handler], None)
      | None => trigger_loop name handlerInfos' eventWasHandled called
      end
  end.

(** [trigger(router, handlerInfos, ignoreFailure, [name, ...])], lines
    1541-1572, on a router without a [triggerEvent] hook: the handlers
    called, in order, and the error thrown if any. *)
Definition trigger (handlerInfos : option (list (HandlerInfo.t H C)))
    (ignoreFailure : bool) (name : string) : list H * option Error :=
  match handlerInfos with
  | None =>
      ([], if ignoreFailure then None else Some (NoActiveHandlers name))
  | Some handlerInfos =>
      let '(called, finished) :=
        trigger_loop name (reverse handlerInfos) false [] in
      (called,
       match finished with
       | Some false =>
           if ignoreFailure then None else Some (NothingHandled name)
       | _ => None
       end)
  end.

End Events.

End Router.

(** * Locations

    [Ember.HistoryLocation] and [Ember.HashLocation] (lines 5922-6279) turn
    the URL that the router generates into what the browser shows, and
    back. [isEnabled] stands for [Ember.FEATURES.isEnabled]. *)

(** [s.replace(/\/$/, '')]: [s] without one trailing slash. *)
Definition strip_trailing_slash (s : string) : string :=
  if bool_decide (last (chars s) = Some "/"%char)
  then substr s 0 (String.length s - 1)
  else s.

(** [s.replace(pattern, '')] for a string [pattern]: [s] without the first
    occurrence of [pattern]. *)
Fixpoint remove_first (pattern s : list ascii) : list ascii :=
  if bool_decide (pattern `prefix_of` s) then drop (length pattern) s
  else match s with
       | [] => []
       | a :: s' => a :: remove_first pattern s'
       end.

Module HistoryLocation.

(** The members of [window.location] that are read. *)
Record Location := mkLocation {
  pathname : string;
  search : string
}.

Record t := mk {
  rootURL : string;
  location : Location
}.

(** Lines 6112-6126. *)
Definition getURL (isEnabled : string → bool) (this : t) : string :=
  let rootURL := strip_trailing_slash (rootURL this) in
  let path := pathname (location this) in
  let url := str (remove_first (chars rootURL) (chars path)) in
  if isEnabled "query-params" then url +:+ search (location this) else url.

(** Lines 6253-6261. *)
Definition formatURL (this : t) (url : string) : string :=
  let rootURL :=
    if bool_decide (url = "") then rootURL this
    else strip_trailing_slash (rootURL this) in
  rootURL +:+ url.

End HistoryLocation.

Module HashLocation.

Record Location := mkLocation {
  href : string;
  hash : string
}.

(** Lines 5952-5967. *)
Definition getURL (isEnabled : string → bool) (location : Location) : string :=
  if isEnabled "query-params" then
    match indexOf (href location) "#" with
    | None => ""
    | Some hashIndex => substr_from (href location) (hashIndex + 1)
    end
  else substr_from (hash location) 1.

(** Lines 6035-6037. *)
Definition formatURL (url : string) : string := "#" +:+ url.

End HashLocation.

(** * Route maps

    The map DSL of the recognizer (lines 476-592), [Router.prototype.map]
    (lines 811-819) and Ember's [RouterDSL] (lines 2063-2160), which drives
    it through the function that [DSL.prototype.generate] returns.

    The objects [routes], [children] and [queryParams] of a [Matcher] are
    tables from full paths to values, enumerated in insertion order; the
    paths are taken to start with [/], as all those that Ember's router
    passes do, so that none of them is an array index or names a member of
    [Object.prototype]. Neither the router nor the recognizer has a
    delegate. *)

(** [o[key]] and [o[key] = v] on such a table. *)
Definition oget {V} (o : list (string * V)) (key : string) : option V :=
  snd <$> List.find (λ kv, bool_decide (kv.1 = key)) o.

Fixpoint oset {V} (o : list (string * V)) (key : string) (v : V)
    : list (string * V) :=
  match o with
  | [] => [(key, v)]
  | (k, x) :: o' =>
      if bool_decide (k = key) then (k, v) :: o' else (k, x) :: oset o' key v
  end.

(** An entry [[url, name, callback, queryParams]] of the [matches] of a
    DSL (line 2108). [callback] is [null] or the function that [generate]
    returned for a nested DSL; such a function is given by the entries it
    iterates over. *)
Module DslMatch.
#[warnings="-register-all"] Inductive t := mk {
  url : string;
  name : string;
  callback : option (list t);
  queryParams : option (list string)
}.
End DslMatch.

Module Matcher.

#[warnings="-register-all"] Inductive t := mk {
  routes : list (string * string);
  children : list (string * t);
  queryParams : list (string * list string);
  target : option string
}.

(** [new Matcher(target)]. *)
Definition new (target : option string) : t := mk [] [] [] target.

Definition add (this : t) (path handler : string) : t :=
  mk (oset (routes this) path handler) (children this) (queryParams this)
    (target this).

Definition addQueryParams (this : t) (path : string) (params : list string)
    : t :=
  mk (routes this) (children this) (oset (queryParams this) path params)
    (target this).

End Matcher.

Section RouteMaps.

(** [Ember.FEATURES.isEnabled]. *)
Variable isEnabled : string → bool.

(** One turn of the loop of lines 2127-2135,
    [match(url).to(name, callback)] followed by [withQueryParams], where
    [match] is [generateMatch(startingPath, matcher, delegate)]: the matcher
    afterwards, or [None] for the Error that [withQueryParams] throws when
    it is given no argument. With a callback, [to] has [addChild] make a
    matcher for the target and run the callback on it. *)
Fixpoint call_match (startingPath : string) (matcher : Matcher.t)
    (dslMatch : DslMatch.t) {struct dslMatch} : option Matcher.t :=
  match dslMatch with
  | DslMatch.mk url target callback queryParams =>
      let path := startingPath +:+ url in
      let matcher := Matcher.add matcher path target in
      matcher ←
        match callback with
        | Some dslMatches =>
            child ←
              (fix each (dslMatches : list DslMatch.t) (child : Matcher.t)
                 : option Matcher.t :=
                 match dslMatches with
                 | [] => Some child
                 | dslMatch :: dslMatches' =>
                     child ← call_match path child dslMatch;
                     each dslMatches' child
                 end) dslMatches (Matcher.new (Some target));
            Some (Matcher.mk (Matcher.routes matcher)
                    (oset (Matcher.children matcher) path child)
                    (Matcher.queryParams matcher) (Matcher.target matcher))
        | None => Some matcher
        end;
      if isEnabled "query-params" then
        match queryParams with
        | Some [] => None
        | Some params => Some (Matcher.addQueryParams matcher path params)
        | None => Some matcher
        end
      else Some matcher
  end.

(** The function that [generate] returns, applied to
    [generateMatch(startingPath, matcher, delegate)]. *)
Fixpoint call_matches (startingPath : string) (matcher : Matcher.t)
    (dslMatches : list DslMatch.t) : option Matcher.t :=
  match dslMatches with
  | [] => Some matcher
  | dslMatch :: dslMatches' =>
      matcher ← call_match startingPath matcher dslMatch;
      call_matches startingPath matcher dslMatches'
  end.

(** [addRoute(routeArray, path, handler, queryParams)], lines 553-563, on
    a copy of the array. *)
Definition addRoute (routeArray : list Route.t) (path handler : string)
    (queryParams : option (list string)) : list Route.t :=
  let len := sum_list (String.length ∘ Route.path <$> routeArray) in
  routeArray ++ [Route.mk (substr_from path len) handler queryParams].

(** [eachRoute(baseRoute, matcher, callback, binding)], lines 565-581: the
    route arrays that the callback is called with, in order. *)
Fixpoint eachRoute (baseRoute : list Route.t) (matcher : Matcher.t)
    {struct matcher} : list (list Route.t) :=
  match matcher with
  | Matcher.mk routes children queryParams _ =>
      let below :=
        (fix each (children : list (string * Matcher.t))
           : list (string * (list Route.t → list (list Route.t))) :=
           match children with
           | [] => []
           | (path, child) :: children' =>
               (path, λ routeArray, eachRoute routeArray child)
               :: each children'
           end) children in
      flat_map (λ '(path, handler),
        let routeArray :=
          addRoute baseRoute path handler (oget queryParams path) in
        match oget below path with
        | Some recurse => recurse routeArray
        | None => [routeArray]
        end) routes
  end.

(** [RouteRecognizer.prototype.map(callback, addRouteCallback)], lines
    583-592, for a callback that [generate] returned. *)
Definition RouteRecognizer_map (this : RouteRecognizer)
    (callback : list DslMatch.t)
    (addRouteCallback :
       option (RouteRecognizer → list Route.t → RouteRecognizer))
    : option RouteRecognizer :=
  matcher ← call_matches "" (Matcher.new None) callback;
  Some (foldl (λ this route,
                 match addRouteCallback with
                 | Some f => f this route
                 | None => add this route None
                 end) this (eachRoute [] matcher)).

(** [Router.prototype.map(callback)], lines 811-819: every route array is
    added under the name of its last handler. *)
Definition Router_map (recognizer : RouteRecognizer)
    (callback : list DslMatch.t) : option RouteRecognizer :=
  RouteRecognizer_map recognizer callback
    (Some (λ recognizer route,
             let lastHandler := Route.handler <$> last route in
             add recognizer route lastHandler)).

End RouteMaps.

(** ** Ember's router DSL (lines 2063-2160)

    A callback that is called with a DSL as [this] is given by what it
    does to the DSL. *)

Module DSL.

(** The options of [route] and [resource] that are read. *)
Record Options := mkOptions {
  path : option string;
  queryParams : option (list string)
}.

Record t := mk {
  parent : option string;
  matches : list DslMatch.t;
  explicitIndex : bool
}.

(** [new DSL(name)]. *)
Definition new (name : option string) : t := mk name [] false.

(** [push], lines 2104-2109. *)
Definition push (this : t) (url name : string)
    (callback : option (list DslMatch.t)) (queryParams : option (list string))
    : t :=
  let parts := split "." name in
  mk (parent this)
    (matches this ++ [DslMatch.mk url name callback queryParams])
    (explicitIndex this
     || bool_decide (url = "") || bool_decide (url = "/")
     || bool_decide (last parts = Some "index")).

(** The function [route(dsl, name, options)], lines 2140-2154. *)
Definition route (dsl : t) (name : string) (options : Options) : t :=
  let path := default ("/" +:+ name) (path options) in
  let name :=
    match parent dsl with
    | Some parent =>
        if bool_decide (parent = "") || bool_decide (parent = "application")
        then name
        else parent +:+ "." +:+ name
    | None => name
    end in
  push dsl path name None (queryParams options).

Section Features.

Variable isEnabled : string → bool.

(** [DSL.prototype.route], lines 2111-2117. *)
Definition prototype_route (this : t) (name : string) (options : Options)
    : t :=
  let this := route this name options in
  if isEnabled "ember-routing-named-substates" then
    let this := route this (name +:+ "_loading") (mkOptions None None) in
    route this (name +:+ "_error")
      (mkOptions
         (Some ("/_unused_dummy_error_path_route_" +:+ name +:+ "/:error"))
         None)
  else this.

(** [DSL.prototype.generate], lines 2119-2137: the entries that the
    returned function iterates over. *)
Definition generate (this : t) : list DslMatch.t :=
  matches (if explicitIndex this then this
           else prototype_route this "index" (mkOptions (Some "/") None)).

(** [DSL.prototype.resource], lines 2069-2102. *)
Definition resource (this : t) (name : string) (options : Options)
    (callback : option (t → t)) : t :=
  let path := default ("/" +:+ name) (path options) in
  let this :=
    match callback with
    | Some callback =>
        let dsl := new (Some name) in
        let dsl := route dsl "loading" (mkOptions None None) in
        let dsl :=
          route dsl "error"
            (mkOptions
               (Some ("/_unused_dummy_error_path_route_" +:+ name
                      +:+ "/:error"))
               None) in
        let dsl := callback dsl in
        push this path name (Some (generate dsl)) (queryParams options)
    | None => push this path name None (queryParams options)
    end in
  if isEnabled "ember-routing-named-substates" then
    let name := default "" (last (split "." name)) in
    let this := route this (name +:+ "_loading") (mkOptions None None) in
    route this (name +:+ "_error")
      (mkOptions
         (Some ("/_unused_dummy_error_path_route_" +:+ name +:+ "/:error"))
         None)
  else this.

(** [DSL.map(callback)], lines 2156-2160. *)
Definition map (callback : t → t) : t := callback (new None).

End Features.

End DSL.

(** The [dsl] of [Ember.Router.map(callback)], lines 2775-2782, on a
    router whose earlier callbacks are [callbacks]. *)
Definition application_dsl (isEnabled : string → bool)
    (callbacks : list (DSL.t → DSL.t)) (callback : DSL.t → DSL.t) : DSL.t :=
  DSL.map (λ this,
    DSL.resource isEnabled this "application"
      (DSL.mkOptions (Some "/") None)
      (Some (λ this, callback (foldl (λ this callback, callback this)
                                 this callbacks)))).

(** [Ember.Router.map(callback)], lines 2762-2787: the recognizer of the
    router afterwards. *)
Definition EmberRouter_map (isEnabled : string → bool)
    (recognizer : RouteRecognizer) (callbacks : list (DSL.t → DSL.t))
    (callback : DSL.t → DSL.t) : option RouteRecognizer :=
  Router_map isEnabled recognizer
    (DSL.generate isEnabled (application_dsl isEnabled callbacks callback)).

(** ** Generated callbacks as trees of routes *)

Section RouteTrees.

Variable isEnabled : string → bool.

(** The route arrays of an entry: its own route, alone if the entry has no
    callback, and otherwise in front of each route array of the entries of
    its callback. *)
Fixpoint route_arrays (dslMatch : DslMatch.t) : list (list Route.t) :=
  match dslMatch with
  | DslMatch.mk url name callback queryParams =>
      let route :=
        Route.mk url name
          (if isEnabled "query-params" then queryParams else None) in
      match callback with
      | Some dslMatches =>
          (λ routes, route :: routes) <$> flat_map route_arrays dslMatches
      | None => [[route]]
      end
  end.

(** The matcher that a generated callback leaves behind when it is applied
    to [generateMatch(startingPath, new Matcher(target))] and no path
    repeats: [routes], [queryParams] and, with [child_of], [children]. *)
Definition routes_of (startingPath : string) (dslMatches : list DslMatch.t)
    : list (string * string) :=
  (λ m, (startingPath +:+ DslMatch.url m, DslMatch.name m)) <$> dslMatches.

Definition queryParams_of (startingPath : string)
    (dslMatches : list DslMatch.t) : list (string * list string) :=
  omap (λ m, if isEnabled "query-params"
             then (λ params, (startingPath +:+ DslMatch.url m, params))
                  <$> DslMatch.queryParams m
             else None) dslMatches.

Fixpoint child_of (startingPath : string) (dslMatch : DslMatch.t)
    : option (string * Matcher.t) :=
  match dslMatch with
  | DslMatch.mk url name callback _ =>
      let path := startingPath +:+ url in
      match callback with
      | Some dslMatches =>
          Some (path,
                Matcher.mk (routes_of path dslMatches)
                  (omap (child_of path) dslMatches)
                  (queryParams_of path dslMatches) (Some name))
      | None => None
      end
  end.

Definition matcher_of (startingPath : string) (target : option string)
    (dslMatches : list DslMatch.t) : Matcher.t :=
  Matcher.mk (routes_of startingPath dslMatches)
    (omap (child_of startingPath) dslMatches)
    (queryParams_of startingPath dslMatches) target.

(** The callbacks on which no path repeats under one parent, and on which
    [withQueryParams] is never called without arguments. *)
Inductive well_formed : list DslMatch.t → Prop :=
  | well_formed_intro dslMatches :
      NoDup (DslMatch.url <$> dslMatches) →
      (∀ m, m ∈ dslMatches → isEnabled "query-params" = true →
            DslMatch.queryParams m ≠ Some []) →
      (∀ m dslMatches', m ∈ dslMatches →
         DslMatch.callback m = Some dslMatches' → well_formed dslMatches') →
      well_formed dslMatches.

End RouteTrees.

(** ** Callbacks that only declare routes *)

(** An entry that makes [push] set [explicitIndex] (line 2106). *)
Definition is_index (m : DslMatch.t) : Prop :=
  DslMatch.url m = "" ∨ DslMatch.url m = "/"
  ∨ last (split "." (DslMatch.name m)) = Some "index".

(** A DSL whose [explicitIndex] is set has an index entry. *)
Definition indexed (dsl : DSL.t) : Prop :=
  DSL.explicitIndex dsl = true → Exists is_index (DSL.matches dsl).

(** What a callback of that kind does to a DSL: it keeps the parent, appends
    entries, and keeps the DSL indexed. *)
Definition extends_dsl (this this' : DSL.t) : Prop :=
  DSL.parent this' = DSL.parent this
  ∧ DSL.matches this `prefix_of` DSL.matches this'
  ∧ (indexed this → indexed this').

(** The callbacks that do nothing but call [this.route] and
    [this.resource], the latter with callbacks of the same kind. *)
Inductive declares (isEnabled : string → bool) : (DSL.t → DSL.t) → Prop :=
  | declares_nothing : declares isEnabled (λ this, this)
  | declares_route callback name options :
      declares isEnabled callback →
      declares isEnabled
        (λ this, DSL.prototype_route isEnabled (callback this) name options)
  | declares_resource callback name options nested :
      declares isEnabled callback →
      (∀ callback', nested = Some callback' → declares isEnabled callback') →
      declares isEnabled
        (λ this, DSL.resource isEnabled (callback this) name options nested).

(** The two entries that [resource] gives every nested DSL to begin with
    (lines 2085-2086), and the two that follow a resource of a DSL without
    parent when named substates are enabled (lines 2099-2100). *)
Definition loading_entry (parent : string) : DslMatch.t :=
  DslMatch.mk "/loading"
    (if bool_decide (parent = "") || bool_decide (parent = "application")
     then "loading" else parent +:+ ".loading")
    None None.

Definition error_entry (parent : string) : DslMatch.t :=
  DslMatch.mk ("/_unused_dummy_error_path_route_" +:+ parent +:+ "/:error")
    (if bool_decide (parent = "") || bool_decide (parent = "application")
     then "error" else parent +:+ ".error")
    None None.

Definition top_substates (isEnabled : string → bool) (name : string)
    : list DslMatch.t :=
  if isEnabled "ember-routing-named-substates" then
    [DslMatch.mk ("/" +:+ name +:+ "_loading") (name +:+ "_loading") None None;
     DslMatch.mk ("/_unused_dummy_error_path_route_" +:+ name +:+ "/:error")
       (name +:+ "_error") None None]
  else [].

(** The callback that [Ember.Router.map] hands to the router, for the
    entries [children] that the application's callbacks add after the
    first two. *)
Definition application_tree (isEnabled : string → bool)
    (children : list DslMatch.t) : list DslMatch.t :=
  DslMatch.mk "/" "application"
    (Some (loading_entry "application" :: error_entry "application"
           :: children)) None
  :: top_substates isEnabled "application".

(** ** A route map used in the closed examples *)

(** Query params enabled, named substates not. *)
Definition features (flag : string) : bool :=
  bool_decide (flag = "query-params").

(** [this.route("about"); this.resource("posts", {queryParams: ["page"]},
    function() { this.route("new"); })]. *)
Definition blog_map (this : DSL.t) : DSL.t :=
  DSL.resource features
    (DSL.prototype_route features this "about" (DSL.mkOptions None None))
    "posts" (DSL.mkOptions None (Some ["page"]))
    (Some (λ this,
       DSL.prototype_route features this "new" (DSL.mkOptions None None))).

(** The entries of the function that [Ember.Router.map(blog_map)] hands to
    the router. *)
Definition blog_tree : list DslMatch.t :=
  Eval vm_compute in
    DSL.generate features (application_dsl features [] blog_map).

(** * Properties *)

(** ** Named routes: [hasRoute], [handlersFor], [generate] *)

Lemma build_snoc regs reg : build (regs ++ [reg]) = register (build regs) reg.
Proof. unfold build. by rewrite foldl_app. Qed.

Lemma names_add this routes as_ :
  names (add this routes as_) =
  match as_ with
  | Some name =>
      if bool_decide (name = "") then names this
      else <[name := NamedRoute.mk
                        (add_routes routes (heap this) rootState [RBol]
                           (mkTypes 0 0 0) [] [] true).1.2
                        (add_routes routes (heap this) rootState [RBol]
                           (mkTypes 0 0 0) [] [] true).1.1.2]> (names this)
  | None => names this
  end.
Proof.
  unfold add.
  destruct (add_routes _ _ _ _ _ _ _ _) as [[[[[[h cur] rx] ty] hs] segs] e].
  destruct e; [destruct (State_put _ _ _)|]; simpl; by destruct as_.
Qed.

Lemma names_build_registered regs name :
  is_Some (names (build regs) !! name) ↔ registered_name regs name.
Proof.
  induction regs as [|[routes as_] regs IH] using rev_ind.
  - unfold registered_name. cbn. rewrite lookup_empty. split.
    + by intros [? ?].
    + intros [_ [? H]]. by apply elem_of_nil in H.
  - rewrite build_snoc. unfold register. simpl. rewrite names_add.
    unfold registered_name in *.
    destruct as_ as [n|].
    + case_bool_decide as Hn.
      * rewrite IH. split; intros [Hne [r Hr]]; split; try done.
        -- exists r. apply elem_of_app. by left.
        -- apply elem_of_app in Hr as [Hr|Hr]; [by exists r|].
           apply list_elem_of_singleton in Hr. congruence.
      * destruct (decide (n = name)) as [->|Hneq].
        -- rewrite lookup_insert_eq. split; [|by eauto].
           intros _. split; [done|]. exists routes.
           apply elem_of_app. right. by apply list_elem_of_singleton.
        -- rewrite lookup_insert_ne by done. rewrite IH.
           split; intros [Hne [r Hr]]; split; try done.
           ++ exists r. apply elem_of_app. by left.
           ++ apply elem_of_app in Hr as [Hr|Hr]; [by exists r|].
              apply list_elem_of_singleton in Hr. congruence.
    + rewrite IH. split; intros [Hne [r Hr]]; split; try done.
      * exists r. apply elem_of_app. by left.
      * apply elem_of_app in Hr as [Hr|Hr]; [by exists r|].
        apply list_elem_of_singleton in Hr. congruence.
Qed.

(** Away from the names that [names] inherits, the three operations agree
    with registration. *)
Lemma named_routes_own regs name :
  name ∉ ObjectPrototype →
  ¬ registered_name regs "__proto__" →
  (hasRoute (build regs) name = true ↔ registered_name regs name)
  ∧ (¬ registered_name regs name →
       handlersFor (build regs) name = Throw (NoSuchRoute name)
       ∧ ∀ text enc params, generate text enc (build regs) name params
                            = Throw (NoSuchRoute name)).
Proof.
  intros Hproto Hnp.
  pose proof (names_build_registered regs name) as Hreg.
  pose proof (names_build_registered regs "__proto__") as Hp.
  assert (names (build regs) !! "__proto__" = None) as Hnone.
  { destruct (names (build regs) !! "__proto__") eqn:E; [|done].
    exfalso. apply Hnp, Hp. eauto. }
  unfold hasRoute, handlersFor, generate, names_get. rewrite Hnone.
  destruct (names (build regs) !! name) eqn:E.
  - split; [split; [intros _; apply Hreg; eauto|done]|].
    intros Hn. exfalso. apply Hn, Hreg. eauto.
  - rewrite bool_decide_eq_false_2 by done.
    rewrite (bool_decide_eq_false_2 (is_Some None)) by (by intros [? ?]).
    simpl. split; [|done].
    split; [done|]. intros H. apply Hreg in H as [? ?]. done.
Qed.

(** C7 (failing input). On a recognizer without any route, the name
    [constructor] is reported as a route by [hasRoute], and [handlersFor]
    and [generate] fail on it with a [TypeError] instead of the "There is no
    route named" error: the lookup [this.names[name]] finds the member
    that [names] inherits from [Object.prototype]. *)
Theorem hasRoute_inherited_name :
  ¬ registered_name [] "constructor"
  ∧ hasRoute (build []) "constructor" = true
  ∧ handlersFor (build []) "constructor" = Throw TypeError
  ∧ ∀ text enc params,
      generate text enc (build []) "constructor" params = Throw TypeError.
Proof.
  split; [|by repeat split].
  intros [_ [r H]]. by apply elem_of_nil in H.
Qed.

(** ** Edge interning: [get] and [put] *)

Lemma isEqual_same_chars h cs child :
  isEqual h cs child = true ↔
  ∃ cs', child_spec h child = Some cs' ∧ same_chars cs' cs.
Proof.
  unfold isEqual, same_chars. destruct (child_spec h child) as [cs'|].
  - rewrite andb_true_iff, !bool_decide_eq_true. split.
    + intros [? ?]. by exists cs'.
    + intros (? & [= <-] & ? & ?). done.
  - split; [done|]. by intros (? & ? & _).
Qed.

Lemma State_get_Some h this cs child :
  State_get h this cs = Some child →
  ∃ st, h !! this = Some st ∧ child ∈ nextStates st ∧ isEqual h cs child = true.
Proof.
  unfold State_get. destruct (h !! this) as [st|]; [|done]. simpl.
  intros [Hin Heq]%List.find_some. exists st. by rewrite list_elem_of_In.
Qed.

Lemma State_get_None h this st cs :
  h !! this = Some st →
  State_get h this cs = None →
  ∀ child, child ∈ nextStates st → isEqual h cs child = false.
Proof.
  unfold State_get. intros -> Hf child Hin. simpl in Hf.
  eapply List.find_none in Hf; [done|]. by apply list_elem_of_In.
Qed.

Lemma State_get_is_Some h this st cs child :
  h !! this = Some st → child ∈ nextStates st → isEqual h cs child = true →
  is_Some (State_get h this cs).
Proof.
  intros Hst Hin Heq. destruct (State_get h this cs) eqn:E; [eauto|].
  by rewrite (State_get_None _ _ _ _ Hst E child Hin) in Heq.
Qed.

Lemma emitted_same_chars a b :
  emitted a → emitted b → same_chars a b → a = b.
Proof.
  assert (∀ seg cs, cs ∈ eachChar seg →
            (∃ c, cs = mkCharSpec (Some (String c "")) None false)
            ∨ cs = mkCharSpec None (Some "/") true
            ∨ cs = mkCharSpec None (Some "") true) as Hshape.
  { intros [s| | |] cs; simpl.
    - intros (c & -> & _)%list_elem_of_fmap. eauto.
    - intros ->%list_elem_of_singleton. eauto.
    - intros ->%list_elem_of_singleton. eauto.
    - by intros ?%elem_of_nil. }
  assert (∀ cs, emitted cs →
            (∃ c, cs = mkCharSpec (Some (String c "")) None false)
            ∨ cs = mkCharSpec None (Some "/") true
            ∨ cs = mkCharSpec None (Some "") true) as Hem.
  { intros cs [->|[seg Hin]]; [left; by exists "/"%char|by eapply Hshape]. }
  intros Ha%Hem Hb%Hem [Hv Hi].
  destruct Ha as [[c ->]|[->| ->]], Hb as [[c' ->]|[->| ->]];
    simpl in *; congruence.
Qed.

(** On any heap, [get] finds a child by its valid and invalid characters,
    and [put] returns the child that [get] finds or else makes a new state,
    which it appends to the children of [this], and to its own if the
    specification repeats. *)
Lemma State_put_same_chars (h : Heap) (this : nat) (st : State) (cs : CharSpec) :
  h !! this = Some st →
  let same child := ∃ cs', child_spec h child = Some cs' ∧ same_chars cs' cs in
  (∀ child, isEqual h cs child = true ↔ same child)
  ∧ ((∃ child, child ∈ nextStates st ∧ same child) ↔
     (∃ child, State_put h this cs = (h, child)
               ∧ child ∈ nextStates st ∧ same child))
  ∧ ((¬ ∃ child, child ∈ nextStates st ∧ same child) →
     (State_put h this cs).2 = length h
     ∧ length (State_put h this cs).1 = S (length h)
     ∧ child_spec (State_put h this cs).1 (length h) = Some cs
     ∧ ∃ st', (State_put h this cs).1 !! this = Some st'
              ∧ nextStates st' = nextStates st ++ [length h]).
Proof.
  intros Hst same. split; [intros; apply isEqual_same_chars|]. split.
  - split.
    + intros (child & Hin & Hsame).
      apply isEqual_same_chars in Hsame.
      destruct (State_get_is_Some _ _ _ _ _ Hst Hin Hsame) as [c Hc].
      exists c. unfold State_put. rewrite Hc.
      apply State_get_Some in Hc as (st' & Hst' & Hin' & Heq').
      rewrite Hst in Hst'. injection Hst' as <-.
      split; [done|]. split; [done|]. by apply isEqual_same_chars.
    + intros (child & _ & Hin & Hsame). eauto.
  - intros Hno. unfold State_put.
    destruct (State_get h this cs) as [c|] eqn:E.
    + exfalso. apply Hno.
      apply State_get_Some in E as (st' & Hst' & Hin' & Heq').
      rewrite Hst in Hst'. injection Hst' as <-.
      exists c. split; [done|]. by apply isEqual_same_chars.
    + simpl. pose proof (lookup_lt_Some _ _ _ Hst) as Hlt.
      assert (child_spec (push_child (h ++ [mkState (Some cs) [] None]) this
                (length h)) (length h) = Some cs) as Hnew.
      { unfold child_spec, push_child.
        rewrite list_lookup_alter_ne by lia.
        by rewrite list_lookup_middle. }
      assert (∃ st', push_child (h ++ [mkState (Some cs) [] None]) this
                       (length h) !! this = Some st'
                     ∧ nextStates st' = nextStates st ++ [length h])
        as (st' & Hst' & Hnext).
      { unfold push_child. rewrite list_lookup_alter_eq.
        rewrite lookup_app_l, Hst by done. simpl. by eexists. }
      destruct (repeat cs).
      * unfold push_child at 1 3. rewrite length_alter.
        unfold push_child at 1 2. rewrite length_alter, length_app. simpl.
        split; [done|]. split; [lia|]. split.
        -- unfold child_spec, push_child. rewrite list_lookup_alter_eq.
           rewrite list_lookup_alter_ne by lia.
           by rewrite list_lookup_middle.
        -- exists st'. split; [|done]. unfold push_child at 1.
           by rewrite list_lookup_alter_ne by lia.
      * unfold push_child at 1. rewrite length_alter, length_app. simpl.
        split; [done|]. split; [lia|]. split; [done|]. by exists st'.
Qed.


(** ** Strings as lists of characters *)

Lemma str_chars s : str (chars s) = s.
Proof. apply string_of_list_ascii_of_string. Qed.

Lemma chars_str l : chars (str l) = l.
Proof. apply list_ascii_of_string_of_list_ascii. Qed.

Lemma chars_inj s t : chars s = chars t → s = t.
Proof. intros H. by rewrite <-(str_chars s), <-(str_chars t), H. Qed.

Lemma str_inj l k : str l = str k → l = k.
Proof. intros H. by rewrite <-(chars_str l), <-(chars_str k), H. Qed.

Lemma chars_app s t : chars (s +:+ t) = chars s ++ chars t.
Proof. induction s as [|a s IH]; simpl; [done|]. unfold chars in *. simpl. by rewrite IH. Qed.

Lemma str_app l k : str (l ++ k) = str l +:+ str k.
Proof. apply chars_inj. by rewrite chars_app, !chars_str. Qed.

Lemma chars_cons a s : chars (String a s) = a :: chars s.
Proof. done. Qed.

Lemma chars_length s : length (chars s) = String.length s.
Proof. induction s; simpl; [done|]. unfold chars in *. simpl. by f_equal. Qed.

Lemma chars_nil s : chars s = [] ↔ s = "".
Proof. split; [|by intros ->]. by destruct s. Qed.

Lemma str_nil l : str l = "" ↔ l = [].
Proof. split; [|by intros ->]. by destruct l. Qed.

Lemma split_chars_no_sep c l : c ∉ l → split_chars c l = [l].
Proof.
  induction l as [|a l IH]; [done|]. intros Hnin. simpl.
  rewrite not_elem_of_cons in Hnin. destruct Hnin as [Hne Hnin].
  rewrite decide_False by done. by rewrite IH.
Qed.

Lemma split_chars_app c l k :
  c ∉ l → split_chars c (l ++ c :: k) = l :: split_chars c k.
Proof.
  induction l as [|a l IH]; intros Hnin; simpl.
  - by rewrite decide_True.
  - rewrite not_elem_of_cons in Hnin. destruct Hnin as [Hne Hnin].
    rewrite decide_False by done. by rewrite IH.
Qed.

Lemma split_chars_pieces c l x : x ∈ split_chars c l → c ∉ x.
Proof.
  revert x. induction l as [|a l IH]; intros x; simpl.
  - intros ->%list_elem_of_singleton. apply not_elem_of_nil.
  - destruct (decide (a = c)) as [->|Hne].
    + intros [->|Hin]%elem_of_cons; [apply not_elem_of_nil|by apply IH].
    + destruct (split_chars c l) as [|y ys] eqn:E.
      * intros ->%list_elem_of_singleton. rewrite not_elem_of_cons.
        split; [done|apply not_elem_of_nil].
      * intros [->|Hin]%elem_of_cons.
        -- rewrite not_elem_of_cons. split; [done|]. apply IH. by left.
        -- apply IH. by right.
Qed.

(** ** Query strings *)



Lemma assign_lookup {V} (m : gmap string V) key value k v :
  assign m key value !! k = Some v →
  m !! k = Some v ∨ (k = key ∧ v = value ∧ key ≠ "__proto__").
Proof.
  unfold assign. case_bool_decide as Hp; [by left|].
  destruct (decide (key = k)) as [->|Hne].
  - rewrite lookup_insert_eq. intros [= <-]. by right.
  - rewrite lookup_insert_ne by done. by left.
Qed.

Lemma parse_pairs_cons dec p pairs m :
  parse_pairs dec (p :: pairs) m
  = ('(key, value) ←! parse_pair dec p;
     parse_pairs dec pairs (assign m key value)).
Proof.
  simpl. unfold parse_pair.
  destruct (dec (default "" (split "=" p !! 0))); simpl; [|done].
  by destruct (match split "=" p !! 1 with Some _ => _ | None => _ end).
Qed.

Lemma parse_pairs_app dec pre post m :
  parse_pairs dec (pre ++ post) m
  = (m' ←! parse_pairs dec pre m; parse_pairs dec post m').
Proof.
  revert m. induction pre as [|p pre IH]; intros m; [done|].
  rewrite <-app_comm_cons, !parse_pairs_cons.
  destruct (parse_pair dec p) as [[k v]|]; simpl; [|done]. apply IH.
Qed.

Lemma parse_pairs_keep dec pairs m m' k :
  parse_pairs dec pairs m = Ok m' →
  Forall (λ p, ∀ v, parse_pair dec p ≠ Ok (k, v)) pairs →
  m' !! k = m !! k.
Proof.
  revert m. induction pairs as [|p pairs IH]; intros m.
  - by intros [= <-].
  - rewrite parse_pairs_cons. intros H [Hp Hall]%Forall_cons.
    destruct (parse_pair dec p) as [[k' v']|] eqn:E; simpl in H; [|done].
    rewrite (IH _ H Hall). unfold assign. case_bool_decide; [done|].
    apply lookup_insert_ne. intros ->. by apply (Hp v').
Qed.


Lemma split_flag k : "="%char ∉ chars k → split "=" k = [k].
Proof.
  intros H. unfold split. rewrite split_chars_no_sep by done.
  simpl. by rewrite str_chars.
Qed.










Section QueryStrings.

Variable decodeURIComponent : string → result string.

(** What the host function guarantees: only the empty string decodes to
    the empty string. *)
Hypothesis decode_nonempty :
  ∀ s t, decodeURIComponent s = Ok t → t = "" → s = "".





End QueryStrings.


(** The query string [a=1&draft=&b] binds [draft] and [b] to [true]. *)
Lemma empty_value_example :
  parseQueryString latin1_decodeURIComponent "a=1&draft=&b"
  = Ok {["a" := QString "1"; "draft" := QTrue; "b" := QTrue]}
  ∧ parseQueryString latin1_decodeURIComponent "a=1&draft&b"
    = Ok {["a" := QString "1"; "draft" := QTrue; "b" := QTrue]}.
Proof. split; by vm_compute. Qed.

(** ** Generated query strings *)

Lemma allowed_params_declared handlers key :
  key ∈ allowed_params handlers ↔ declared handlers key.
Proof.
  unfold declared. induction handlers as [|hd handlers IH]; simpl.
  - split; [by intros ?%elem_of_nil|].
    intros (? & ? & ?%elem_of_nil & _). done.
  - destruct (Handler.queryParams hd) as [l|] eqn:E.
    + rewrite elem_of_app, IH. split.
      * intros [Hin|(hd' & l' & Hin & Hq & Hk)].
        -- exists hd, l. split; [by left|done].
        -- exists hd', l'. split; [by right|done].
      * intros (hd' & l' & [->|Hin]%elem_of_cons & Hq & Hk).
        -- left. congruence.
        -- right. eauto.
    + rewrite IH. split.
      * intros (hd' & l' & Hin & Hq & Hk). exists hd', l'.
        split; [by right|done].
      * intros (hd' & l' & [->|Hin]%elem_of_cons & Hq & Hk);
          [congruence|eauto].
Qed.

Section GeneratedQueryStrings.

Variable inheritedText : string → string.
Variable encodeURIComponent : string → result string.

Lemma query_pairs_not_callable params allowed pairs :
  query_pairs encodeURIComponent false params allowed pairs
  = match params with [] => Ok pairs | _ => Throw TypeError end.
Proof. by destruct params as [|[key v] params]. Qed.

Lemma query_pairs_rendered params allowed pairs texts :
  Forall (λ kv, kv.1 ∈ allowed) params →
  Forall2 (rendered encodeURIComponent) params texts →
  query_pairs encodeURIComponent true params allowed pairs
  = Ok (pairs ++ texts).
Proof.
  intros Hall Hr. revert pairs Hall.
  induction Hr as [|[key v] text params texts (ek & Hek & Hv) Hr IH];
    intros pairs Hall; simpl.
  - by rewrite app_nil_r.
  - apply Forall_cons in Hall as [Hk Hall]. simpl in *.
    rewrite bool_decide_eq_true_2 by done. simpl. rewrite Hek. simpl.
    destruct v as [|v].
    + subst text. simpl. rewrite IH by done. by rewrite <-app_assoc.
    + destruct Hv as (ev & Hev & ->). rewrite Hev. simpl.
      rewrite IH by done. by rewrite <-app_assoc.
Qed.

Lemma query_pairs_undeclared before key v after allowed pairs texts :
  Forall (λ kv, kv.1 ∈ allowed) before →
  Forall2 (rendered encodeURIComponent) before texts →
  key ∉ allowed →
  query_pairs encodeURIComponent true (before ++ (key, v) :: after)
    allowed pairs
  = Throw (UnknownQueryParam key).
Proof.
  intros Hall Hr Hk. revert pairs Hall.
  induction Hr as [|[key' v'] text params texts (ek & Hek & Hv) Hr IH];
    intros pairs Hall; simpl.
  - by rewrite bool_decide_eq_false_2.
  - apply Forall_cons in Hall as [Hk' Hall]. simpl in *.
    rewrite bool_decide_eq_true_2 by done. simpl. rewrite Hek. simpl.
    destruct v' as [|v'].
    + simpl. by apply IH.
    + destruct Hv as (ev & Hev & ->). rewrite Hev. simpl. by apply IH.
Qed.

Lemma query_pairs_texts params allowed pairs r :
  query_pairs encodeURIComponent true params allowed pairs = Ok r →
  Forall (λ kv, kv.1 ∈ allowed) params
  ∧ ∃ texts, r = pairs ++ texts
             ∧ Forall2 (rendered encodeURIComponent) params texts.
Proof.
  revert pairs. induction params as [|[key v] params IH]; intros pairs; simpl.
  - intros [= <-]. split; [constructor|]. exists []. by rewrite app_nil_r.
  - case_bool_decide as Hk; simpl; [|done].
    destruct (encodeURIComponent key) as [ek|] eqn:Ek; simpl; [|done].
    destruct v as [|v]; simpl.
    + intros (Hall & texts & -> & Hr)%IH. split; [by constructor|].
      exists (ek :: texts).
      split; [by rewrite <-app_assoc|]. constructor; [|done]. by exists ek.
    + destruct (encodeURIComponent v) as [ev|] eqn:Ev; simpl; [|done].
      intros (Hall & texts & -> & Hr)%IH. split; [by constructor|].
      exists ((ek +:+ "=" +:+ ev) :: texts).
      split; [by rewrite <-app_assoc|]. constructor; [|done].
      exists ek. split; [done|]. by exists ev.
Qed.

Lemma query_pairs_Throw h params allowed pairs key :
  key ∈ params.*1 → key ∉ allowed →
  ∃ e, query_pairs encodeURIComponent h params allowed pairs = Throw e.
Proof.
  destruct h;
    [|destruct params as [|[k v] params];
      [by intros ?%elem_of_nil|intros _ _; by eexists]].
  revert pairs. induction params as [|[k v] params IH]; intros pairs; simpl.
  - by intros ?%elem_of_nil.
  - intros Hin Hk. case_bool_decide as Hkk; simpl; [|by eexists].
    apply elem_of_cons in Hin as [->|Hin]; [done|].
    destruct (encodeURIComponent k) as [ek|]; simpl; [|by eexists].
    destruct v as [|v]; simpl; [by apply IH|].
    destruct (encodeURIComponent v); simpl; [by apply IH|by eexists].
Qed.

Lemma rendered_functional qp texts texts' :
  Forall2 (rendered encodeURIComponent) qp texts →
  Forall2 (rendered encodeURIComponent) qp texts' → texts = texts'.
Proof.
  intros Hr. revert texts'.
  induction Hr as [|kv t qp texts Hkv Hr IH]; intros texts' Hr'.
  - by apply Forall2_nil_inv_l in Hr' as ->.
  - apply Forall2_cons_inv_l in Hr' as (t' & texts0 & Hkv' & Hr' & ->).
    f_equal; [|by apply IH].
    destruct Hkv as (ek & Hek & Hv), Hkv' as (ek' & Hek' & Hv').
    rewrite Hek in Hek'. injection Hek' as <-.
    destruct (kv.2) as [|v]; [congruence|].
    destruct Hv as (ev & Hev & ->), Hv' as (ev' & Hev' & ->).
    congruence.
Qed.

(** What [generateQueryString] returns, and when. *)
Lemma generateQueryString_Ok qp handlers q :
  generateQueryString encodeURIComponent qp handlers = Ok q ↔
  ("hasOwnProperty" ∉ qp.*1)
  ∧ Forall (λ kv, kv.1 ∈ allowed_params handlers) qp
  ∧ ∃ texts, Forall2 (rendered encodeURIComponent) qp texts
             ∧ q = match texts with
                   | [] => ""
                   | _ => "?" +:+ join "&" texts
                   end.
Proof.
  unfold generateQueryString. split.
  - case_bool_decide as Hp; simpl.
    + rewrite query_pairs_not_callable.
      destruct qp as [|kv qp]; [by apply elem_of_nil in Hp|done].
    + destruct (query_pairs _ _ _ _ _) as [pairs|] eqn:E; simpl; [|done].
      apply query_pairs_texts in E as (Hall & texts & -> & Hr). simpl.
      intros Hq. split; [done|]. split; [done|]. exists texts.
      split; [done|]. destruct texts; simpl in *; congruence.
  - intros (Hp & Hall & texts & Hr & ->).
    rewrite bool_decide_eq_false_2 by done. simpl.
    rewrite (query_pairs_rendered _ _ _ texts) by done. simpl.
    by destruct texts.
Qed.

(** C6. For a named route and a [params] object with the query params
    [qp], [generate] appends to the path a query string made of the pairs
    of [qp] in order: if it returns, every key is declared as a valid query
    param by a handler of the route's chain, keys and values are
    URL-encoded, a value [true] gives the encoded key alone, without
    [=value], and nothing is appended when there is no pair. With a key
    that no handler declares, [generate] throws: the "not specified as a
    valid param" error for the first such key, unless an earlier pair made
    [encodeURIComponent] throw or [qp] has an own property [hasOwnProperty],
    which makes the call of line 405 a TypeError. *)
Theorem generate_appends_query_string this name route b qp out :
  names_get (names this) name = EntryRoute route →
  generate_loop inheritedText (NamedRoute.segments route)
    (Some (with_query b qp)) "" = Ok out →
  let url := if bool_decide (charAt out 0 = Some "/"%char) then out
             else "/" +:+ out in
  let call := generate inheritedText encodeURIComponent this name
                (Some (with_query b qp)) in
  let query texts := match texts with
                     | [] => ""
                     | _ => "?" +:+ join "&" texts
                     end in
  (∀ r, call = Ok r ↔
     ("hasOwnProperty" ∉ qp.*1)
     ∧ Forall (λ kv, declared (NamedRoute.handlers route) kv.1) qp
     ∧ ∃ texts, Forall2 (rendered encodeURIComponent) qp texts
                ∧ r = url +:+ query texts)
  ∧ (∀ key, key ∈ qp.*1 → ¬ declared (NamedRoute.handlers route) key →
       ∃ e, call = Throw e)
  ∧ (∀ before key v after texts,
       qp = before ++ (key, v) :: after →
       "hasOwnProperty" ∉ qp.*1 →
       Forall (λ kv, declared (NamedRoute.handlers route) kv.1) before →
       Forall2 (rendered encodeURIComponent) before texts →
       ¬ declared (NamedRoute.handlers route) key →
       call = Throw (UnknownQueryParam key))
  ∧ (("hasOwnProperty" ∈ qp.*1) → call = Throw TypeError).
Proof.
  intros Hname Hout url call query. subst call. unfold generate.
  rewrite Hname. cbn [bind]. rewrite Hout. cbn [bind mbind option_bind].
  fold url. unfold with_query. rewrite lookup_insert_eq.
  assert (∀ l, Forall (λ kv : string * QueryValue,
                 kv.1 ∈ allowed_params (NamedRoute.handlers route)) l
             ↔ Forall (λ kv, declared (NamedRoute.handlers route) kv.1) l)
    as Hdecl.
  { intros l. apply Forall_proper; [|done].
    intros kv. apply allowed_params_declared. }
  split; [|split; [|split]].
  - intros r.
    destruct (generateQueryString _ qp _) as [q|e] eqn:E; simpl.
    + apply generateQueryString_Ok in E as (Hp & Hall & texts & Hr & ->).
      split.
      * intros [= <-]. split; [done|]. split; [by apply Hdecl|]. eauto.
      * intros (_ & _ & texts' & Hr' & ->).
        by rewrite (rendered_functional _ _ _ Hr Hr').
    + split; [done|]. intros (Hp & Hall & texts & Hr & ->). exfalso.
      assert (generateQueryString encodeURIComponent qp
                (NamedRoute.handlers route) = Ok (query texts)) as E'.
      { apply generateQueryString_Ok. split; [done|].
        split; [by apply Hdecl|]. eauto. }
      congruence.
  - intros key Hin Hk. unfold generateQueryString.
    destruct (query_pairs_Throw
                (negb (bool_decide ("hasOwnProperty" ∈ qp.*1))) qp
                (allowed_params (NamedRoute.handlers route)) [] key Hin)
      as [e ->]; [by rewrite allowed_params_declared|].
    by exists e.
  - intros before key v after texts -> Hp Hb Hr Hk.
    unfold generateQueryString. rewrite bool_decide_eq_false_2 by done.
    simpl. erewrite query_pairs_undeclared; [done| |done|].
    + by apply Hdecl.
    + by rewrite allowed_params_declared.
  - intros Hp. unfold generateQueryString.
    rewrite bool_decide_eq_true_2 by done. simpl.
    rewrite query_pairs_not_callable.
    destruct qp as [|kv qp]; [by apply elem_of_nil in Hp|done].
Qed.

End GeneratedQueryStrings.

(** ** Normalisation of the recognized path *)

Lemma indexOf_cons_ne a s c :
  a ≠ c → indexOf (String a s) c = S <$> indexOf s c.
Proof.
  intros Hne. unfold indexOf. rewrite chars_cons. csimpl.
  rewrite decide_False by done.
  by destruct (list_find (λ a0, a0 = c) (chars s)) as [[i x]|].
Qed.

Lemma indexOf_cons_eq c s : indexOf (String c s) c = Some 0.
Proof. unfold indexOf. rewrite chars_cons. csimpl. by rewrite decide_True. Qed.

Lemma indexOf_notin s c : c ∉ chars s → indexOf s c = None.
Proof.
  induction s as [|a s IH]; [done|]. rewrite chars_cons, not_elem_of_cons.
  intros [Hne Hnin]. rewrite indexOf_cons_ne by done. by rewrite IH.
Qed.

Lemma indexOf_first p c q :
  c ∉ chars p → indexOf (p +:+ String c q) c = Some (String.length p).
Proof.
  induction p as [|a p IH].
  - intros _. apply indexOf_cons_eq.
  - rewrite chars_cons, not_elem_of_cons. intros [Hne Hnin].
    change (String a p +:+ String c q) with (String a (p +:+ String c q)).
    rewrite indexOf_cons_ne by done. by rewrite IH.
Qed.

Lemma substr_prefix p q : substr (p +:+ q) 0 (String.length p) = p.
Proof.
  unfold substr. rewrite chars_app, drop_0, <-chars_length, take_app_length.
  apply str_chars.
Qed.

Lemma substr_suffix p c q n :
  String.length p + 1 + String.length q ≤ n →
  substr (p +:+ String c q) (String.length p + 1) n = q.
Proof.
  intros Hn. unfold substr. rewrite chars_app, chars_cons, <-chars_length.
  rewrite (cons_middle c), app_assoc.
  rewrite drop_app_length'; [|rewrite length_app; simpl; lia].
  rewrite take_ge; [apply str_chars|]. rewrite chars_length. lia.
Qed.

Lemma append_length p q :
  String.length (p +:+ q) = String.length p + String.length q.
Proof. by rewrite <-!chars_length, chars_app, length_app. Qed.



Lemma normalize_path_no_trailing p :
  last (chars p) ≠ Some "/"%char →
  normalize_path p
  = if bool_decide (charAt p 0 = Some "/"%char) then p else "/" +:+ p.
Proof.
  intros Hlast. unfold normalize_path.
  set (q := if bool_decide (charAt p 0 = Some "/"%char) then p else "/" +:+ p).
  destruct (decide (p = "")) as [->|Hp]; [done|].
  assert (last (chars q) = last (chars p)) as Hq.
  { subst q. case_bool_decide; [done|].
    rewrite chars_app. change (chars "/") with ["/"%char].
    destruct (chars p) as [|a l] eqn:E; [by apply chars_nil in E|]. done. }
  rewrite last_lookup, chars_length in Hq.
  unfold charAt.
  replace (String.length q - 1) with (pred (String.length q)) by lia.
  rewrite Hq. rewrite bool_decide_eq_false_2 by done.
  by rewrite andb_false_r.
Qed.

Section Normalisation.

Variable decodeURIComponent : string → result string.

Lemma recognize_no_query this p :
  "?"%char ∉ chars p →
  recognize decodeURIComponent this p = recognize_path this p ∅.
Proof. intros H. unfold recognize. by rewrite indexOf_notin. Qed.

Lemma recognize_query this p q :
  "?"%char ∉ chars p →
  recognize decodeURIComponent this (p +:+ String "?" q)
  = (qp ←! parseQueryString decodeURIComponent q; recognize_path this p qp).
Proof.
  intros H. unfold recognize. rewrite indexOf_first by done.
  rewrite substr_prefix, substr_suffix; [done|].
  rewrite append_length. simpl. lia.
Qed.



Lemma split_at_query p :
  "?"%char ∉ chars p ∨
  ∃ p1 q, p = p1 +:+ String "?" q ∧ "?"%char ∉ chars p1.
Proof.
  induction p as [|a p IH]; [left; apply not_elem_of_nil|].
  destruct (decide (a = "?"%char)) as [->|Hne].
  - right. exists "", p. split; [done|apply not_elem_of_nil].
  - destruct IH as [IH|(p1 & q & -> & Hp1)].
    + left. rewrite chars_cons, not_elem_of_cons. done.
    + right. exists (String a p1), q. split; [done|].
      rewrite chars_cons, not_elem_of_cons. done.
Qed.


End Normalisation.

(** ** Ranking of the solutions *)

Lemma compareSolutions_ranks a b :
  (compareSolutions a b <= 0)%Z ↔ ranks_before a b.
Proof.
  unfold compareSolutions, ranks_before.
  destruct (stars a =? stars b) eqn:Es; simpl;
    [apply Nat.eqb_eq in Es|apply Nat.eqb_neq in Es; lia].
  destruct (dynamics a =? dynamics b) eqn:Ed; simpl;
    [apply Nat.eqb_eq in Ed|apply Nat.eqb_neq in Ed; lia].
  destruct (statics a =? statics b) eqn:Et; simpl;
    [apply Nat.eqb_eq in Et|apply Nat.eqb_neq in Et]; lia.
Qed.

Lemma ranks_before_trans a b c :
  ranks_before a b → ranks_before b c → ranks_before a c.
Proof. unfold ranks_before. lia. Qed.

Lemma ranks_before_total a b : ranks_before a b ∨ ranks_before b a.
Proof. unfold ranks_before. lia. Qed.

Lemma sort_insert_Permutation x l : sort_insert x l ≡ₚ x :: l.
Proof.
  induction l as [|y l IH]; simpl; [done|].
  destruct (_ <=? _)%Z; [done|]. rewrite IH. apply Permutation_swap.
Qed.

Lemma sortSolutions_Permutation l : sortSolutions l ≡ₚ l.
Proof.
  induction l as [|x l IH]; simpl; [done|].
  rewrite sort_insert_Permutation. by f_equiv.
Qed.

Lemma sort_insert_head x l w rest :
  sort_insert x l = w :: rest →
  (∀ y rest', l = y :: rest' →
     ∀ c, c ∈ l → ranks_before (types y.2) (types c.2)) →
  ∀ c, c ∈ x :: l → ranks_before (types w.2) (types c.2).
Proof.
  destruct l as [|y l]; simpl.
  - intros [= <- <-] _ c ->%list_elem_of_singleton.
    destruct (ranks_before_total (types x.2) (types x.2)); done.
  - intros Hins Hsorted c Hc.
    specialize (Hsorted y l eq_refl).
    destruct (_ <=? _)%Z eqn:E.
    + injection Hins as <- <-. apply Z.leb_le, compareSolutions_ranks in E.
      apply elem_of_cons in Hc as [->|Hc].
      * destruct (ranks_before_total (types x.2) (types x.2)); done.
      * eapply ranks_before_trans; [exact E|]. by apply Hsorted.
    + injection Hins as <- <-. apply Z.leb_gt in E.
      apply elem_of_cons in Hc as [->|Hc]; [|by apply Hsorted].
      destruct (ranks_before_total (types y.2) (types x.2)) as [?|H];
        [done|].
      apply compareSolutions_ranks in H. lia.
Qed.

Lemma sortSolutions_head l w rest :
  sortSolutions l = w :: rest →
  w ∈ l ∧ ∀ c, c ∈ l → ranks_before (types w.2) (types c.2).
Proof.
  intros Hs. split.
  { rewrite <-(sortSolutions_Permutation l), Hs. by left. }
  revert w rest Hs. induction l as [|x l IH]; intros w rest; simpl.
  - done.
  - intros Hs c Hc. eapply (sort_insert_head _ _ _ _ Hs).
    + intros y rest' Hy c' Hc'. eapply IH; [exact Hy|].
      by rewrite <-sortSolutions_Permutation.
    + apply elem_of_cons in Hc as [->|Hc]; [by left|right].
      by rewrite sortSolutions_Permutation.
Qed.

Lemma recognize_path_no_candidate this path qp :
  candidates this path = [] → recognize_path this path qp = Ok None.
Proof.
  unfold recognize_path. fold (candidates this path). by intros ->.
Qed.

Lemma recognize_path_winner this path qp :
  candidates this path ≠ [] →
  ∃ winner, winner ∈ candidates this path
    ∧ recognize_path this path qp
      = (r ←! findHandler winner.2 (normalize_path path) qp; Ok (Some r))
    ∧ ∀ c, c ∈ candidates this path →
        ranks_before (types winner.2) (types c.2).
Proof.
  unfold recognize_path. fold (candidates this path). intros Hne.
  destruct (sortSolutions (candidates this path)) as [|[i w] rest] eqn:Hs.
  - exfalso. apply Hne. apply Permutation_nil_r.
    by rewrite <-Hs, sortSolutions_Permutation.
  - apply sortSolutions_head in Hs as [Hin Hmin]. by exists (i, w).
Qed.

(** C2. Among the accepting states that a path reaches, [recognize] takes
    its handlers from one that ranks first: fewer star segments; on a tie,
    fewer dynamic segments; on a tie, more static segments. With
    [/posts/:id] and [/posts/new] both registered, in either order, the
    path [/posts/new] is recognized as the static route. *)
Theorem recognize_selects_by_rank :
  (∀ this path qp,
     (candidates this path = [] → recognize_path this path qp = Ok None)
     ∧ (candidates this path ≠ [] →
        ∃ winner, winner ∈ candidates this path
          ∧ recognize_path this path qp
            = (r ←! findHandler winner.2 (normalize_path path) qp; Ok (Some r))
          ∧ ∀ c, c ∈ candidates this path →
              ranks_before (types winner.2) (types c.2)))
  ∧ (∀ dec,
       let post := [Route.mk "/posts/:id" "post" None] in
       let new := [Route.mk "/posts/new" "newPost" None] in
       let expected := Ok (Some [Recognized.mk "newPost" ∅ false None]) in
       recognize dec (build [(post, Some "post"); (new, Some "newPost")])
         "/posts/new" = expected
       ∧ recognize dec (build [(new, Some "newPost"); (post, Some "post")])
           "/posts/new" = expected
       ∧ length (candidates
                   (build [(post, Some "post"); (new, Some "newPost")])
                   "/posts/new") = 2).
Proof.
  split.
  - intros this path qp. split; [apply recognize_path_no_candidate|].
    apply recognize_path_winner.
  - intros dec. by vm_compute.
Qed.

(** ** States are extended, never rewritten *)

Lemma extends_refl st : extends st st.
Proof. by split. Qed.

Lemma extends_trans a b c : extends a b → extends b c → extends a c.
Proof. intros [? ?] [? ?]. split; [congruence|by etrans]. Qed.

Lemma heap_le_refl h : heap_le h h.
Proof. intros i st H. exists st. by split; [|split; [apply extends_refl|]]. Qed.

Lemma heap_le_trans a b c : heap_le a b → heap_le b c → heap_le a c.
Proof.
  intros Hab Hbc i st H.
  destruct (Hab i st H) as (st1 & H1 & He1 & Ha1).
  destruct (Hbc i st1 H1) as (st2 & H2 & He2 & Ha2).
  exists st2. split; [done|]. split; [by eapply extends_trans|congruence].
Qed.

Lemma heap_le_length h h' : heap_le h h' → length h ≤ length h'.
Proof.
  intros H. destruct (decide (length h = 0)) as [|Hn]; [lia|].
  destruct (lookup_lt_is_Some_2 h (length h - 1)) as [st Hst]; [lia|].
  destruct (H _ _ Hst) as (st' & Hst' & _). apply lookup_lt_Some in Hst'. lia.
Qed.

Lemma push_child_le h parent child : heap_le h (push_child h parent child).
Proof.
  intros i st H. unfold push_child.
  destruct (decide (parent = i)) as [->|Hne].
  - rewrite list_lookup_alter_eq, H. simpl. eexists. split; [done|].
    split; [|done]. split; [done|]. simpl. by apply prefix_app_r.
  - rewrite list_lookup_alter_ne by done. exists st.
    by split; [|split; [apply extends_refl|]].
Qed.

Lemma State_put_le h this cs : heap_le h (State_put h this cs).1.
Proof.
  unfold State_put. destruct (State_get h this cs); [apply heap_le_refl|].
  simpl. assert (heap_le h (h ++ [mkState (Some cs) [] None])) as H0.
  { intros i st H. exists st. split; [by apply lookup_app_l_Some|].
    by split; [apply extends_refl|]. }
  eapply heap_le_trans; [exact H0|].
  eapply heap_le_trans; [apply push_child_le|].
  destruct (repeat cs); [apply push_child_le|apply heap_le_refl].
Qed.

Lemma put_all_le specs h cur : heap_le h (put_all h cur specs).1.
Proof.
  revert h cur. induction specs as [|cs specs IH]; intros h cur; simpl.
  - apply heap_le_refl.
  - pose proof (State_put_le h cur cs) as H.
    destruct (State_put h cur cs) as [h' s]. simpl in H.
    eapply heap_le_trans; [exact H|apply IH].
Qed.

(** ** The accepting fields of a registered chain *)

Lemma add_segments_data segments h cur rx e :
  let r := add_segments segments h cur rx e in
  (r.1.2, r.2) = segments_data segments rx e.
Proof.
  revert h cur rx e.
  induction segments as [|seg segments IH]; intros h cur rx e; simpl; [done|].
  destruct (isEpsilon seg); [apply IH|].
  destruct (State_put h cur slashSpec) as [h1 s1]. unfold addSegment.
  destruct (put_all h1 s1 (eachChar seg)) as [h2 s2]. apply IH.
Qed.

Lemma add_routes_data routes h cur rx ty hs segs e :
  let r := add_routes routes h cur rx ty hs segs e in
  (r.1.1.1.1.2, r.1.1.1.2, r.1.1.2, r.1.2, r.2)
  = routes_data routes rx ty hs segs e.
Proof.
  revert h cur rx ty hs segs e.
  induction routes as [|route routes IH]; intros h cur rx ty hs segs e;
    simpl; [done|].
  destruct (parse (Route.path route) ty) as [[segments ns] ty'].
  pose proof (add_segments_data segments h cur rx e) as Hd. simpl in Hd.
  destruct (add_segments segments h cur rx e) as [[[h' cur'] rx'] e'].
  simpl in Hd. rewrite <-Hd. apply IH.
Qed.

Lemma accepting_all_le P h h' :
  (∀ i st, h' !! i = Some st →
     (∃ st0, h !! i = Some st0 ∧ accepting st = accepting st0)
     ∨ accepting st = None) →
  accepting_all P h → accepting_all P h'.
Proof.
  intros Hh' HP i st acc Hst Hacc.
  destruct (Hh' i st Hst) as [(st0 & Hst0 & Heq)|Hnone]; [|congruence].
  eapply HP; [exact Hst0|congruence].
Qed.

Lemma push_child_accepting P h parent child :
  accepting_all P h → accepting_all P (push_child h parent child).
Proof.
  apply accepting_all_le. intros i st. unfold push_child.
  destruct (decide (parent = i)) as [->|Hne].
  - rewrite list_lookup_alter_eq. destruct (h !! i) as [st0|]; [|done].
    simpl. intros [= <-]. left. by exists st0.
  - rewrite list_lookup_alter_ne by done. intros H. left. by exists st.
Qed.

Lemma State_put_accepting P h this cs :
  accepting_all P h → accepting_all P (State_put h this cs).1.
Proof.
  intros HP. unfold State_put. destruct (State_get h this cs); [done|]. simpl.
  assert (accepting_all P (h ++ [mkState (Some cs) [] None])) as H0.
  { intros i st acc [Hi|[_ Hi]]%lookup_app_Some; [by eapply HP|].
    destruct (i - length h); [|done]. by injection Hi as <-. }
  destruct (repeat cs); repeat apply push_child_accepting; done.
Qed.

Lemma put_all_accepting P specs h cur :
  accepting_all P h → accepting_all P (put_all h cur specs).1.
Proof.
  revert h cur. induction specs as [|cs specs IH]; intros h cur HP; simpl;
    [done|].
  pose proof (State_put_accepting P h cur cs HP) as H.
  destruct (State_put h cur cs) as [h' s]. by apply IH.
Qed.

Lemma add_segments_accepting P segments h cur rx e :
  accepting_all P h → accepting_all P (add_segments segments h cur rx e).1.1.1.
Proof.
  revert h cur rx e.
  induction segments as [|seg segments IH]; intros h cur rx e HP; simpl;
    [done|].
  destruct (isEpsilon seg); [by apply IH|].
  pose proof (State_put_accepting P h cur slashSpec HP) as H1.
  destruct (State_put h cur slashSpec) as [h1 s1]. unfold addSegment.
  pose proof (put_all_accepting P (eachChar seg) h1 s1 H1) as H2.
  destruct (put_all h1 s1 (eachChar seg)) as [h2 s2]. by apply IH.
Qed.

Lemma add_routes_accepting P routes h cur rx ty hs segs e :
  accepting_all P h →
  accepting_all P (add_routes routes h cur rx ty hs segs e).1.1.1.1.1.1.
Proof.
  revert h cur rx ty hs segs e.
  induction routes as [|route routes IH]; intros h cur rx ty hs segs e HP;
    simpl; [done|].
  destruct (parse (Route.path route) ty) as [[segments ns] ty'].
  pose proof (add_segments_accepting P segments h cur rx e HP) as H.
  destruct (add_segments segments h cur rx e) as [[[h' cur'] rx'] e'].
  by apply IH.
Qed.

Lemma add_accepting P this routes as_ :
  accepting_all P (heap this) → P (chain_accepting routes) →
  accepting_all P (heap (add this routes as_)).
Proof.
  intros HP Hnew. unfold add. unfold chain_accepting in Hnew.
  pose proof (add_routes_accepting P routes (heap this) rootState [RBol]
                (mkTypes 0 0 0) [] [] true HP) as H.
  pose proof (add_routes_data routes (heap this) rootState [RBol]
                (mkTypes 0 0 0) [] [] true) as Hd.
  destruct (add_routes _ _ _ _ _ _ _ _) as [[[[[[h cur] rx] ty] hs] segs] e].
  simpl in H, Hd. rewrite <-Hd in Hnew. simpl in Hnew.
  assert (∃ h' cur',
            (if e then let '(h', state) := State_put h cur slashSpec in
                       (h', state, rx ++ [RChar "/"%char])
             else (h, cur, rx))
            = (h', cur', if e then rx ++ [RChar "/"%char] else rx)
            ∧ accepting_all P h') as (h' & cur' & -> & HP').
  { destruct e; [|by eauto].
    pose proof (State_put_accepting P h cur slashSpec H) as H1.
    destruct (State_put h cur slashSpec) as [h1 s1]. by eauto. }
  simpl. unfold set_accepting. intros i st acc.
  destruct (decide (cur' = i)) as [->|Hne].
  - rewrite list_lookup_alter_eq. destruct (h' !! i); [|done]. simpl.
    intros [= <-]. simpl. by intros [= <-].
  - rewrite list_lookup_alter_ne by done. apply HP'.
Qed.

(** Every accepting state of a built recognizer carries the accepting
    fields of a registered chain. *)
Lemma build_accepting regs :
  accepting_all (λ acc, ∃ routes as_, (routes, as_) ∈ regs
                                      ∧ acc = chain_accepting routes)
    (heap (build regs)).
Proof.
  induction regs as [|[routes as_] regs IH] using rev_ind.
  - intros i st acc. cbn. destruct i; [|done]. by intros [= <-].
  - rewrite build_snoc. unfold register. simpl. apply add_accepting.
    + intros i st acc Hst Hacc.
      destruct (IH i st acc Hst Hacc) as (r & a & Hin & ->).
      exists r, a. split; [|done]. apply elem_of_app. by left.
    + exists routes, as_. split; [|done]. apply elem_of_app. right.
      by apply list_elem_of_singleton.
Qed.

Lemma parse_loop_spec pieces results names ty :
  ∃ ty', parse_loop pieces results names ty
         = (results ++ (parse_segment <$> pieces),
            names ++ omap segment_name (parse_segment <$> pieces), ty').
Proof.
  revert results names ty.
  induction pieces as [|piece pieces IH]; intros results names ty; simpl.
  - exists ty. by rewrite !app_nil_r.
  - unfold parse_segment at 1 3.
    destruct (match_marker ":" piece) as [m|].
    { destruct (IH (results ++ [DynamicSegment m]) (names ++ [m])
                  (mkTypes (statics ty) (S (dynamics ty)) (stars ty)))
        as [ty' ->].
      exists ty'. simpl. by rewrite <-!app_assoc. }
    destruct (match_marker "*" piece) as [m|].
    { destruct (IH (results ++ [StarSegment m]) (names ++ [m])
                  (mkTypes (statics ty) (dynamics ty) (S (stars ty))))
        as [ty' ->].
      exists ty'. simpl. by rewrite <-!app_assoc. }
    case_bool_decide.
    + destruct (IH (results ++ [EpsilonSegment]) names ty) as [ty' ->].
      exists ty'. simpl. by rewrite <-!app_assoc.
    + destruct (IH (results ++ [StaticSegment piece]) names
                  (mkTypes (S (statics ty)) (dynamics ty) (stars ty)))
        as [ty' ->].
      exists ty'. simpl. by rewrite <-!app_assoc.
Qed.

Lemma parse_spec route ty :
  ∃ ty', parse (Route.path route) ty
         = (route_segments route, omap segment_name (route_segments route), ty').
Proof.
  unfold route_segments, parse.
  set (pieces := split "/" _).
  destruct (parse_loop_spec pieces [] [] ty) as [ty' ->].
  destruct (parse_loop_spec pieces [] [] (mkTypes 0 0 0)) as [ty0 ->].
  by exists ty'.
Qed.

Lemma segments_regex_cons seg segments :
  segments_regex (seg :: segments)
  = (if isEpsilon seg then [] else RChar "/"%char :: Segment_regex seg)
    ++ segments_regex segments.
Proof. done. Qed.

Lemma segments_regex_app a b :
  segments_regex (a ++ b) = segments_regex a ++ segments_regex b.
Proof. unfold segments_regex. by rewrite fmap_app, concat_app. Qed.

Lemma segments_data_spec segments rx e :
  segments_data segments rx e
  = (rx ++ segments_regex segments, e && forallb isEpsilon segments).
Proof.
  revert rx e. induction segments as [|seg segments IH]; intros rx e.
  - simpl. by rewrite app_nil_r, andb_true_r.
  - rewrite segments_regex_cons. simpl. destruct (isEpsilon seg); simpl.
    + by rewrite IH.
    + rewrite IH, andb_false_r. simpl. by rewrite <-!app_assoc.
Qed.

Lemma routes_data_spec routes rx ty hs segs e :
  ∃ ty', routes_data routes rx ty hs segs e
         = (rx ++ segments_regex (chain_segments routes), ty',
            hs ++ chain_handlers routes, segs ++ chain_segments routes,
            e && forallb isEpsilon (chain_segments routes)).
Proof.
  revert rx ty hs segs e.
  induction routes as [|route routes IH]; intros rx ty hs segs e; simpl.
  - exists ty. unfold chain_segments, segments_regex. simpl.
    by rewrite !app_nil_r, andb_true_r.
  - destruct (parse_spec route ty) as [ty1 ->].
    rewrite segments_data_spec.
    destruct (IH (rx ++ segments_regex (route_segments route)) ty1
                (hs ++ [Handler.mk (Route.handler route)
                          (omap segment_name (route_segments route))
                          (Route.queryParams route)])
                (segs ++ route_segments route)
                (e && forallb isEpsilon (route_segments route)))
      as [ty' ->].
    exists ty'. unfold chain_segments. simpl.
    rewrite segments_regex_app, forallb_app, <-!app_assoc, andb_assoc. done.
Qed.

Lemma chain_accepting_spec routes :
  handlers (chain_accepting routes) = chain_handlers routes
  ∧ regex (chain_accepting routes)
    = RBol :: segments_regex (chain_segments routes)
      ++ (if forallb isEpsilon (chain_segments routes)
          then [RChar "/"%char] else []) ++ [REol].
Proof.
  unfold chain_accepting.
  destruct (routes_data_spec routes [RBol] (mkTypes 0 0 0) [] [] true)
    as [ty' ->].
  simpl. split; [done|].
  destruct (forallb isEpsilon (chain_segments routes)); simpl.
  - by rewrite <-app_assoc.
  - done.
Qed.

(** ** Captures *)

Lemma run_length_le cls input : run_length cls input ≤ length input.
Proof. induction input as [|a input IH]; simpl; [lia|]. destruct (cls a); simpl; lia. Qed.

Lemma run_length_take cls input m :
  m ≤ run_length cls input → Forall (λ a, cls a = true) (take m input).
Proof.
  revert m. induction input as [|a input IH]; intros m; simpl.
  - intros. rewrite take_nil. constructor.
  - destruct (cls a) eqn:E.
    + destruct m as [|m]; simpl; [constructor|].
      intros Hm. constructor; [done|]. apply IH. lia.
    + intros Hm. assert (m = 0) as -> by lia. constructor.
Qed.

Lemma greedy_Some k n pos input e caps :
  greedy k n pos input = Some (e, caps) →
  ∃ m caps', 1 ≤ m ≤ n ∧ k (pos + m) (drop m input) = Some (e, caps')
             ∧ caps = str (take m input) :: caps'.
Proof.
  induction n as [|n IH]; simpl; [done|].
  destruct (k (pos + S n) (drop (S n) input)) as [[e' caps']|] eqn:E.
  - intros [= <- <-]. exists (S n), caps'. split; [lia|done].
  - intros (m & caps' & Hm & Hk & ->)%IH. exists m, caps'. split; [lia|done].
Qed.

Lemma greedy_capture cls k pos input e caps :
  greedy k (run_length cls input) pos input = Some (e, caps) →
  ∃ s caps', caps = s :: caps' ∧ s ≠ ""
             ∧ Forall (λ a, cls a = true) (chars s)
             ∧ ∃ pos' input', k pos' input' = Some (e, caps').
Proof.
  intros (m & caps' & Hm & Hk & ->)%greedy_Some.
  exists (str (take m input)), caps'. split; [done|]. split.
  - intros Hnil%str_nil. apply (f_equal length) in Hnil.
    pose proof (run_length_le cls input).
    rewrite length_take in Hnil. simpl in Hnil. lia.
  - split; [|by eauto]. rewrite chars_str. apply run_length_take. lia.
Qed.

Lemma rmatch_captures atoms pos input e caps :
  rmatch atoms pos input = Some (e, caps) →
  Forall2 group_capture (groups atoms) caps.
Proof.
  revert pos input e caps.
  induction atoms as [|atom atoms IH]; intros pos input e caps; simpl.
  - intros [= <- <-]. constructor.
  - destruct atom; simpl.
    + destruct input as [|a input]; [done|]. case_bool_decide; [|done].
      apply IH.
    + case_bool_decide; [|done]. apply IH.
    + destruct input; [|done]. apply IH.
    + intros (s & caps' & -> & Hs & Hall & pos' & input' & Hk)%greedy_capture.
      constructor; [by split|]. by eapply IH.
    + intros (s & caps' & -> & Hs & Hall & pos' & input' & Hk)%greedy_capture.
      constructor; [by split|]. by eapply IH.
Qed.

Lemma exec_from_captures atoms pos input caps :
  exec_from atoms pos input = Some caps →
  ∃ whole gcaps, caps = whole :: gcaps ∧ Forall2 group_capture (groups atoms) gcaps.
Proof.
  revert pos. induction input as [|a input IH]; intros pos; simpl.
  - destruct (rmatch atoms pos []) as [[e gcaps]|] eqn:E; [|done].
    intros [= <-]. eexists _, _. split; [done|]. by eapply rmatch_captures.
  - destruct (rmatch atoms pos (a :: input)) as [[e gcaps]|] eqn:E;
      [|apply IH].
    intros [= <-]. eexists _, _. split; [done|]. by eapply rmatch_captures.
Qed.

Lemma groups_app a b : groups (a ++ b) = groups a ++ groups b.
Proof. unfold groups. apply List.filter_app. Qed.

Lemma groups_static s : groups (escapeRegex <$> chars s) = [].
Proof.
  induction (chars s) as [|c l IH]; [done|]. rewrite fmap_cons.
  change (groups (?x :: ?l)) with (if isGroup x then x :: groups l else groups l).
  rewrite IH. unfold escapeRegex. by repeat case_bool_decide.
Qed.

Lemma named_cons_named seg segments :
  is_Some (segment_name seg) → named (seg :: segments) = seg :: named segments.
Proof. intros H. unfold named. by rewrite filter_cons_True. Qed.

Lemma named_cons_unnamed seg segments :
  segment_name seg = None → named (seg :: segments) = named segments.
Proof.
  intros H. unfold named. rewrite filter_cons_False; [done|].
  rewrite H. by intros [? ?].
Qed.

Lemma named_app a b : named (a ++ b) = named a ++ named b.
Proof. unfold named. apply filter_app. Qed.

(** The groups of the regular expression of a segment list are the
    dynamic and star segments in order. *)
Lemma groups_segments_regex segments caps :
  Forall2 group_capture (groups (segments_regex segments)) caps →
  Forall2 segment_capture (named segments) caps.
Proof.
  revert caps. induction segments as [|seg segments IH]; intros caps.
  - intros ->%Forall2_nil_inv_l. constructor.
  - rewrite segments_regex_cons, groups_app.
    destruct seg as [s|n|n|]; simpl.
    + change (groups (RChar "/"%char :: ?l)) with (groups l).
      rewrite groups_static. simpl. rewrite named_cons_unnamed by done.
      apply IH.
    + rewrite named_cons_named by (by eexists).
      change (groups [RChar "/"%char; RDynamic]) with [RDynamic]. simpl.
      intros H. inversion H as [|? s ? caps' [Hs Hall] Hrest]; subst.
      constructor; [|by apply IH]. split; [done|].
      intros Hin. rewrite Forall_forall in Hall. apply Hall in Hin.
      unfold notSlash in Hin. by rewrite bool_decide_eq_true_2 in Hin.
    + rewrite named_cons_named by (by eexists).
      change (groups [RChar "/"%char; RStar]) with [RStar]. simpl.
      intros H. inversion H as [|? s ? caps' [Hs Hall] Hrest]; subst.
      constructor; [|by apply IH]. by split.
    + rewrite named_cons_unnamed by done. apply IH.
Qed.

Lemma String_match_captures routes path caps :
  String_match path (regex (chain_accepting routes)) = Some caps →
  ∃ whole gcaps, caps = whole :: gcaps
    ∧ Forall2 segment_capture (named (chain_segments routes)) gcaps.
Proof.
  destruct (chain_accepting_spec routes) as [_ ->]. unfold String_match.
  intros (whole & gcaps & -> & H)%exec_from_captures.
  exists whole, gcaps. split; [done|]. apply groups_segments_regex.
  change (groups (RBol :: ?l)) with (groups l) in H.
  rewrite !groups_app in H.
  replace (groups (if forallb isEpsilon (chain_segments routes)
                   then [RChar "/"%char] else [])) with (@nil RegexAtom) in H
    by (by destruct (forallb _ _)).
  change (groups [REol]) with (@nil RegexAtom) in H.
  by rewrite !app_nil_r in H.
Qed.

Lemma bind_names_spec names captures cc m m' cc' :
  bind_names names captures cc m = Ok (m', cc') →
  cc' = cc + length names
  ∧ ∀ name v, m' !! name = Some v →
      m !! name = Some v
      ∨ ∃ k caps, captures = Some caps ∧ names !! k = Some name
                  ∧ v = caps !! (cc + k).
Proof.
  revert cc m. induction names as [|n names IH]; intros cc m; simpl.
  - intros [= <- <-]. split; [lia|]. by left.
  - destruct captures as [caps|]; [|done].
    intros [-> Hm]%IH. split; [simpl; lia|].
    intros name v [Hv|(k & caps' & [= <-] & Hk & ->)]%Hm.
    + apply assign_lookup in Hv as [Hv|(-> & -> & _)]; [by left|].
      right. exists 0, caps. by rewrite Nat.add_0_r.
    + right. exists (S k), caps. split; [done|]. split; [done|].
      f_equal. lia.
Qed.

Lemma names_lookup_named segments k name :
  omap segment_name segments !! k = Some name →
  ∃ seg, named segments !! k = Some seg ∧ segment_name seg = Some name.
Proof.
  revert k. induction segments as [|seg segments IH]; intros k; [done|].
  simpl. destruct (segment_name seg) as [n|] eqn:E.
  - rewrite named_cons_named by (by eexists).
    destruct k as [|k]; simpl; [|apply IH].
    intros [= <-]. by exists seg.
  - rewrite named_cons_unnamed by done. apply IH.
Qed.

Lemma named_length segments :
  length (named segments) = length (omap segment_name segments).
Proof.
  induction segments as [|seg segments IH]; [done|]. simpl.
  destruct (segment_name seg) eqn:E.
  - rewrite named_cons_named by (by eexists). simpl. by rewrite IH.
  - by rewrite named_cons_unnamed.
Qed.

Lemma findHandler_loop_entries routes captures cc qp acc res :
  findHandler_loop (chain_handlers routes) captures cc qp acc = Ok res →
  (∀ caps, captures = Some caps →
     Forall2 segment_capture (named (chain_segments routes)) (drop cc caps)) →
  ∃ res', res = acc ++ res' ∧ Forall2 entry_of res' routes.
Proof.
  revert cc acc.
  induction routes as [|route routes IH]; intros cc acc; simpl.
  - intros [= <-] _. exists []. split; [by rewrite app_nil_r|constructor].
  - destruct (bind_names _ captures cc ∅) as [[params cc']|] eqn:Eb;
      simpl; [|done].
    apply bind_names_spec in Eb as [-> Hparams].
    intros Hloop Hcaps.
    assert (∀ caps, captures = Some caps →
              ∃ c1, Forall2 segment_capture (named (route_segments route)) c1
                    ∧ Forall2 segment_capture (named (chain_segments routes))
                        (drop (cc + length (omap segment_name
                                                  (route_segments route))) caps)
                    ∧ ∀ k, k < length c1 → caps !! (cc + k) = c1 !! k)
      as Hsplit.
    { intros caps Hc. specialize (Hcaps caps Hc).
      unfold chain_segments in Hcaps. simpl in Hcaps.
      rewrite named_app in Hcaps.
      apply Forall2_app_inv_l in Hcaps as (c1 & c2 & H1 & H2 & Hd).
      exists c1. split; [done|].
      pose proof (Forall2_length _ _ _ H1) as Hlen.
      rewrite named_length in Hlen. split.
      - rewrite <-drop_drop, Hd, Hlen.
        by rewrite drop_app_length.
      - intros k Hk. rewrite <-lookup_drop, Hd. by apply lookup_app_l. }
    apply IH in Hloop as (res' & -> & Hres).
    + eexists (_ :: res'). split; [by rewrite <-app_assoc|].
      constructor; [|done]. split; [done|]. simpl.
      intros name v [Hv|(k & caps & Hc & Hk & ->)]%Hparams;
        [by rewrite lookup_empty in Hv|].
      destruct (Hsplit caps Hc) as (c1 & H1 & _ & Hlook).
      apply names_lookup_named in Hk as (seg & Hseg & Hname).
      destruct (Forall2_lookup_l _ _ _ _ _ H1 Hseg) as (s & Hs & Hok).
      rewrite Hlook by (by eapply lookup_lt_Some).
      exists s, seg. split; [done|]. split; [|done].
      apply list_elem_of_lookup_2 in Hseg.
      unfold named in Hseg. by apply list_elem_of_filter in Hseg as [_ ?].
    + intros caps Hc. by destruct (Hsplit caps Hc) as (c1 & _ & H2 & _).
Qed.

Lemma solutions_of_elem h states i acc :
  (i, acc) ∈ solutions_of h states →
  i ∈ states ∧ ∃ st, h !! i = Some st ∧ accepting st = Some acc.
Proof.
  unfold solutions_of. rewrite list_elem_of_omap.
  intros (s & Hs & Hsome). destruct (h !! s) as [st|] eqn:E; [|done].
  simpl in Hsome. destruct (accepting st) as [a|] eqn:Ea; [|done].
  simpl in Hsome. injection Hsome as <- <-. split; [done|]. by exists st.
Qed.

Lemma recognize_path_Some regs path qp res :
  recognize_path (build regs) path qp = Ok (Some res) →
  ∃ routes as_, (routes, as_) ∈ regs
    ∧ findHandler (chain_accepting routes) (normalize_path path) qp = Ok res.
Proof.
  unfold recognize_path.
  destruct (sortSolutions _) as [|[i acc] rest] eqn:Hs; [done|].
  apply sortSolutions_head in Hs as [Hin _].
  apply solutions_of_elem in Hin as (_ & st & Hst & Hacc).
  destruct (build_accepting regs i st acc Hst Hacc) as (routes & as_ & Hr & ->).
  destruct (findHandler _ _ _) as [r|] eqn:E; simpl; [|done].
  intros [= <-]. by exists routes, as_.
Qed.

Section Captures.

Variable decodeURIComponent : string → result string.

(** C9. When [recognize] succeeds on a recognizer built by [add] calls, its
    result lists the handlers of one registered chain, and every param
    value it binds is a string captured for a dynamic or star segment of
    that handler's route carrying the param's name: the value is never
    empty, and it contains [/] only when such a segment is a star segment -
    a value captured for a dynamic segment contains no [/]. *)
Theorem recognized_params_nonempty regs path res :
  recognize decodeURIComponent (build regs) path = Ok (Some res) →
  ∃ routes as_, (routes, as_) ∈ regs ∧
    Forall2 (λ r route,
      Recognized.handler r = Route.handler route
      ∧ ∀ name v, Recognized.params r !! name = Some v →
          ∃ s, v = Some s ∧ s ≠ ""
               ∧ (DynamicSegment name ∈ route_segments route
                  ∨ StarSegment name ∈ route_segments route)
               ∧ ("/"%char ∈ chars s →
                  StarSegment name ∈ route_segments route))
      res routes.
Proof.
  intros Hrec.
  assert (∃ p qp, recognize_path (build regs) p qp = Ok (Some res))
    as (p & qp & Hp).
  { unfold recognize in Hrec. destruct (indexOf path "?"); [|by eauto].
    destruct (parseQueryString _ _); simpl in Hrec; [by eauto|done]. }
  apply recognize_path_Some in Hp as (routes & as_ & Hin & Hfind).
  exists routes, as_. split; [done|].
  unfold findHandler in Hfind.
  destruct (chain_accepting_spec routes) as [Hh _]. rewrite Hh in Hfind.
  apply findHandler_loop_entries in Hfind as (res' & -> & Hres).
  - simpl. eapply Forall2_impl; [exact Hres|].
    intros r route [Hhandler Hparams]. split; [done|].
    intros name v (s & seg & -> & Hseg & Hname & Hs & Hkind)%Hparams.
    exists s. split; [done|]. split; [done|].
    destruct seg as [?|n|n|]; simpl in Hname; try done;
      injection Hname as ->.
    + split; [by left|]. done.
    + split; [by right|]. done.
  - intros caps (whole & gcaps & -> & Hg)%String_match_captures. done.
Qed.

End Captures.

(** ** The shape of the automaton *)

Lemma child_spec_le h h' c cs :
  heap_le h h' → child_spec h c = Some cs → child_spec h' c = Some cs.
Proof.
  unfold child_spec. intros Hle. destruct (h !! c) as [st|] eqn:E; [|done].
  destruct (Hle c st E) as (st' & -> & [Hc _] & _). simpl. congruence.
Qed.

Lemma child_le h h' p c : heap_le h h' → child h p c → child h' p c.
Proof.
  intros Hle (st & Hst & Hin).
  destruct (Hle p st Hst) as (st' & Hst' & [_ Hpre] & _).
  exists st'. split; [done|]. destruct Hpre as [k ->].
  apply elem_of_app. by left.
Qed.

Lemma reach_mono h h' specs s :
  (∀ p c, child h p c → child h' p c) →
  (∀ c cs, child_spec h c = Some cs → child_spec h' c = Some cs) →
  reach h specs s → reach h' specs s.
Proof.
  intros Hc Hs. induction 1 as [|specs p c cs _ IH Hch Hne Hcs].
  - constructor.
  - econstructor; eauto.
Qed.

Lemma reach_le h h' specs s : heap_le h h' → reach h specs s → reach h' specs s.
Proof.
  intros Hle. apply reach_mono.
  - intros p c. by apply child_le.
  - intros c cs. by apply child_spec_le.
Qed.

Lemma reach_lt h specs s : wf h → reach h specs s → s < length h.
Proof.
  intros Hwf. destruct 1 as [|specs p c cs _ Hch _ _].
  - apply Hwf.
  - apply (wf_child h Hwf) in Hch. lia.
Qed.

Lemma reach_last h specs s cs :
  wf h → reach h specs s → child_spec h s = Some cs →
  ∃ specs0, specs = specs0 ++ [cs].
Proof.
  intros Hwf. destruct 1 as [|specs p c cs' _ Hch _ Hcs].
  - destruct (wf_root h Hwf) as [Hr _]. congruence.
  - intros H. exists specs. congruence.
Qed.

Lemma reach_snoc_inv h specs cs s :
  reach h (specs ++ [cs]) s →
  ∃ p, reach h specs p ∧ child h p s ∧ s ≠ p ∧ child_spec h s = Some cs.
Proof.
  inversion 1 as [Hnil|specs' p c cs' Hr Hch Hne Hcs Heq].
  - by destruct specs.
  - apply app_inj_tail in Heq as [-> ->]. by exists p.
Qed.

(** A state is reached along one sequence of specifications only, and a
    sequence of specifications leads to one state only. *)
Lemma reach_unique_specs h s specs specs' :
  wf h → reach h specs s → reach h specs' s → specs = specs'.
Proof.
  intros Hwf H. revert specs'.
  induction H as [|specs p c cs Hr IH Hch Hne Hcs]; intros specs' H'.
  - inversion H' as [|? p c cs _ Hch _ Hcs]; [done|]. subst.
    destruct (wf_root h Hwf) as [Hroot _]. congruence.
  - inversion H' as [Hnil|specs0 p' c' cs' Hr' Hch' Hne' Hcs' Heq]; subst.
    + destruct (wf_root h Hwf) as [Hroot _]. congruence.
    + assert (p = p') as <- by (by eapply (wf_parent h Hwf)).
      rewrite (IH specs0 Hr'). congruence.
Qed.

Lemma reach_unique_state h specs s s' :
  wf h → reach h specs s → reach h specs s' → s = s'.
Proof.
  intros Hwf H. revert s'.
  induction H as [|specs p c cs Hr IH Hch Hne Hcs]; intros s' H'.
  - inversion H' as [|specs0 ? ? ? _ _ _ _ Heq]; [done|]. by destruct specs0.
  - apply reach_snoc_inv in H' as (p' & Hr' & Hch' & Hne' & Hcs').
    rewrite <-(IH p' Hr') in Hch'.
    eapply (wf_sibling h Hwf); eauto. by split.
Qed.

(** *** [put] *)

Lemma child_spec_push_child h parent c x :
  child_spec (push_child h parent c) x = child_spec h x.
Proof.
  unfold child_spec, push_child.
  destruct (decide (parent = x)) as [->|Hne].
  - rewrite list_lookup_alter_eq. by destruct (h !! x).
  - by rewrite list_lookup_alter_ne.
Qed.

Lemma child_push_child h parent c p x :
  parent < length h →
  child (push_child h parent c) p x ↔ child h p x ∨ (p = parent ∧ x = c).
Proof.
  intros Hlt. unfold child, push_child.
  destruct (lookup_lt_is_Some_2 h parent Hlt) as [st0 Hst0].
  destruct (decide (parent = p)) as [->|Hne].
  - setoid_rewrite list_lookup_alter_eq. rewrite Hst0. simpl. split.
    + intros (st & [= <-] & Hin). simpl in Hin.
      apply elem_of_app in Hin as [Hin|Hin%list_elem_of_singleton].
      * left. by exists st0.
      * by right.
    + intros [(st & Hst & Hin)|[_ ->]].
      * eexists. split; [done|]. simpl. apply elem_of_app. left. congruence.
      * eexists. split; [done|]. simpl. apply elem_of_app. right.
        by apply list_elem_of_singleton.
  - setoid_rewrite list_lookup_alter_ne; [|done]. split; [by left|].
    intros [?|[? _]]; [done|congruence].
Qed.

Lemma child_snoc h cs p x :
  child (h ++ [mkState cs [] None]) p x ↔ child h p x.
Proof.
  unfold child. split.
  - intros (st & [Hst|[_ Hst]]%lookup_app_Some & Hin); [by exists st|].
    destruct (p - length h); [|done]. injection Hst as <-.
    by apply elem_of_nil in Hin.
  - intros (st & Hst & Hin). exists st. split; [|done].
    by apply lookup_app_l_Some.
Qed.

Lemma child_spec_snoc h cs x :
  child_spec (h ++ [mkState (Some cs) [] None]) x
  = if decide (x = length h) then Some cs else child_spec h x.
Proof.
  unfold child_spec. destruct (decide (x = length h)) as [->|Hne].
  - by rewrite list_lookup_middle.
  - destruct (decide (x < length h)).
    + by rewrite lookup_app_l.
    + rewrite !lookup_ge_None_2; [done|lia|rewrite length_app; simpl; lia].
Qed.

Lemma State_put_new h this cs :
  this < length h → State_get h this cs = None →
  let n := length h in
  let h' := (State_put h this cs).1 in
  (State_put h this cs).2 = n
  ∧ (∀ p x, child h' p x ↔
            child h p x ∨ (p = this ∧ x = n)
            ∨ (p = n ∧ x = n ∧ repeat cs = true))
  ∧ (∀ x, child_spec h' x = if decide (x = n) then Some cs else child_spec h x)
  ∧ length h' = S n.
Proof.
  intros Hlt Hget n h'. subst h'. unfold State_put. rewrite Hget. simpl.
  fold n. split; [done|].
  assert (this < length (h ++ [mkState (Some cs) [] None])) as Hlt1
    by (rewrite length_app; simpl; lia).
  assert (n < length (push_child (h ++ [mkState (Some cs) [] None]) this n))
    as Hlt2.
  { unfold push_child. rewrite length_alter, length_app. simpl. lia. }
  destruct (repeat cs) eqn:Er.
  - split; [|split].
    + intros p x. rewrite child_push_child by done.
      rewrite child_push_child by done. rewrite child_snoc. tauto.
    + intros x. by rewrite !child_spec_push_child, child_spec_snoc.
    + unfold push_child. rewrite !length_alter, length_app. simpl. lia.
  - split; [|split].
    + intros p x. rewrite child_push_child by done. rewrite child_snoc.
      split; [tauto|]. intros [?|[?|(_ & _ & ?)]]; [tauto|tauto|done].
    + intros x. by rewrite child_spec_push_child, child_spec_snoc.
    + unfold push_child. rewrite !length_alter, length_app. simpl. lia.
Qed.

Lemma child_spec_lt h c cs : child_spec h c = Some cs → c < length h.
Proof.
  unfold child_spec. destruct (h !! c) eqn:E; [|done]. intros _.
  by eapply lookup_lt_Some.
Qed.

Lemma child_lt h p c : child h p c → p < length h.
Proof. intros (st & Hst & _). by eapply lookup_lt_Some. Qed.

Lemma State_put_wf h this cs :
  wf h → this < length h → emitted cs → wf (State_put h this cs).1.
Proof.
  intros Hwf Hlt Hem.
  destruct (State_get h this cs) as [c|] eqn:Hget.
  { unfold State_put. by rewrite Hget. }
  destruct (State_put_new h this cs Hlt Hget) as (_ & Hch & Hsp & Hlen).
  set (h' := (State_put h this cs).1) in *. set (n := length h) in *.
  assert (∀ p x, child h p x → x ≠ n ∧ p ≠ n) as Hold.
  { intros p x Hc. pose proof (child_lt _ _ _ Hc).
    apply (wf_child h Hwf) in Hc. subst n. lia. }
  destruct (lookup_lt_is_Some_2 h this Hlt) as [st Hst].
  split.
  - rewrite Hsp. destruct (wf_root h Hwf) as [Hr Hl].
    rewrite decide_False by (unfold rootState in *; subst n; lia).
    split; [done|lia].
  - intros p x [Hc|[[-> ->]|(-> & -> & Hr)]]%Hch; rewrite Hsp, Hlen.
    + destruct (Hold p x Hc) as [Hx Hp]. rewrite decide_False by done.
      apply (wf_child h Hwf) in Hc as [? ?]. split; [subst n; lia|done].
    + rewrite decide_True by done. split; [subst n; lia|]. by exists cs.
    + rewrite decide_True by done. split; [lia|]. by exists cs.
  - intros p p' x Hc Hc' Hne Hne'.
    apply Hch in Hc as [Hc|[[-> ->]|(-> & -> & _)]];
      apply Hch in Hc' as [Hc'|[[-> Hx]|(-> & Hx & _)]]; try done.
    + by eapply (wf_parent h Hwf).
    + by destruct (Hold _ _ Hc).
    + by destruct (Hold _ _ Hc').
  - intros p x x' s s' Hc Hc'. rewrite !Hsp.
    apply Hch in Hc as [Hc|[[-> ->]|(-> & -> & _)]];
      apply Hch in Hc' as [Hc'|[[Hp ->]|(Hp & -> & _)]]; try done.
    + destruct (Hold _ _ Hc), (Hold _ _ Hc').
      rewrite !decide_False by done. by eapply (wf_sibling h Hwf).
    + destruct (Hold _ _ Hc). rewrite decide_False by done.
      rewrite decide_True by done. intros Hs [= <-] Hsame. subst p.
      exfalso. destruct Hc as (st' & Hst' & Hin).
      pose proof (State_get_None h this st' cs Hst' Hget x Hin) as Hne.
      assert (isEqual h cs x = true) as Heq; [|congruence].
      apply isEqual_same_chars. by exists s.
    + by destruct (Hold _ _ Hc).
    + destruct (Hold _ _ Hc'). rewrite decide_True by done.
      rewrite decide_False by done. intros [= <-] Hs Hsame.
      exfalso. destruct Hc' as (st' & Hst' & Hin).
      pose proof (State_get_None h this st' cs Hst' Hget x' Hin) as Hne.
      assert (isEqual h cs x' = true) as Heq; [|congruence].
      apply isEqual_same_chars. exists s'. split; [done|].
      destruct Hsame. by split.
    + by destruct (Hold _ _ Hc').
  - intros x s. rewrite Hsp, Hch. destruct (decide (x = n)) as [->|Hne].
    + intros [= <-]. split.
      * intros [Hc|[[? _]|(_ & _ & ?)]]; [by destruct (Hold _ _ Hc)|lia|done].
      * intros Hr. right. right. done.
    + intros Hs. rewrite <-(wf_loop h Hwf x s Hs). split; [|tauto].
      intros [?|[[_ ?]|(? & _)]]; done.
Qed.

Lemma State_put_lt h this cs :
  wf h → this < length h → (State_put h this cs).2 < length (State_put h this cs).1.
Proof.
  intros Hwf Hlt. destruct (State_get h this cs) as [c|] eqn:Hget.
  - unfold State_put. rewrite Hget. simpl.
    apply State_get_Some in Hget as (st & Hst & Hin & _).
    assert (child h this c) as Hc by (by exists st).
    apply (wf_child h Hwf) in Hc. lia.
  - destruct (State_put_new h this cs Hlt Hget) as (-> & _ & _ & ->). lia.
Qed.

Lemma State_put_reach h this cs specs :
  wf h → reach h specs this → emitted cs →
  sequenced (option_list (child_spec h this) ++ [cs]) →
  reach (State_put h this cs).1 (specs ++ [cs]) (State_put h this cs).2
  ∧ child_spec (State_put h this cs).1 (State_put h this cs).2 = Some cs.
Proof.
  intros Hwf Hr Hem Hseq. pose proof (reach_lt _ _ _ Hwf Hr) as Hlt.
  destruct (State_get h this cs) as [c|] eqn:Hget.
  - unfold State_put. rewrite Hget. simpl.
    apply State_get_Some in Hget as (st & Hst & Hin & Heq).
    apply isEqual_same_chars in Heq as (cs' & Hcs' & Hsame).
    assert (child h this c) as Hc by (by exists st).
    destruct (wf_child h Hwf _ _ Hc) as (_ & cs'' & Hcs'' & Hem').
    assert (cs'' = cs') as -> by congruence.
    assert (cs' = cs) as -> by (by apply emitted_same_chars).
    split; [|done]. econstructor; [done..| |done].
    intros ->. rewrite Hcs' in Hseq. simpl in Hseq.
    destruct Hseq as [Hseq _]. apply Hseq; [|by split].
    by apply (wf_loop h Hwf this cs Hcs').
  - destruct (State_put_new h this cs Hlt Hget) as (-> & Hch & Hsp & _).
    rewrite Hsp, decide_True by done. split; [|done].
    econstructor.
    + eapply reach_le; [apply State_put_le|done].
    + apply Hch. right. by left.
    + lia.
    + by rewrite Hsp, decide_True.
Qed.

Lemma put_all_app h cur a b :
  put_all h cur (a ++ b)
  = put_all (put_all h cur a).1 (put_all h cur a).2 b.
Proof.
  revert h cur. induction a as [|cs a IH]; intros h cur; simpl; [done|].
  destruct (State_put h cur cs) as [h' s]. apply IH.
Qed.

Lemma put_all_reach specs h cur pre :
  wf h → reach h pre cur → Forall emitted specs →
  sequenced (option_list (child_spec h cur) ++ specs) →
  wf (put_all h cur specs).1
  ∧ reach (put_all h cur specs).1 (pre ++ specs) (put_all h cur specs).2.
Proof.
  revert h cur pre.
  induction specs as [|cs specs IH]; intros h cur pre Hwf Hr Hem Hseq; simpl.
  - by rewrite app_nil_r.
  - apply Forall_cons in Hem as [Hcs Hem].
    pose proof (reach_lt _ _ _ Hwf Hr) as Hlt.
    pose proof (State_put_wf h cur cs Hwf Hlt Hcs) as Hwf'.
    destruct (State_put_reach h cur cs pre Hwf Hr Hcs) as [Hr' Hsp].
    { destruct (child_spec h cur); simpl in *; [|done].
      destruct specs; simpl in *; tauto. }
    destruct (State_put h cur cs) as [h' s]. simpl in *.
    rewrite (cons_middle cs), app_assoc. apply IH; try done.
    rewrite Hsp. simpl. destruct (child_spec h cur); simpl in Hseq; [|done].
    by destruct Hseq.
Qed.

Lemma segments_specs_cons seg segments :
  segments_specs (seg :: segments)
  = (if isEpsilon seg then [] else slashSpec :: eachChar seg)
    ++ segments_specs segments.
Proof. done. Qed.

Lemma segments_specs_app a b :
  segments_specs (a ++ b) = segments_specs a ++ segments_specs b.
Proof. unfold segments_specs. by rewrite fmap_app, concat_app. Qed.

Lemma add_segments_heap segments h cur rx e :
  let r := add_segments segments h cur rx e in
  (r.1.1.1, r.1.1.2) = put_all h cur (segments_specs segments).
Proof.
  revert h cur rx e.
  induction segments as [|seg segments IH]; intros h cur rx e; [done|].
  rewrite segments_specs_cons. simpl. destruct (isEpsilon seg); [apply IH|].
  simpl. destruct (State_put h cur slashSpec) as [h1 s1]. unfold addSegment.
  rewrite put_all_app.
  destruct (put_all h1 s1 (eachChar seg)) as [h2 s2]. apply IH.
Qed.

Lemma add_routes_heap routes h cur rx ty hs segs e :
  let r := add_routes routes h cur rx ty hs segs e in
  (r.1.1.1.1.1.1, r.1.1.1.1.1.2)
  = put_all h cur (segments_specs (chain_segments routes)).
Proof.
  revert h cur rx ty hs segs e.
  induction routes as [|route routes IH]; intros h cur rx ty hs segs e;
    [done|].
  unfold chain_segments. simpl. rewrite segments_specs_app, put_all_app.
  destruct (parse_spec route ty) as [ty1 ->].
  pose proof (add_segments_heap (route_segments route) h cur rx e) as Hs.
  simpl in Hs.
  destruct (add_segments (route_segments route) h cur rx e)
    as [[[h' cur'] rx'] e'].
  simpl in Hs. rewrite <-Hs. apply IH.
Qed.

(** [add] puts the chain's specifications, one after the other, starting
    from the root, and assigns the accepting fields to the last state. *)
Lemma add_heap this routes as_ :
  let r := put_all (heap this) rootState (chain_specs routes) in
  heap (add this routes as_) = set_accepting r.1 r.2 (chain_accepting routes).
Proof.
  unfold add, chain_accepting, chain_specs.
  pose proof (add_routes_heap routes (heap this) rootState [RBol]
                (mkTypes 0 0 0) [] [] true) as Hh.
  pose proof (add_routes_data routes (heap this) rootState [RBol]
                (mkTypes 0 0 0) [] [] true) as Hd.
  destruct (add_routes _ _ _ _ _ _ _ _) as [[[[[[h cur] rx] ty] hs] segs] e].
  simpl in Hh, Hd. rewrite <-Hd.
  destruct (routes_data_spec routes [RBol] (mkTypes 0 0 0) [] [] true)
    as [ty' Hspec].
  rewrite <-Hd in Hspec. injection Hspec as _ _ _ _ He. simpl in He.
  rewrite <-He. rewrite put_all_app, <-Hh. simpl.
  destruct e; simpl; [|done].
  by destruct (State_put h cur slashSpec) as [h1 s1].
Qed.

Lemma emitted_chain_specs routes : Forall emitted (chain_specs routes).
Proof.
  unfold chain_specs. apply Forall_app. split.
  - induction (chain_segments routes) as [|seg segments IH]; [constructor|].
    rewrite segments_specs_cons. apply Forall_app. split; [|done].
    destruct (isEpsilon seg); [constructor|].
    constructor; [by left|]. apply Forall_forall. intros cs Hcs.
    right. by exists seg.
  - destruct (forallb _ _); [|constructor].
    constructor; [by left|constructor].
Qed.

Lemma sequenced_app_slash a b :
  sequenced a → sequenced b →
  (∀ cs, cs ∈ a → repeat cs = true → validChars cs = None) →
  (b = [] ∨ ∃ b', b = slashSpec :: b') →
  sequenced (a ++ b).
Proof.
  intros Ha Hb Hrep Hhead.
  induction a as [|x a IH]; [done|].
  destruct a as [|y a].
  - simpl. destruct Hhead as [->|[b' ->]]; [done|]. split; [|done].
    intros Hx [Hv _]. rewrite Hrep in Hv; [done|by left|done].
  - simpl in Ha |- *. destruct Ha as [Hxy Ha]. split; [done|].
    apply IH; [done|]. intros cs Hcs. apply Hrep. by right.
Qed.

Lemma sequenced_eachChar seg : sequenced (slashSpec :: eachChar seg).
Proof.
  destruct seg as [s| | |]; simpl; try (split; [done|done]); try done.
  induction (chars s) as [|c l IH]; [done|].
  simpl in *. split; [done|]. destruct l; [done|].
  simpl in *. split; [done|]. by destruct IH.
Qed.

Lemma sequenced_chain_specs routes : sequenced (chain_specs routes).
Proof.
  unfold chain_specs.
  destruct (forallb isEpsilon (chain_segments routes)) eqn:E.
  - assert (segments_specs (chain_segments routes) = []) as ->; [|done].
    induction (chain_segments routes) as [|seg segments IH]; [done|].
    simpl in E. apply andb_true_iff in E as [E1 E2].
    rewrite segments_specs_cons, E1. by apply IH.
  - rewrite app_nil_r. clear E.
    induction (chain_segments routes) as [|seg segments IH]; [done|].
    rewrite segments_specs_cons. destruct (isEpsilon seg) eqn:E; [done|].
    apply sequenced_app_slash; [apply sequenced_eachChar|done| |].
    + intros cs [->|Hcs]%elem_of_cons; [done|].
      destruct seg as [s| | |]; simpl in Hcs.
      * apply list_elem_of_fmap in Hcs as (c & -> & _). done.
      * apply list_elem_of_singleton in Hcs as ->. done.
      * apply list_elem_of_singleton in Hcs as ->. done.
      * done.
    + clear IH. induction segments as [|seg' segments IH]; [by left|].
      rewrite segments_specs_cons. destruct (isEpsilon seg'); [done|].
      right. by eexists.
Qed.

Lemma set_accepting_child h s acc p c :
  child (set_accepting h s acc) p c ↔ child h p c.
Proof.
  unfold child, set_accepting. destruct (decide (s = p)) as [->|Hne].
  - setoid_rewrite list_lookup_alter_eq. destruct (h !! p) as [st|]; simpl.
    + split; intros (st' & [= <-] & Hin); eexists; split; done.
    + split; intros (? & ? & _); done.
  - by setoid_rewrite list_lookup_alter_ne.
Qed.

Lemma set_accepting_child_spec h s acc c :
  child_spec (set_accepting h s acc) c = child_spec h c.
Proof.
  unfold child_spec, set_accepting. destruct (decide (s = c)) as [->|Hne].
  - rewrite list_lookup_alter_eq. by destruct (h !! c).
  - by rewrite list_lookup_alter_ne.
Qed.

Lemma set_accepting_wf h s acc : wf h → wf (set_accepting h s acc).
Proof.
  intros [Hroot Hchild Hparent Hsib Hloop]. split.
  - rewrite set_accepting_child_spec. unfold set_accepting.
    by rewrite length_alter.
  - intros p c. rewrite set_accepting_child. unfold set_accepting.
    rewrite length_alter. setoid_rewrite set_accepting_child_spec. auto.
  - intros p p' c. rewrite !set_accepting_child. apply Hparent.
  - intros p c c' cs cs'.
    rewrite !set_accepting_child, !set_accepting_child_spec. apply Hsib.
  - intros c cs. rewrite set_accepting_child, set_accepting_child_spec.
    apply Hloop.
Qed.

Lemma set_accepting_reach h s acc specs t :
  reach (set_accepting h s acc) specs t ↔ reach h specs t.
Proof.
  split; apply reach_mono.
  - intros p c. by rewrite set_accepting_child.
  - intros c cs. by rewrite set_accepting_child_spec.
  - intros p c. by rewrite set_accepting_child.
  - intros c cs. by rewrite set_accepting_child_spec.
Qed.

Lemma wf_new : wf (heap RouteRecognizer_new).
Proof.
  assert (∀ p c, ¬ child (heap RouteRecognizer_new) p c) as Hno.
  { intros p c (st & Hst & Hin). destruct p; [|done].
    injection Hst as <-. by apply elem_of_nil in Hin. }
  split.
  - split; [done|]. simpl. unfold rootState. lia.
  - intros p c Hc. by destruct (Hno p c).
  - intros p p' c Hc. by destruct (Hno p c).
  - intros p c c' cs cs' Hc. by destruct (Hno p c).
  - intros c cs. destruct c; [done|]. done.
Qed.

(** *** Registered chains and accepting states *)

Lemma accepting_from_trans a b c :
  accepting_from a b → accepting_from b c → accepting_from a c.
Proof.
  intros Hab Hbc i st acc Hst Hacc.
  destruct (Hbc i st acc Hst Hacc) as (st1 & Hst1 & Hacc1). eauto.
Qed.

Lemma push_child_accepting_from h parent c :
  accepting_from h (push_child h parent c).
Proof.
  intros i st acc. unfold push_child.
  destruct (decide (parent = i)) as [->|Hne].
  - rewrite list_lookup_alter_eq. destruct (h !! i) as [st0|]; [|done].
    simpl. intros [= <-]. simpl. by exists st0.
  - rewrite list_lookup_alter_ne by done. by exists st.
Qed.

Lemma State_put_accepting_from h this cs :
  accepting_from h (State_put h this cs).1.
Proof.
  unfold State_put. destruct (State_get h this cs).
  { intros i st acc. by exists st. }
  simpl.
  assert (accepting_from h (h ++ [mkState (Some cs) [] None])) as H0.
  { intros i st acc [Hi|[_ Hi]]%lookup_app_Some; [by exists st|].
    destruct (i - length h); [|done]. by injection Hi as <-. }
  eapply accepting_from_trans; [exact H0|].
  eapply accepting_from_trans; [apply push_child_accepting_from|].
  destruct (repeat cs); [apply push_child_accepting_from|].
  intros i st acc. by exists st.
Qed.

Lemma put_all_accepting_from specs h cur :
  accepting_from h (put_all h cur specs).1.
Proof.
  revert h cur. induction specs as [|cs specs IH]; intros h cur; simpl.
  - intros i st acc. by exists st.
  - pose proof (State_put_accepting_from h cur cs) as H.
    destruct (State_put h cur cs) as [h' s].
    eapply accepting_from_trans; [exact H|apply IH].
Qed.

(** The invariant of a built recognizer. *)
Lemma build_inv regs :
  let h := heap (build regs) in
  wf h
  ∧ (∀ i st acc, h !! i = Some st → accepting st = Some acc →
       ∃ routes as_, (routes, as_) ∈ regs ∧ acc = chain_accepting routes
                     ∧ reach h (chain_specs routes) i)
  ∧ (∀ routes as_, (routes, as_) ∈ regs →
       ∃ t st acc, reach h (chain_specs routes) t
                   ∧ h !! t = Some st ∧ accepting st = Some acc).
Proof.
  induction regs as [|[routes as_] regs IH] using rev_ind.
  - split; [apply wf_new|]. split.
    + intros i st acc. cbn. destruct i; [|done]. by intros [= <-].
    + intros routes as_ H. by apply elem_of_nil in H.
  - rewrite build_snoc. unfold register. simpl.
    destruct IH as (Hwf & Hacc & Hreg). simpl in *.
    rewrite add_heap. set (h0 := heap (build regs)) in *.
    destruct (put_all_reach (chain_specs routes) h0 rootState []
                Hwf (reach_root h0) (emitted_chain_specs routes))
      as [Hwf1 Hr1].
    { destruct (wf_root h0 Hwf) as [-> _]. apply sequenced_chain_specs. }
    pose proof (put_all_le (chain_specs routes) h0 rootState) as Hle.
    pose proof (put_all_accepting_from (chain_specs routes) h0 rootState)
      as Hfrom.
    destruct (put_all h0 rootState (chain_specs routes)) as [h1 t].
    simpl in *. pose proof (reach_lt _ _ _ Hwf1 Hr1) as Hlt.
    split; [by apply set_accepting_wf|]. split.
    + intros i st acc. unfold set_accepting at 1.
      destruct (decide (t = i)) as [->|Hne].
      * rewrite list_lookup_alter_eq. destruct (h1 !! i); [|done]. simpl.
        intros [= <-]. simpl. intros [= <-]. exists routes, as_.
        split; [apply elem_of_app; right; by apply list_elem_of_singleton|].
        split; [done|]. by apply set_accepting_reach.
      * rewrite list_lookup_alter_ne by done. intros Hst Ha.
        destruct (Hfrom i st acc Hst Ha) as (st0 & Hst0 & Ha0).
        destruct (Hacc i st0 acc Hst0 Ha0) as (r & a & Hin & -> & Hr).
        exists r, a. split; [apply elem_of_app; by left|]. split; [done|].
        apply set_accepting_reach. by eapply reach_le.
    + intros r a [Hin|Hin%list_elem_of_singleton]%elem_of_app.
      * destruct (Hreg r a Hin) as (t0 & st0 & acc0 & Hr0 & Hst0 & Ha0).
        destruct (Hle t0 st0 Hst0) as (st1 & Hst1 & _ & Ha1).
        exists t0. unfold set_accepting at 2.
        destruct (decide (t = t0)) as [->|Hne].
        -- rewrite list_lookup_alter_eq, Hst1. simpl.
           eexists _, _. split; [|done].
           apply set_accepting_reach. by eapply reach_le.
        -- rewrite list_lookup_alter_ne by done.
           exists st1, acc0. split; [|split; [done|congruence]].
           apply set_accepting_reach. by eapply reach_le.
      * injection Hin as -> ->. exists t.
        destruct (lookup_lt_is_Some_2 h1 t Hlt) as [st1 Hst1].
        unfold set_accepting at 2. rewrite list_lookup_alter_eq, Hst1. simpl.
        eexists _, _. split; [|done]. by apply set_accepting_reach.
Qed.

(** *** Edge interning in a built automaton *)

Lemma child_equal_specs h this st cs c :
  wf h → h !! this = Some st → emitted cs → c ∈ nextStates st →
  (∃ cs', child_spec h c = Some cs' ∧ same_chars cs' cs)
  ↔ (∃ cs', child_spec h c = Some cs' ∧ equal_specs cs' cs).
Proof.
  intros Hwf Hst Hcs Hin.
  destruct (wf_child h Hwf this c) as (_ & cs0 & Hc0 & Hem0);
    [by exists st|].
  split.
  - intros (cs' & Hc' & Hsame). exists cs'. split; [done|].
    assert (cs' = cs) as ->; [|done].
    apply emitted_same_chars; [congruence|done..].
  - intros (cs' & Hc' & Hv & Hi & _). by exists cs'.
Qed.

Lemma equal_specs_eq a b : equal_specs a b ↔ a = b.
Proof.
  split; [|by intros ->]. destruct a, b. intros (Hv & Hi & Hr).
  simpl in *. congruence.
Qed.

(** C4. In the automaton of a built recognizer, for a state [this] and a
    character specification [cs] that [add] emits: [get] takes a child of
    [this] for the state of [cs] exactly when the child's specification has
    the valid characters, the invalid characters and the repeat flag of
    [cs]; [put] returns an existing child, and leaves the automaton as it
    is, exactly when [this] has a child with such an equal specification,
    and that child is the one it returns; otherwise it creates a new state
    carrying [cs], as the last child of [this]. *)
Theorem put_reuses_equal_spec regs this st cs :
  let h := heap (build regs) in
  let equal child :=
    ∃ cs', child_spec h child = Some cs' ∧ equal_specs cs' cs in
  h !! this = Some st → emitted cs →
  (∀ child, child ∈ nextStates st → (isEqual h cs child = true ↔ equal child))
  ∧ (∀ child, State_get h this cs = Some child
              ↔ child ∈ nextStates st ∧ equal child)
  ∧ ((∃ child, child ∈ nextStates st ∧ equal child) ↔
     (∃ child, State_put h this cs = (h, child)
               ∧ child ∈ nextStates st ∧ child_spec h child = Some cs))
  ∧ ((¬ ∃ child, child ∈ nextStates st ∧ equal child) →
     (State_put h this cs).2 = length h
     ∧ length (State_put h this cs).1 = S (length h)
     ∧ child_spec (State_put h this cs).1 (length h) = Some cs
     ∧ ∃ st', (State_put h this cs).1 !! this = Some st'
              ∧ nextStates st' = nextStates st ++ [length h]).
Proof.
  intros h equal Hst Hcs.
  destruct (build_inv regs) as (Hwf & _). fold h in Hwf.
  destruct (State_put_same_chars h this st cs Hst)
    as (Heq & Hreuse & Hnew).
  assert (∀ child, child ∈ nextStates st →
            (isEqual h cs child = true ↔ equal child)) as Hchild.
  { intros child Hin. rewrite Heq.
    by apply (child_equal_specs h this st). }
  split; [done|]. split; [|split].
  - intros child. split.
    + intros (st' & Hst' & Hin & Hc)%State_get_Some.
      assert (st' = st) as -> by congruence.
      split; [done|]. by apply Hchild.
    + intros [Hin Hc]. apply Hchild in Hc; [|done].
      destruct (State_get_is_Some _ _ _ _ _ Hst Hin Hc) as [c' Hc'].
      rewrite Hc'. f_equal.
      apply State_get_Some in Hc' as (st' & Hst' & Hin' & Hc'').
      assert (st' = st) as -> by congruence.
      apply Heq in Hc as (cs1 & Hcs1 & Hsame1).
      apply Heq in Hc'' as (cs2 & Hcs2 & Hsame2).
      apply (wf_sibling h Hwf this c' child cs2 cs1);
        [by exists st|by exists st|done|done|].
      destruct Hsame1 as [H1 H1'], Hsame2 as [H2 H2']. split; congruence.
  - split.
    + intros (child & Hin & Hc).
      destruct (proj1 Hreuse) as (c & Hput & Hin' & Hsame).
      { exists child. split; [done|].
        by apply (child_equal_specs h this st). }
      exists c. split; [done|]. split; [done|].
      apply (child_equal_specs h this st) in Hsame as (cs' & Hc' & He);
        [|done..].
      apply equal_specs_eq in He. congruence.
    + intros (child & _ & Hin & Hc). exists child. split; [done|].
      exists cs. split; [done|]. by apply equal_specs_eq.
  - intros Hno. apply Hnew. intros (child & Hin & Hsame). apply Hno.
    exists child. split; [done|].
    by apply (child_equal_specs h this st).
Qed.

Lemma put_reuses_equal_spec_witness :
  let h := heap (build blog) in
  let equal child :=
    ∃ cs', child_spec h child = Some cs' ∧ equal_specs cs' slashSpec in
  (∀ child, child ∈ [1] → (isEqual h slashSpec child = true ↔ equal child))
  ∧ (∀ child, State_get h rootState slashSpec = Some child
              ↔ child ∈ [1] ∧ equal child)
  ∧ ((∃ child, child ∈ [1] ∧ equal child) ↔
     (∃ child, State_put h rootState slashSpec = (h, child)
               ∧ child ∈ [1] ∧ child_spec h child = Some slashSpec))
  ∧ ((¬ ∃ child, child ∈ [1] ∧ equal child) →
     (State_put h rootState slashSpec).2 = length h
     ∧ length (State_put h rootState slashSpec).1 = S (length h)
     ∧ child_spec (State_put h rootState slashSpec).1 (length h)
       = Some slashSpec
     ∧ ∃ st', (State_put h rootState slashSpec).1 !! rootState = Some st'
              ∧ nextStates st' = [1] ++ [length h]).
Proof.
  apply (put_reuses_equal_spec blog rootState (mkState None [1] None)
           slashSpec).
  - reflexivity.
  - by left.
Defined.

(** In the automaton of [blog], the state of [/posts/] has the children
    for [n] and for a dynamic segment: [put] returns the first for the
    specification of [n], the second for that of a dynamic segment, and
    makes a new state for the specification of a star segment, which has
    other invalid characters. *)
Lemma put_examples :
  let h := heap (build blog) in
  let n := mkCharSpec (Some "n") None false in
  let dynamic := mkCharSpec None (Some "/") true in
  let star := mkCharSpec None (Some "") true in
  (nextStates <$> h !! 7) = Some [8; 9]
  ∧ child_spec h 8 = Some dynamic
  ∧ child_spec h 9 = Some n
  ∧ State_put h 7 n = (h, 9)
  ∧ State_put h 7 dynamic = (h, 8)
  ∧ (State_put h 7 star).2 = length h.
Proof. by vm_compute. Qed.

(** ** The traversal *)

Lemma recognizeChar_nil h a : recognizeChar h [] a = [].
Proof. done. Qed.

Lemma run_nil h w : run h [] w = [].
Proof. induction w as [|a w IH]; [done|]. apply IH. Qed.

Lemma recognize_loop_run h states w : recognize_loop h states w = run h states w.
Proof.
  revert states. induction w as [|a w IH]; intros states; simpl; [done|].
  unfold run. simpl. destruct (recognizeChar h states a) eqn:E.
  - symmetry. apply run_nil.
  - apply IH.
Qed.

Lemma run_snoc h states w a :
  run h states (w ++ [a]) = recognizeChar h (run h states w) a.
Proof. unfold run. by rewrite foldl_app. Qed.

Lemma run_app h states w u :
  run h states (w ++ u) = run h (run h states w) u.
Proof. unfold run. by rewrite foldl_app. Qed.

Lemma elem_of_State_match h s a t :
  t ∈ State_match h s a ↔
  child h s t ∧ ∃ cs, child_spec h t = Some cs ∧ accepts cs a = true.
Proof.
  unfold State_match, child. destruct (h !! s) as [st|].
  - rewrite list_elem_of_In, List.filter_In, <-list_elem_of_In. split.
    + intros [Hin Hacc]. split; [by exists st|].
      destruct (child_spec h t) as [cs|]; [by exists cs|done].
    + intros [(st' & [= <-] & Hin) (cs & -> & Hacc)]. done.
  - split; [by intros ?%elem_of_nil|]. by intros [(? & ? & _) _].
Qed.

Lemma elem_of_recognizeChar h states a t :
  t ∈ recognizeChar h states a ↔ ∃ s, s ∈ states ∧ t ∈ State_match h s a.
Proof.
  induction states as [|s states IH]; simpl.
  - split; [by intros ?%elem_of_nil|]. by intros (? & ?%elem_of_nil & _).
  - rewrite elem_of_app, IH. split.
    + intros [H|(s' & Hs' & H)]; [exists s; split; [by left|done]|].
      exists s'. split; [by right|done].
    + intros (s' & [->|Hs']%elem_of_cons & H); [by left|right; eauto].
Qed.

Lemma lang_nil_inv w : lang [] w → w = [].
Proof. intros (blocks & ->%Forall2_nil_inv_l & ->). done. Qed.

Lemma lang_snoc specs cs w u :
  lang specs w → block cs u → lang (specs ++ [cs]) (w ++ u).
Proof.
  intros (blocks & Hb & ->) Hu. exists (blocks ++ [u]). split.
  - apply Forall2_app; [done|]. by constructor.
  - rewrite concat_app. simpl. by rewrite app_nil_r.
Qed.

Lemma lang_snoc_inv specs cs w :
  lang (specs ++ [cs]) w → ∃ w0 u, w = w0 ++ u ∧ lang specs w0 ∧ block cs u.
Proof.
  intros (blocks & Hb & ->).
  apply Forall2_app_inv_l in Hb as (b1 & b2 & H1 & H2 & ->).
  inversion H2 as [|? u ? b2' Hu Hnil]; subst.
  apply Forall2_nil_inv_l in Hnil as ->.
  exists (concat b1), u. rewrite concat_app. simpl. rewrite app_nil_r.
  split; [done|]. split; [by exists b1|done].
Qed.

(** Soundness: a state in the result of the traversal is reached along
    specifications that consume the path. *)
Lemma run_sound h w t :
  wf h → t ∈ run h [rootState] w →
  ∃ specs, reach h specs t ∧ lang specs w.
Proof.
  intros Hwf. revert t. induction w as [|a w IH] using rev_ind; intros t.
  - intros ->%list_elem_of_singleton. exists []. split; [constructor|].
    exists []. split; [constructor|done].
  - rewrite run_snoc, elem_of_recognizeChar.
    intros (m & Hm & [Hc (cs & Hcs & Hacc)]%elem_of_State_match).
    destruct (IH m Hm) as (specs & Hr & Hl).
    destruct (decide (t = m)) as [->|Hne].
    + destruct (reach_last _ _ _ _ Hwf Hr Hcs) as [specs0 ->].
      exists (specs0 ++ [cs]). split; [done|].
      apply lang_snoc_inv in Hl as (w0 & u & -> & Hl0 & Hu & Hall & Hlen).
      rewrite <-app_assoc. apply lang_snoc; [done|].
      apply (wf_loop h Hwf m cs Hcs) in Hc.
      split; [by destruct u|]. split.
      * apply Forall_app. split; [done|]. by constructor.
      * congruence.
    + exists (specs ++ [cs]). split; [by econstructor|].
      apply lang_snoc; [done|]. split; [done|]. split; [|done].
      by constructor.
Qed.

Lemma run_loop h t cs u states :
  wf h → child_spec h t = Some cs → repeat cs = true →
  Forall (λ a, accepts cs a = true) u →
  t ∈ states → t ∈ run h states u.
Proof.
  intros Hwf Hcs Hrep Hall. revert states.
  induction Hall as [|b u Hb Hall IH]; intros states Ht; [done|].
  change (b :: u) with ([b] ++ u). rewrite run_app. apply IH.
  unfold run. simpl. apply elem_of_recognizeChar. exists t.
  split; [done|]. apply elem_of_State_match. split; [|by exists cs].
  by apply (wf_loop h Hwf t cs Hcs).
Qed.

(** Completeness: the state at the end of specifications that consume the
    path is in the result of the traversal. *)
Lemma run_complete h specs w t :
  wf h → reach h specs t → lang specs w → t ∈ run h [rootState] w.
Proof.
  intros Hwf. revert w t.
  induction specs as [|cs specs IH] using rev_ind; intros w t Hr Hl.
  - apply lang_nil_inv in Hl as ->. inversion Hr as [|specs0 ? ? ? _ _ _ _ Heq].
    + by apply list_elem_of_singleton.
    + by destruct specs0.
  - apply reach_snoc_inv in Hr as (p & Hr & Hc & Hne & Hcs).
    apply lang_snoc_inv in Hl as (w0 & u & -> & Hl0 & Hu & Hall & Hlen).
    specialize (IH w0 p Hr Hl0). rewrite run_app.
    destruct u as [|a u]; [done|]. apply Forall_cons in Hall as [Ha Hall].
    assert (t ∈ run h (run h [rootState] w0) [a]) as H1.
    { unfold run at 1. simpl. apply elem_of_recognizeChar. exists p.
      split; [done|]. apply elem_of_State_match. split; [done|]. by exists cs. }
    change (a :: u) with ([a] ++ u). rewrite run_app.
    destruct (repeat cs) eqn:E.
    + by eapply run_loop.
    + specialize (Hlen eq_refl). destruct u; [done|]. simpl in Hlen. lia.
Qed.

(** ** Patterns and the words of their specifications *)

Lemma lang_cons cs specs w :
  lang (cs :: specs) w ↔ ∃ u w', w = u ++ w' ∧ block cs u ∧ lang specs w'.
Proof.
  split.
  - intros (blocks & Hb & ->). inversion Hb as [|? u ? bs Hu Hbs]; subst.
    exists u, (concat bs). split; [done|]. split; [done|]. by exists bs.
  - intros (u & w' & -> & Hu & bs & Hbs & ->). exists (u :: bs).
    split; [by constructor|done].
Qed.

Lemma lang_app l1 l2 w :
  lang (l1 ++ l2) w ↔ ∃ w1 w2, w = w1 ++ w2 ∧ lang l1 w1 ∧ lang l2 w2.
Proof.
  split.
  - intros (blocks & Hb & ->).
    apply Forall2_app_inv_l in Hb as (b1 & b2 & H1 & H2 & ->).
    exists (concat b1), (concat b2). rewrite concat_app.
    split; [done|]. split; [by exists b1|by exists b2].
  - intros (w1 & w2 & -> & (b1 & H1 & ->) & (b2 & H2 & ->)).
    exists (b1 ++ b2). split; [by apply Forall2_app|by rewrite concat_app].
Qed.

Lemma lang_nil w : lang [] w ↔ w = [].
Proof.
  split; [apply lang_nil_inv|]. intros ->. exists []. by split; [constructor|].
Qed.

Lemma contains_single c a : contains (String c "") a = bool_decide (a = c).
Proof.
  unfold contains. apply bool_decide_ext. change (chars (String c "")) with [c].
  apply list_elem_of_singleton.
Qed.

Lemma block_single c u :
  block (mkCharSpec (Some (String c "")) None false) u ↔ u = [c].
Proof.
  unfold block, accepts. simpl. setoid_rewrite contains_single. split.
  - intros (Hne & Hall & Hlen). specialize (Hlen eq_refl).
    destruct u as [|a [|b u]]; simpl in Hlen; try done.
    apply Forall_cons in Hall as [Ha _]. by apply bool_decide_eq_true in Ha as ->.
  - intros ->. split; [done|]. split; [|done].
    constructor; [by apply bool_decide_eq_true|constructor].
Qed.

Lemma block_dynamic u :
  block (mkCharSpec None (Some "/") true) u ↔ u ≠ [] ∧ "/"%char ∉ u.
Proof.
  unfold block, accepts. simpl.
  assert (∀ a, negb (contains "/" a) = true ↔ a ≠ "/"%char) as Hneg.
  { intros a. rewrite (contains_single "/" a), negb_true_iff.
    apply bool_decide_eq_false. }
  split.
  - intros (Hne & Hall & _). split; [done|]. intros Hin.
    rewrite Forall_forall in Hall. apply Hall in Hin. by apply Hneg in Hin.
  - intros [Hne Hnin]. split; [done|]. split; [|done].
    apply Forall_forall. intros a Ha. apply Hneg. by intros ->.
Qed.

Lemma block_star u : block (mkCharSpec None (Some "") true) u ↔ u ≠ [].
Proof.
  unfold block, accepts. simpl. split; [by intros (? & _)|].
  intros Hne. split; [done|]. split; [|done].
  apply Forall_forall. by intros a _.
Qed.

Lemma lang_static l w :
  lang ((λ c, mkCharSpec (Some (String c "")) None false) <$> l) w ↔ w = l.
Proof.
  revert w. induction l as [|c l IH]; intros w.
  - apply lang_nil.
  - rewrite fmap_cons, lang_cons. split.
    + intros (u & w' & -> & ->%block_single & ->%IH). done.
    + intros ->. exists [c], l. split; [done|].
      split; [by apply block_single|by apply IH].
Qed.

Lemma lang_eachChar seg text :
  isEpsilon seg = false →
  lang (eachChar seg) text ↔ segment_text seg text.
Proof.
  destruct seg as [s|n|n|]; simpl; [| | |done]; intros _.
  - apply lang_static.
  - rewrite lang_cons. setoid_rewrite lang_nil. setoid_rewrite block_dynamic.
    split.
    + intros (u & w' & -> & Hu & ->). by rewrite app_nil_r.
    + intros Hu. exists text, []. by rewrite app_nil_r.
  - rewrite lang_cons. setoid_rewrite lang_nil. setoid_rewrite block_star.
    split.
    + intros (u & w' & -> & Hu & ->). by rewrite app_nil_r.
    + intros Hu. exists text, []. by rewrite app_nil_r.
Qed.

Lemma lang_segments segments w :
  lang (segments_specs segments) w ↔ segments_accept segments w.
Proof.
  revert w. induction segments as [|seg segments IH]; intros w.
  - apply lang_nil.
  - rewrite segments_specs_cons. simpl. destruct (isEpsilon seg) eqn:E.
    + apply IH.
    + rewrite lang_app. setoid_rewrite lang_cons.
      setoid_rewrite (block_single "/"). setoid_rewrite IH.
      setoid_rewrite (lang_eachChar seg _ E). split.
      * intros (w1 & w2 & -> & (u & text & -> & -> & Htext) & Hrest).
        exists text, w2. done.
      * intros (text & w' & -> & Htext & Hrest).
        exists ("/"%char :: text), w'. split; [done|]. split; [|done].
        exists ["/"%char], text. done.
Qed.

Lemma segments_specs_epsilon segments :
  forallb isEpsilon segments = true → segments_specs segments = [].
Proof.
  induction segments as [|seg segments IH]; [done|]. simpl.
  intros [E1 E2]%andb_true_iff. rewrite segments_specs_cons, E1. by apply IH.
Qed.

(** The words of a chain's specifications are the paths that its pattern
    matches. *)
Lemma lang_chain_specs routes path :
  lang (chain_specs routes) (chars path) ↔ pattern_matches routes path.
Proof.
  unfold chain_specs, pattern_matches.
  destruct (forallb isEpsilon (chain_segments routes)) eqn:E.
  - rewrite segments_specs_epsilon by done. simpl.
    rewrite lang_cons. setoid_rewrite lang_nil.
    setoid_rewrite (block_single "/"). split.
    + intros (u & w' & Hw & -> & ->). by apply chars_inj.
    + intros ->. by exists ["/"%char], [].
  - rewrite app_nil_r. apply lang_segments.
Qed.

(** ** Paths that no pattern matches *)

Lemma candidates_elem regs path i acc :
  (i, acc) ∈ candidates (build regs) path →
  ∃ routes as_, (routes, as_) ∈ regs ∧ acc = chain_accepting routes
    ∧ reach (heap (build regs)) (chain_specs routes) i
    ∧ pattern_matches routes (normalize_path path).
Proof.
  unfold candidates. rewrite recognize_loop_run.
  intros [Hrun (st & Hst & Hacc)]%solutions_of_elem.
  destruct (build_inv regs) as (Hwf & Hinv & _).
  destruct (Hinv i st acc Hst Hacc) as (routes & as_ & Hin & -> & Hr).
  exists routes, as_. split; [done|]. split; [done|]. split; [done|].
  apply run_sound in Hrun as (specs & Hr' & Hl); [|done].
  apply lang_chain_specs.
  by rewrite (reach_unique_specs _ _ _ _ Hwf Hr Hr').
Qed.

Lemma recognize_path_unmatched regs path qp :
  unmatched regs path → recognize_path (build regs) path qp = Ok None.
Proof.
  intros Hno.
  apply recognize_path_no_candidate.
  destruct (candidates (build regs) path) as [|[i acc] l] eqn:E; [done|].
  exfalso.
  destruct (candidates_elem regs path i acc) as (r & a & Hin & _ & _ & Hm).
  { rewrite E. by left. }
  by eapply Hno.
Qed.

Section Unmatched.

Variable decodeURIComponent : string → result string.

(** C3 (amended). For every input path that no registered route pattern
    matches, [recognize] returns [undefined]; it throws only when the input
    has a query string of which [decodeURIComponent] rejects a key or a
    value - the exception of the query string parser, raised before any
    matching. *)
Theorem unmatched_path_is_undefined regs :
  (∀ p, "?"%char ∉ chars p → unmatched regs p →
     recognize decodeURIComponent (build regs) p = Ok None)
  ∧ (∀ p q, "?"%char ∉ chars p → unmatched regs p →
       recognize decodeURIComponent (build regs) (p +:+ String "?" q)
       = (_ ←! parseQueryString decodeURIComponent q; Ok None))
  ∧ (∀ p q qp, "?"%char ∉ chars p → unmatched regs p →
       parseQueryString decodeURIComponent q = Ok qp →
       recognize decodeURIComponent (build regs) (p +:+ String "?" q)
       = Ok None).
Proof.
  split; [|split].
  - intros p Hq Hno. rewrite recognize_no_query by done.
    by apply recognize_path_unmatched.
  - intros p q Hq Hno. rewrite recognize_query by done.
    destruct (parseQueryString decodeURIComponent q); simpl; [|done].
    by apply recognize_path_unmatched.
  - intros p q qp Hq Hno Hparse. rewrite recognize_query by done.
    rewrite Hparse. simpl. by apply recognize_path_unmatched.
Qed.

End Unmatched.

(** ** From [generate] to [recognize] *)

Lemma names_add_spec this routes as_ :
  names (add this routes as_) =
  match as_ with
  | Some name =>
      if bool_decide (name = "") then names this
      else <[name := NamedRoute.mk (chain_segments routes)
                       (chain_handlers routes)]> (names this)
  | None => names this
  end.
Proof.
  rewrite names_add. destruct as_ as [name|]; [|done].
  case_bool_decide; [done|].
  pose proof (add_routes_data routes (heap this) rootState [RBol]
                (mkTypes 0 0 0) [] [] true) as Hd.
  destruct (routes_data_spec routes [RBol] (mkTypes 0 0 0) [] [] true)
    as [ty' Hs].
  simpl in Hd. rewrite Hs in Hd. injection Hd as _ _ -> -> _. done.
Qed.

Lemma build_names_last before routes name after :
  name ≠ "" → (∀ routes', (routes', Some name) ∉ after) →
  names (build (before ++ (routes, Some name) :: after)) !! name
  = Some (NamedRoute.mk (chain_segments routes) (chain_handlers routes)).
Proof.
  intros Hname. induction after as [|[r a] after IH] using rev_ind; intros Hno.
  - rewrite build_snoc. unfold register. simpl. rewrite names_add_spec.
    rewrite bool_decide_eq_false_2 by done. apply lookup_insert_eq.
  - rewrite (app_comm_cons _ _ (routes, Some name)), app_assoc, build_snoc.
    unfold register. simpl. rewrite names_add_spec.
    assert (names (build (before ++ (routes, Some name) :: after)) !! name
            = Some (NamedRoute.mk (chain_segments routes)
                      (chain_handlers routes))) as Hprev.
    { apply IH. intros r' Hin. apply (Hno r'). apply elem_of_app. by left. }
    destruct a as [n|]; [|done]. case_bool_decide; [done|].
    rewrite lookup_insert_ne; [done|]. intros ->. apply (Hno r).
    apply elem_of_app. right. by apply list_elem_of_singleton.
Qed.

Lemma url_chars_cons P seg segments :
  url_chars P (seg :: segments)
  = (if isEpsilon seg then [] else "/"%char :: segment_value P seg)
    ++ url_chars P segments.
Proof. done. Qed.

Lemma url_chars_epsilon P segments :
  forallb isEpsilon segments = true → url_chars P segments = [].
Proof.
  induction segments as [|seg segments IH]; [done|]. simpl.
  intros [E1 E2]%andb_true_iff. rewrite url_chars_cons, E1. by apply IH.
Qed.

Lemma url_chars_head P segments :
  forallb isEpsilon segments = false →
  ∃ w, url_chars P segments = "/"%char :: w.
Proof.
  induction segments as [|seg segments IH]; [done|]. simpl.
  rewrite url_chars_cons. destruct (isEpsilon seg); simpl; [apply IH|].
  intros _. by eexists.
Qed.

Lemma lookup_inherited text name :
  inherited text !! name
  = if bool_decide (name ∈ ObjectPrototype) then Some (text name) else None.
Proof.
  assert (((λ name, (name, text name)) <$> ObjectPrototype).*1
          = ObjectPrototype) as Hfst by reflexivity.
  unfold inherited. case_bool_decide as Hin.
  - apply elem_of_list_to_map_1.
    + rewrite Hfst. apply (bool_decide_unpack _). reflexivity.
    + apply list_elem_of_fmap. by exists name.
  - apply not_elem_of_list_to_map_1. by rewrite Hfst.
Qed.

Lemma binding_inherited text P name :
  binding (P ∪ inherited text) name
  = match P !! name with
    | Some v => v
    | None => if bool_decide (name ∈ ObjectPrototype) then text name
              else "undefined"
    end.
Proof.
  unfold binding. destruct (P !! name) as [v|] eqn:E.
  - by rewrite (lookup_union_Some_l _ _ _ _ E).
  - rewrite lookup_union_r, lookup_inherited by done. by case_bool_decide.
Qed.

Lemma binding_own text P name :
  is_Some (P !! name) ∨ name ∉ ObjectPrototype →
  binding (P ∪ inherited text) name = binding P name.
Proof.
  intros H. rewrite binding_inherited. unfold binding.
  destruct (P !! name) as [v|]; [done|]. destruct H as [[? ?]|H]; [done|].
  by rewrite bool_decide_eq_false_2.
Qed.

Lemma url_chars_own text P segments :
  own_names P segments →
  url_chars (P ∪ inherited text) segments = url_chars P segments.
Proof.
  intros Hown. unfold url_chars. f_equal. apply list_fmap_ext.
  intros _ seg Hseg%list_elem_of_lookup_2.
  destruct (isEpsilon seg); [done|]. f_equal.
  destruct seg as [s|n|n|]; simpl; try done;
    rewrite binding_own; try done; by eapply Hown.
Qed.

Section Generate.

Variable inheritedText : string → string.
Variable encodeURIComponent : string → result string.

Lemma Segment_generate_value P seg :
  Segment_generate inheritedText seg (Some (strings P))
  = Ok (str (segment_value (P ∪ inherited inheritedText) seg)).
Proof.
  destruct seg as [s|n|n|]; simpl; [by rewrite (str_chars s)| | |done];
    rewrite binding_inherited, str_chars; unfold strings;
    rewrite lookup_fmap; destruct (P !! n); simpl; try done;
    by case_bool_decide.
Qed.

Lemma generate_loop_url P segments output :
  generate_loop inheritedText segments (Some (strings P)) output
  = Ok (output
        +:+ str (url_chars (P ∪ inherited inheritedText) segments)).
Proof.
  revert output. induction segments as [|seg segments IH]; intros output.
  - simpl. f_equal. apply chars_inj. by rewrite chars_app, app_nil_r.
  - rewrite url_chars_cons. simpl. destruct (isEpsilon seg); [apply IH|].
    rewrite Segment_generate_value. simpl. rewrite IH. f_equal.
    apply chars_inj. rewrite !chars_app, !chars_str.
    change (chars "/") with ["/"%char].
    rewrite (chars_cons "/"%char
               (str (segment_value (P ∪ inherited inheritedText) seg
                     ++ url_chars (P ∪ inherited inheritedText) segments))),
      chars_str.
    by rewrite <-!app_assoc.
Qed.

(** A [params] object with query params, and no segment that reads them. *)
Lemma generate_loop_with_query P qp segments output :
  (∀ segment, segment ∈ segments →
     segment_name segment ≠ Some "queryParams") →
  generate_loop inheritedText segments (Some (with_query P qp)) output
  = generate_loop inheritedText segments (Some (strings P)) output.
Proof.
  revert output. induction segments as [|seg segments IH]; intros output Hn;
    [done|].
  simpl. destruct (isEpsilon seg).
  { apply IH. intros ? ?. apply Hn. by right. }
  assert (Segment_generate inheritedText seg (Some (with_query P qp))
          = Segment_generate inheritedText seg (Some (strings P))) as ->.
  { specialize (Hn seg (ltac:(by left))).
    destruct seg as [s|n|n|]; simpl in *; try done;
      unfold with_query; rewrite lookup_insert_ne; try done; congruence. }
  destruct (Segment_generate _ _ _); simpl; [|done].
  apply IH. intros ? ?. apply Hn. by right.
Qed.

Lemma generate_chain_url_inherited before routes name after P :
  name ≠ "" → (∀ routes', (routes', Some name) ∉ after) →
  P !! "queryParams" = None →
  generate inheritedText encodeURIComponent
    (build (before ++ (routes, Some name) :: after)) name
    (Some (strings P))
  = Ok (chain_url (P ∪ inherited inheritedText) routes).
Proof.
  intros Hname Hno Hq. unfold generate, names_get.
  rewrite build_names_last by done. simpl.
  rewrite generate_loop_url. simpl. unfold strings at 1.
  rewrite lookup_fmap, Hq. simpl. unfold chain_url.
  destruct (forallb isEpsilon (chain_segments routes)) eqn:E.
  - by rewrite url_chars_epsilon.
  - destruct (url_chars_head (P ∪ inherited inheritedText) _ E) as [w ->].
    by rewrite bool_decide_eq_true_2.
Qed.

Lemma chain_url_own P routes :
  own_names P (chain_segments routes) →
  chain_url (P ∪ inherited inheritedText) routes = chain_url P routes.
Proof. intros H. unfold chain_url. by rewrite url_chars_own. Qed.

Lemma generate_chain_url before routes name after P :
  name ≠ "" → (∀ routes', (routes', Some name) ∉ after) →
  P !! "queryParams" = None → own_names P (chain_segments routes) →
  generate inheritedText encodeURIComponent
    (build (before ++ (routes, Some name) :: after)) name
    (Some (strings P))
  = Ok (chain_url P routes).
Proof.
  intros Hname Hno Hq Hown.
  by rewrite generate_chain_url_inherited, chain_url_own.
Qed.

End Generate.

(** *** What [parse] guarantees *)

Lemma route_segments_pieces route :
  ∃ pieces, route_segments route = parse_segment <$> pieces
            ∧ Forall (λ piece, "/"%char ∉ chars piece) pieces.
Proof.
  unfold route_segments, parse. set (pieces := split "/" _).
  destruct (parse_loop_spec pieces [] [] (mkTypes 0 0 0)) as [ty' ->].
  exists pieces. split; [done|]. apply Forall_forall. intros piece.
  subst pieces. unfold split.
  intros (x & -> & Hx)%list_elem_of_fmap. rewrite chars_str.
  by eapply split_chars_pieces.
Qed.

Lemma parse_segment_static_ok piece :
  "/"%char ∉ chars piece → static_ok (parse_segment piece).
Proof.
  intros Hp. unfold parse_segment.
  destruct (match_marker ":" piece); [done|].
  destruct (match_marker "*" piece); [done|].
  case_bool_decide; [done|]. done.
Qed.

Lemma route_segments_static_ok route : Forall static_ok (route_segments route).
Proof.
  destruct (route_segments_pieces route) as (pieces & -> & Hp).
  apply Forall_fmap. eapply Forall_impl; [exact Hp|].
  intros piece. apply parse_segment_static_ok.
Qed.

Lemma chain_segments_static_ok routes : Forall static_ok (chain_segments routes).
Proof.
  unfold chain_segments. induction routes as [|route routes IH]; [constructor|].
  simpl. apply Forall_app. split; [apply route_segments_static_ok|done].
Qed.

(** *** The generated URL: matched by its pattern, untouched by
    normalisation *)

Lemma segment_value_text P seg :
  isEpsilon seg = false → binding_ok P seg →
  segment_text seg (segment_value P seg).
Proof.
  destruct seg as [s|n|n|]; simpl; [done| | |done]; intros _.
  - intros (_ & v & Hv & Hne & _ & Hslash). unfold binding. rewrite Hv. simpl.
    split; [|done]. by rewrite chars_nil.
  - intros (_ & v & Hv & Hne & _). unfold binding. rewrite Hv. simpl.
    by rewrite chars_nil.
Qed.

Lemma segments_accept_url P segments :
  Forall (binding_ok P) segments →
  segments_accept segments (url_chars P segments).
Proof.
  induction 1 as [|seg segments Hseg Hall IH]; [done|].
  rewrite url_chars_cons. simpl. destruct (isEpsilon seg) eqn:E; [done|].
  exists (segment_value P seg), (url_chars P segments).
  split; [done|]. split; [by apply segment_value_text|done].
Qed.

Lemma pattern_matches_url P routes :
  Forall (binding_ok P) (chain_segments routes) →
  pattern_matches routes (chain_url P routes).
Proof.
  intros H. unfold pattern_matches, chain_url.
  destruct (forallb isEpsilon (chain_segments routes)); [done|].
  rewrite chars_str. by apply segments_accept_url.
Qed.

Lemma segment_value_no_query P seg :
  binding_ok P seg → "?"%char ∉ segment_value P seg.
Proof.
  destruct seg as [s|n|n|]; simpl.
  - by intros (? & _).
  - intros (_ & v & Hv & _ & Hq & _). unfold binding. by rewrite Hv.
  - intros (_ & v & Hv & _ & Hq & _). unfold binding. by rewrite Hv.
  - intros _. apply not_elem_of_nil.
Qed.

Lemma url_chars_no_query P segments :
  Forall (binding_ok P) segments → "?"%char ∉ url_chars P segments.
Proof.
  induction 1 as [|seg segments Hseg Hall IH]; [apply not_elem_of_nil|].
  rewrite url_chars_cons, not_elem_of_app. split; [|done].
  destruct (isEpsilon seg); [apply not_elem_of_nil|].
  rewrite not_elem_of_cons. split; [done|]. by apply segment_value_no_query.
Qed.

Lemma last_not_elem_of {A} (l : list A) x : x ∉ l → last l ≠ Some x.
Proof. intros Hnin Hl. by apply last_Some_elem_of in Hl. Qed.

Lemma segment_value_last P seg :
  isEpsilon seg = false → static_ok seg → binding_ok P seg →
  (∀ name, seg = StarSegment name →
     last (chars (binding P name)) ≠ Some "/"%char) →
  segment_value P seg ≠ [] ∧ last (segment_value P seg) ≠ Some "/"%char.
Proof.
  destruct seg as [s|n|n|]; simpl; [| | |done]; intros _.
  - intros [Hne Hslash] _ _. rewrite chars_nil. split; [done|].
    by apply last_not_elem_of.
  - intros _ (_ & v & Hv & Hne & _ & Hslash) _. unfold binding. rewrite Hv.
    simpl. rewrite chars_nil. split; [done|]. by apply last_not_elem_of.
  - intros _ (_ & v & Hv & Hne & _ & _) Hlast. specialize (Hlast n eq_refl).
    unfold binding in *. rewrite Hv in *. simpl in *. by rewrite chars_nil.
Qed.

Lemma last_segment_cons seg segments :
  last_segment (seg :: segments)
  = match last_segment segments with
    | Some seg' => Some seg'
    | None => if isEpsilon seg then None else Some seg
    end.
Proof.
  unfold last_segment. simpl. destruct (isEpsilon seg); simpl.
  - by destruct (last _).
  - by rewrite last_cons.
Qed.

Lemma last_segment_None P segments :
  last_segment segments = None ↔ url_chars P segments = [].
Proof.
  induction segments as [|seg segments IH]; [done|].
  rewrite last_segment_cons, url_chars_cons.
  destruct (last_segment segments) as [seg'|].
  - split; [done|]. intros [_ H]%app_eq_nil. by apply IH in H.
  - destruct (isEpsilon seg); [|done]. simpl. split; [intros _|done].
    by apply IH.
Qed.

Lemma url_chars_last P segments :
  Forall static_ok segments → Forall (binding_ok P) segments →
  last_ok P segments →
  last (url_chars P segments) ≠ Some "/"%char.
Proof.
  intros Hs Hb. induction segments as [|seg segments IH]; intros Hl; [done|].
  apply Forall_cons in Hs as [Hs1 Hs]. apply Forall_cons in Hb as [Hb1 Hb].
  unfold last_ok in Hl. rewrite last_segment_cons in Hl.
  rewrite url_chars_cons, last_app.
  destruct (last (url_chars P segments)) as [c|] eqn:E.
  - apply IH; [done..|]. intros name Hname. apply Hl.
    by rewrite Hname.
  - assert (url_chars P segments = []) as Hnil.
    { destruct (url_chars P segments) as [|a l] using rev_ind; [done|].
      by rewrite last_snoc in E. }
    apply last_segment_None in Hnil. rewrite Hnil in Hl.
    destruct (isEpsilon seg) eqn:Ee; [done|].
    destruct (segment_value_last P seg Ee Hs1 Hb1) as [Hne Hlast].
    { intros name ->. by apply Hl. }
    destruct (segment_value P seg) as [|a l]; [done|].
    by rewrite last_cons_cons.
Qed.

Lemma normalize_chain_url P routes :
  Forall (binding_ok P) (chain_segments routes) →
  last_ok P (chain_segments routes) →
  normalize_path (chain_url P routes) = chain_url P routes.
Proof.
  intros Hb Hl. unfold chain_url.
  destruct (forallb isEpsilon (chain_segments routes)) eqn:E; [done|].
  rewrite normalize_path_no_trailing.
  - destruct (url_chars_head P _ E) as [w ->]. done.
  - rewrite chars_str. apply url_chars_last; [|done..].
    apply chain_segments_static_ok.
Qed.

Lemma chain_url_no_query P routes :
  Forall (binding_ok P) (chain_segments routes) →
  "?"%char ∉ chars (chain_url P routes).
Proof.
  intros Hb. unfold chain_url.
  destruct (forallb isEpsilon (chain_segments routes)).
  - change (chars "/") with ["/"%char]. rewrite not_elem_of_cons.
    split; [done|apply not_elem_of_nil].
  - rewrite chars_str. by apply url_chars_no_query.
Qed.

(** *** The accepting state's regular expression on the generated URL *)

Lemma escapeRegex_plain c :
  c ≠ "^"%char → c ≠ "$"%char → escapeRegex c = RChar c.
Proof.
  intros H1 H2. unfold escapeRegex. case_bool_decide; [done|].
  by rewrite !bool_decide_eq_false_2.
Qed.

Lemma rmatch_static l rest pos input :
  "^"%char ∉ l → "$"%char ∉ l →
  rmatch ((escapeRegex <$> l) ++ rest) pos (l ++ input)
  = rmatch rest (pos + length l) input.
Proof.
  revert pos. induction l as [|c l IH]; intros pos H1 H2.
  - simpl. by rewrite Nat.add_0_r.
  - apply not_elem_of_cons in H1 as [Hc1 H1].
    apply not_elem_of_cons in H2 as [Hc2 H2].
    rewrite fmap_cons, escapeRegex_plain by done. simpl.
    rewrite bool_decide_eq_true_2 by done. rewrite IH by done.
    f_equal. lia.
Qed.

Lemma run_length_ge cls v input :
  Forall (λ a, cls a = true) v → length v ≤ run_length cls (v ++ input).
Proof.
  induction 1 as [|a v Ha Hv IH]; simpl; [lia|]. rewrite Ha. lia.
Qed.

Lemma run_length_exact cls v input :
  Forall (λ a, cls a = true) v →
  (input = [] ∨ ∃ a w, input = a :: w ∧ cls a = false) →
  run_length cls (v ++ input) = length v.
Proof.
  intros Hv Hin. induction Hv as [|a v Ha Hv IH]; simpl.
  - destruct Hin as [->|(a & w & -> & Ha)]; [done|]. simpl. by rewrite Ha.
  - rewrite Ha. by rewrite IH.
Qed.

Lemma greedy_first k n pos input e caps :
  k (pos + S n) (drop (S n) input) = Some (e, caps) →
  greedy k (S n) pos input = Some (e, str (take (S n) input) :: caps).
Proof. intros H. simpl. simpl in H. by rewrite H. Qed.

Lemma greedy_skip k n0 m pos input :
  n0 ≤ m →
  (∀ n, n0 < n ≤ m → k (pos + n) (drop n input) = None) →
  greedy k m pos input = greedy k n0 pos input.
Proof.
  intros Hle Hnone. induction m as [|m IH]; [by replace n0 with 0 by lia|].
  destruct (decide (n0 = S m)) as [->|Hne]; [done|].
  simpl. rewrite (Hnone (S m)) by lia. apply IH; [lia|].
  intros n Hn. apply Hnone. lia.
Qed.

Lemma count_slash_app a b : count_slash (a ++ b) = count_slash a + count_slash b.
Proof. unfold count_slash. by rewrite filter_app, length_app. Qed.

Lemma count_slash_cons a l :
  count_slash (a :: l)
  = (if decide (a = "/"%char) then 1 else 0) + count_slash l.
Proof.
  unfold count_slash. destruct (decide (a = "/"%char)).
  - by rewrite filter_cons_True.
  - by rewrite filter_cons_False.
Qed.

Lemma count_slash_none l : "/"%char ∉ l → count_slash l = 0.
Proof.
  induction l as [|a l IH]; [done|]. rewrite not_elem_of_cons.
  intros [Hne Hnin]. rewrite count_slash_cons, decide_False by done.
  by rewrite IH.
Qed.

Lemma count_slash_drop j l : count_slash (drop j l) ≤ count_slash l.
Proof.
  rewrite <-(take_drop j l) at 2. rewrite count_slash_app. lia.
Qed.

Lemma notSlash_not_elem l :
  Forall (λ a, notSlash a = true) l ↔ "/"%char ∉ l.
Proof.
  rewrite Forall_forall. unfold notSlash. split.
  - intros H Hin. apply H in Hin. by rewrite bool_decide_eq_true_2 in Hin.
  - intros Hnin a Ha. apply negb_true_iff, bool_decide_eq_false.
    by intros ->.
Qed.

(** The atoms of a static segment consume characters other than [/]. *)
Lemma rmatch_static_consumes l rest pos input r :
  "/"%char ∉ l →
  rmatch ((escapeRegex <$> l) ++ rest) pos input = Some r →
  ∃ u input' pos', input = u ++ input' ∧ ("/"%char ∉ u)
                   ∧ rmatch rest pos' input' = Some r.
Proof.
  revert pos input. induction l as [|c l IH]; intros pos input Hl.
  - simpl. intros H. exists [], input, pos. split; [done|].
    split; [apply not_elem_of_nil|done].
  - apply not_elem_of_cons in Hl as [Hc Hl]. rewrite fmap_cons.
    assert (escapeRegex c = RChar c ∨ escapeRegex c = RBol
            ∨ escapeRegex c = REol) as [-> | [-> | ->]].
    { unfold escapeRegex. repeat case_bool_decide; auto. }
    + simpl. destruct input as [|a input]; [done|].
      case_bool_decide as Ha; [|done]. subst a.
      intros (u & input' & pos' & -> & Hu & Hr)%IH; [|done].
      exists (c :: u), input', pos'. split; [done|].
      split; [|done]. rewrite not_elem_of_cons. split; [by intros <-|done].
    + simpl. case_bool_decide; [|done]. by apply IH.
    + simpl. destruct input as [|a input]; [|done]. by apply IH.
Qed.

Lemma pieces_cons seg segments :
  pieces (seg :: segments)
  = (if isEpsilon seg then 0 else 1) + pieces segments.
Proof. unfold pieces. simpl. by destruct (isEpsilon seg). Qed.

(** The regular expression of a segment list only matches words with at
    least one [/] per segment. *)
Lemma rmatch_slashes segments pos input r :
  Forall static_ok segments →
  rmatch (segments_regex segments ++ [REol]) pos input = Some r →
  pieces segments ≤ count_slash input.
Proof.
  revert pos input r.
  induction segments as [|seg segments IH]; intros pos input r Hs.
  - intros _. unfold pieces. simpl. lia.
  - apply Forall_cons in Hs as [Hs1 Hs].
    rewrite segments_regex_cons, pieces_cons.
    destruct seg as [s|n|n|]; simpl in *; [| | |by apply IH].
    + destruct input as [|a input]; [done|]. case_bool_decide; [|done].
      subst a. rewrite <-app_assoc.
      intros (u & input' & pos' & -> & Hu & Hr)%rmatch_static_consumes;
        [|by destruct Hs1].
      rewrite count_slash_cons, decide_True by done.
      rewrite count_slash_app, count_slash_none by done.
      simpl. apply le_n_S. by eapply IH.
    + destruct input as [|a input]; [done|]. case_bool_decide; [|done].
      subst a. destruct r as [e caps].
      intros (m & caps' & Hm & Hk & _)%greedy_Some.
      rewrite count_slash_cons, decide_True by done.
      pose proof (count_slash_drop m input).
      apply IH in Hk; [|done]. lia.
    + destruct input as [|a input]; [done|]. case_bool_decide; [|done].
      subst a. destruct r as [e caps].
      intros (m & caps' & Hm & Hk & _)%greedy_Some.
      rewrite count_slash_cons, decide_True by done.
      pose proof (count_slash_drop m input).
      apply IH in Hk; [|done]. lia.
Qed.

Lemma plain_stars_tail P seg segments :
  plain_stars P (seg :: segments) → plain_stars P segments.
Proof. intros H name Hin. apply H. by right. Qed.

Lemma plain_stars_later P segments :
  plain_stars P segments → later_stars_plain P segments.
Proof.
  induction segments as [|seg segments IH]; [done|]. intros H.
  pose proof (plain_stars_tail _ _ _ H). destruct seg; simpl; auto.
Qed.

(** With star segments bound to values without [/], the generated URL has
    one [/] per segment. *)
Lemma url_chars_slashes P segments :
  plain_stars P segments → Forall static_ok segments →
  Forall (binding_ok P) segments →
  count_slash (url_chars P segments) = pieces segments.
Proof.
  induction segments as [|seg segments IH]; intros Hstar Hs Hb; [done|].
  apply Forall_cons in Hs as [Hs1 Hs]. apply Forall_cons in Hb as [Hb1 Hb].
  rewrite url_chars_cons, pieces_cons, count_slash_app.
  rewrite IH by (done || by eapply plain_stars_tail). f_equal.
  destruct seg as [s|n|n|]; simpl in *; [| | |done].
  - rewrite count_slash_cons, decide_True by done.
    rewrite count_slash_none; [done|]. by destruct Hs1.
  - rewrite count_slash_cons, decide_True by done.
    destruct Hb1 as (_ & v & Hv & _ & _ & Hslash).
    unfold binding. rewrite Hv. simpl. by rewrite count_slash_none.
  - rewrite count_slash_cons, decide_True by done.
    rewrite count_slash_none; [done|]. apply Hstar. by left.
Qed.

Lemma url_chars_shape P segments :
  url_chars P segments = []
  ∨ ∃ w, url_chars P segments = "/"%char :: w.
Proof.
  destruct (forallb isEpsilon segments) eqn:E.
  - left. by apply url_chars_epsilon.
  - right. by apply url_chars_head.
Qed.

Lemma binding_value P n v : P !! n = Some v → binding P n = v.
Proof. unfold binding. by intros ->. Qed.

(** The regular expression of a segment list matches the URL generated from
    it, and captures the bound values in order. *)
Lemma rmatch_url P segments pos :
  later_stars_plain P segments → Forall static_ok segments →
  Forall (binding_ok P) segments →
  rmatch (segments_regex segments ++ [REol]) pos (url_chars P segments)
  = Some (pos + length (url_chars P segments),
          binding P <$> omap segment_name segments).
Proof.
  revert pos. induction segments as [|seg segments IH]; intros pos Hstar Hs Hb.
  - simpl. by rewrite Nat.add_0_r.
  - apply Forall_cons in Hs as [Hs1 Hs]. apply Forall_cons in Hb as [Hb1 Hb].
    rewrite segments_regex_cons, url_chars_cons.
    destruct seg as [s|n|n|]; simpl in Hstar; simpl isEpsilon; cbv iota.
    + (* static *)
      simpl in Hb1. destruct Hb1 as (_ & Hb1 & Hb2).
      simpl.
      rewrite <-!app_assoc, rmatch_static by done.
      rewrite IH by done. f_equal. f_equal.
      rewrite length_app. lia.
    + (* dynamic *)
      simpl in Hb1. destruct Hb1 as (_ & v & Hv & Hne & _ & Hslash).
      simpl.
      rewrite (binding_value P n v Hv).
      assert (length (chars v) ≠ 0) as Hlen.
      { intros Hl. apply Hne, chars_nil. by destruct (chars v). }
      rewrite run_length_exact.
      * destruct (length (chars v)) as [|k] eqn:Ek; [done|].
        erewrite greedy_first.
        -- rewrite <-Ek, take_app_length, str_chars. reflexivity.
        -- rewrite <-Ek, drop_app_length. rewrite IH by done.
           f_equal. f_equal. rewrite length_app. lia.
      * by apply notSlash_not_elem.
      * destruct (url_chars_shape P segments) as [->|[w ->]]; [by left|].
        right. by exists "/"%char, w.
    + (* star *)
      simpl in Hb1. destruct Hb1 as (_ & v & Hv & Hne & _ & Hlt).
      simpl.
      rewrite (binding_value P n v Hv).
      assert (length (chars v) ≠ 0) as Hlen.
      { intros Hl. apply Hne, chars_nil. by destruct (chars v). }
      rewrite (greedy_skip _ (length (chars v))).
      * destruct (length (chars v)) as [|k] eqn:Ek; [done|].
        erewrite greedy_first.
        -- rewrite <-Ek, take_app_length, str_chars. reflexivity.
        -- rewrite <-Ek, drop_app_length.
           rewrite IH by (done || by apply plain_stars_later).
           f_equal. f_equal. rewrite length_app. lia.
      * by apply run_length_ge.
      * intros j [Hj1 Hj2].
        destruct (rmatch _ _ _) as [r|] eqn:Er; [exfalso|done].
        rewrite drop_app_ge in Er by lia.
        apply rmatch_slashes in Er; [|done].
        rewrite <-(url_chars_slashes P segments) in Er by done.
        pose proof (run_length_le notLineTerminator
                      (chars v ++ url_chars P segments)) as Hrl.
        rewrite length_app in Hrl.
        destruct (url_chars_shape P segments) as [Hnil|[w Hw]].
        -- rewrite Hnil in Hrl, Hj2. simpl in Hrl. lia.
        -- rewrite Hw in Er.
           destruct (j - length (chars v)) as [|i] eqn:Ei; [lia|].
           simpl in Er. rewrite count_slash_cons, decide_True in Er by done.
           pose proof (count_slash_drop i w). lia.
    + (* epsilon *)
      simpl. by apply IH.
Qed.

Lemma segments_regex_epsilon segments :
  forallb isEpsilon segments = true → segments_regex segments = [].
Proof.
  induction segments as [|seg segments IH]; [done|]. simpl.
  intros [E1 E2]%andb_true_iff. rewrite segments_regex_cons, E1. by apply IH.
Qed.

Lemma names_epsilon segments :
  forallb isEpsilon segments = true → omap segment_name segments = [].
Proof.
  induction segments as [|seg segments IH]; [done|]. simpl.
  intros [E1 E2]%andb_true_iff. destruct seg; try done. by apply IH.
Qed.

(** [path.match(regex)] on the generated URL. *)
Lemma String_match_url P routes :
  later_stars_plain P (chain_segments routes) →
  Forall (binding_ok P) (chain_segments routes) →
  String_match (chain_url P routes) (regex (chain_accepting routes))
  = Some (chain_url P routes
          :: (binding P <$> omap segment_name (chain_segments routes))).
Proof.
  intros Hstar Hb. destruct (chain_accepting_spec routes) as [_ ->].
  unfold String_match, chain_url.
  destruct (forallb isEpsilon (chain_segments routes)) eqn:E.
  - rewrite segments_regex_epsilon, names_epsilon by done. done.
  - rewrite chars_str. simpl app.
    destruct (url_chars_head P _ E) as [w Hw].
    assert (∀ atoms input r,
              rmatch (RBol :: atoms) 0 input = Some r →
              exec_from (RBol :: atoms) 0 input
              = Some (str (take (r.1 - 0) input) :: r.2)) as Hexec.
    { intros atoms input [e caps] Hr. destruct input; simpl in *; by rewrite Hr. }
    rewrite (Hexec _ _ (0 + length (url_chars P (chain_segments routes)),
                        binding P <$> omap segment_name (chain_segments routes))).
    + simpl. rewrite Nat.sub_0_r, take_ge by lia. done.
    + simpl. apply rmatch_url; [done| |done].
      apply chain_segments_static_ok.
Qed.

(** *** Distribution of the captures *)

Lemma bind_names_values P names caps cc m :
  "__proto__" ∉ names →
  (∀ k n, names !! k = Some n → caps !! (cc + k) = Some (binding P n)) →
  ∃ m', bind_names names (Some caps) cc m = Ok (m', cc + length names)
        ∧ ∀ n, m' !! n = if decide (n ∈ names)
                         then Some (Some (binding P n)) else m !! n.
Proof.
  revert cc m. induction names as [|n0 names IH]; intros cc m Hproto Hcaps.
  - exists m. split; [simpl; by rewrite Nat.add_0_r|]. intros n.
    rewrite decide_False; [done|apply not_elem_of_nil].
  - apply not_elem_of_cons in Hproto as [Hn0 Hproto]. simpl.
    pose proof (Hcaps 0 n0 eq_refl) as H0. rewrite Nat.add_0_r in H0.
    rewrite H0. unfold assign. rewrite bool_decide_eq_false_2 by done.
    destruct (IH (S cc) (<[n0 := Some (binding P n0)]> m) Hproto)
      as (m' & -> & Hm').
    { intros k n Hk. replace (S cc + k) with (cc + S k) by lia.
      by apply Hcaps. }
    exists m'. split; [f_equal; f_equal; lia|]. intros n. rewrite Hm'.
    destruct (decide (n ∈ names)) as [Hin|Hnin].
    + rewrite decide_True; [done|by right].
    + destruct (decide (n = n0)) as [->|Hne].
      * rewrite lookup_insert_eq, decide_True; [done|by left].
      * rewrite lookup_insert_ne by done. rewrite decide_False; [done|].
        rewrite not_elem_of_cons. done.
Qed.

Lemma named_binding P segments n :
  Forall (binding_ok P) segments →
  n ∈ omap segment_name segments →
  n ≠ "__proto__" ∧ Some (binding P n) = P !! n.
Proof.
  intros Hb (seg & Hseg & Hname)%list_elem_of_omap.
  rewrite Forall_forall in Hb. specialize (Hb seg Hseg).
  destruct seg as [s|n'|n'|]; simpl in Hname; try done;
    injection Hname as ->; simpl in Hb.
  - destruct Hb as (Hn & v & Hv & _). split; [done|].
    by rewrite (binding_value P n v Hv).
  - destruct Hb as (Hn & v & Hv & _). split; [done|].
    by rewrite (binding_value P n v Hv).
Qed.

Lemma findHandler_loop_roundtrip P routes caps cc qp acc :
  Forall (binding_ok P) (chain_segments routes) →
  drop cc caps = (binding P <$> omap segment_name (chain_segments routes)) →
  ∃ res,
    findHandler_loop (chain_handlers routes) (Some caps) cc qp acc
    = Ok (acc ++ res)
    ∧ Forall2 (λ r route,
        Recognized.handler r = Route.handler route
        ∧ ∀ n, Recognized.params r !! n
               = if decide (n ∈ omap segment_name (route_segments route))
                 then Some (P !! n) else None) res routes.
Proof.
  revert cc acc. induction routes as [|route routes IH]; intros cc acc Hb Hd.
  - exists []. simpl. rewrite app_nil_r. split; [done|constructor].
  - unfold chain_segments in Hb, Hd. simpl in Hb, Hd.
    apply Forall_app in Hb as [Hb1 Hb].
    rewrite omap_app, fmap_app in Hd.
    set (ns := omap segment_name (route_segments route)) in *.
    destruct (bind_names_values P ns caps cc ∅) as (m' & Hbind & Hm').
    { intros Hin. by destruct (named_binding P _ _ Hb1 Hin). }
    { intros k n Hk. rewrite <-lookup_drop, Hd.
      rewrite lookup_app_l by (rewrite length_fmap; by eapply lookup_lt_Some).
      by rewrite list_lookup_fmap, Hk. }
    simpl. fold ns. rewrite Hbind. simpl.
    edestruct (IH (cc + length ns)) as (res & -> & Hres); [done| |].
    { rewrite <-drop_drop, Hd.
      rewrite drop_app_length'; [done|by rewrite length_fmap]. }
    eexists (_ :: res). split; [rewrite <-app_assoc; reflexivity|].
    constructor; [|done]. simpl. split; [done|]. intros n. rewrite Hm'.
    fold ns. destruct (decide (n ∈ ns)) as [Hin|Hnin]; [|by rewrite lookup_empty].
    f_equal. by destruct (named_binding P _ _ Hb1 Hin).
Qed.

Lemma solutions_of_intro h states i st acc :
  i ∈ states → h !! i = Some st → accepting st = Some acc →
  (i, acc) ∈ solutions_of h states.
Proof.
  intros Hi Hst Hacc. unfold solutions_of. apply list_elem_of_omap.
  exists i. split; [done|]. rewrite Hst. simpl. by rewrite Hacc.
Qed.


(** ** The tallies of a chain are determined by its specifications *)

Lemma parse_loop_types pieces results names ty :
  (parse_loop pieces results names ty).2 = tally (parse_segment <$> pieces) ty.
Proof.
  revert results names ty.
  induction pieces as [|piece pieces IH]; intros results names ty; [done|].
  simpl. destruct (match_marker ":" piece) as [m|] eqn:E1.
  { rewrite IH. unfold parse_segment. by rewrite E1. }
  destruct (match_marker "*" piece) as [m|] eqn:E2.
  { rewrite IH. unfold parse_segment. by rewrite E1, E2. }
  destruct (bool_decide (piece = "")) eqn:E3; rewrite IH;
    unfold parse_segment; by rewrite E1, E2, E3.
Qed.

Lemma parse_types route ty :
  (parse (Route.path route) ty).2 = tally (route_segments route) ty.
Proof.
  unfold route_segments, parse. set (pieces := split "/" _).
  rewrite parse_loop_types.
  by destruct (parse_loop_spec pieces [] [] (mkTypes 0 0 0)) as [ty0 ->].
Qed.

Lemma tally_app a b ty : tally (a ++ b) ty = tally b (tally a ty).
Proof. revert ty. induction a as [|seg a IH]; intros ty; [done|]. apply IH. Qed.

Lemma routes_data_types routes rx ty hs segs e :
  (routes_data routes rx ty hs segs e).1.1.1.2
  = tally (chain_segments routes) ty.
Proof.
  revert rx ty hs segs e.
  induction routes as [|route routes IH]; intros rx ty hs segs e; [done|].
  simpl. pose proof (parse_types route ty) as Hty.
  destruct (parse (Route.path route) ty) as [[segments ns] ty1]. simpl in Hty.
  destruct (segments_data segments rx e) as [rx' e'].
  rewrite IH, Hty. unfold chain_segments. simpl. by rewrite tally_app.
Qed.

Lemma chain_accepting_types routes :
  types (chain_accepting routes) = tally (chain_segments routes) (mkTypes 0 0 0).
Proof.
  unfold chain_accepting.
  pose proof (routes_data_types routes [RBol] (mkTypes 0 0 0) [] [] true) as H.
  by destruct (routes_data _ _ _ _ _ _) as [[[[rx ty] hs] segs] e].
Qed.

(** ** What [add] does to the states that exist *)

(** C8 (amended). Adding a chain to a built recognizer never changes the
    [charSpec] of a state that exists already and only appends to its
    [nextStates]. The accepting fields are set at one state, the one that
    the specifications of the chain lead to from the root: its [handlers]
    are the entries of the chain's routes, its [regex] is the pattern of the
    chain's segments and its [types] are their tallies - also when an
    earlier chain had set them. The accepting fields of every other state
    are left as they were, and the states that the call creates, other than
    that one, have none. *)
Theorem add_extends_states regs routes as_ :
  let h := heap (build regs) in
  let h' := heap (add (build regs) routes as_) in
  ∃ terminal st' acc,
    reach h' (chain_specs routes) terminal
    ∧ h' !! terminal = Some st'
    ∧ accepting st' = Some acc
    ∧ handlers acc = chain_handlers routes
    ∧ regex acc
      = RBol :: segments_regex (chain_segments routes)
        ++ (if forallb isEpsilon (chain_segments routes)
            then [RChar "/"%char] else []) ++ [REol]
    ∧ types acc = tally (chain_segments routes) (mkTypes 0 0 0)
    ∧ (∀ i st, h !! i = Some st →
         ∃ st', h' !! i = Some st'
                ∧ extends st st'
                ∧ (i ≠ terminal → accepting st' = accepting st))
    ∧ (∀ i st', length h ≤ i → h' !! i = Some st' → i ≠ terminal →
         accepting st' = None)
    ∧ length h ≤ length h'.
Proof.
  intros h h'. subst h'.
  destruct (build_inv regs) as (Hwf & _). fold h in Hwf.
  rewrite add_heap. fold h.
  destruct (put_all_reach (chain_specs routes) h rootState []
              Hwf (reach_root h) (emitted_chain_specs routes))
    as [Hwf1 Hr1].
  { destruct (wf_root h Hwf) as [-> _]. apply sequenced_chain_specs. }
  pose proof (put_all_le (chain_specs routes) h rootState) as Hle.
  pose proof (put_all_accepting_from (chain_specs routes) h rootState)
    as Hfrom.
  destruct (put_all h rootState (chain_specs routes)) as [h1 t].
  simpl in *. pose proof (reach_lt _ _ _ Hwf1 Hr1) as Hlt.
  destruct (lookup_lt_is_Some_2 h1 t Hlt) as [st1 Hst1].
  exists t,
    (mkState (charSpec st1) (nextStates st1) (Some (chain_accepting routes))),
    (chain_accepting routes).
  split; [by apply set_accepting_reach|]. split.
  { unfold set_accepting. by rewrite list_lookup_alter_eq, Hst1. }
  split; [done|]. destruct (chain_accepting_spec routes) as [Hh Hrx].
  split; [done|]. split; [done|]. split; [apply chain_accepting_types|].
  split; [|split].
  - intros i st Hst. destruct (Hle i st Hst) as (st2 & H2 & He & Ha).
    unfold set_accepting. destruct (decide (t = i)) as [->|Hne].
    + rewrite list_lookup_alter_eq, H2. simpl. eexists. split; [done|].
      split; [exact He|done].
    + rewrite list_lookup_alter_ne by done. exists st2. by split; [|split].
  - intros i st' Hi Hst' Hne. unfold set_accepting in Hst'.
    rewrite list_lookup_alter_ne in Hst' by done.
    destruct (accepting st') as [acc|] eqn:Ea; [|done].
    destruct (Hfrom i st' acc Hst' Ea) as (st0 & Hst0 & _).
    apply lookup_lt_Some in Hst0. lia.
  - unfold set_accepting. rewrite length_alter. by apply heap_le_length.
Qed.

Lemma tally_static segments a b c :
  tally segments (mkTypes (S a) b c)
  = mkTypes (S (statics (tally segments (mkTypes a b c))))
      (dynamics (tally segments (mkTypes a b c)))
      (stars (tally segments (mkTypes a b c))).
Proof.
  revert a b c. induction segments as [|seg segments IH]; intros a b c; [done|].
  simpl. destruct seg; simpl; by rewrite <-IH.
Qed.

Lemma tally_dynamic segments a b c :
  tally segments (mkTypes a (S b) c)
  = mkTypes (statics (tally segments (mkTypes a b c)))
      (S (dynamics (tally segments (mkTypes a b c))))
      (stars (tally segments (mkTypes a b c))).
Proof.
  revert a b c. induction segments as [|seg segments IH]; intros a b c; [done|].
  simpl. destruct seg; simpl; by rewrite <-IH.
Qed.

Lemma tally_star segments a b c :
  tally segments (mkTypes a b (S c))
  = mkTypes (statics (tally segments (mkTypes a b c)))
      (dynamics (tally segments (mkTypes a b c)))
      (S (stars (tally segments (mkTypes a b c)))).
Proof.
  revert a b c. induction segments as [|seg segments IH]; intros a b c; [done|].
  simpl. destruct seg; simpl; by rewrite <-IH.
Qed.

Lemma count_specs_app f a b :
  count_specs f (a ++ b) = count_specs f a + count_specs f b.
Proof. unfold count_specs. by rewrite List.filter_app, length_app. Qed.

Lemma count_specs_cons f cs l :
  count_specs f (cs :: l) = (if f cs then 1 else 0) + count_specs f l.
Proof. unfold count_specs. simpl. by destruct (f cs). Qed.

Lemma count_specs_static l :
  "/"%char ∉ l →
  let specs := (λ c, mkCharSpec (Some (String c "")) None false) <$> l in
  count_specs isSlashSpec specs = 0 ∧ count_specs isDynamicSpec specs = 0
  ∧ count_specs isStarSpec specs = 0.
Proof.
  induction l as [|c l IH]; [done|]. rewrite not_elem_of_cons.
  intros [Hc Hl]. cbv zeta. rewrite fmap_cons, !count_specs_cons.
  destruct (IH Hl) as (-> & -> & ->).
  unfold isSlashSpec, isDynamicSpec, isStarSpec. simpl.
  rewrite bool_decide_eq_false_2; [done|]. intros [= ->]. done.
Qed.

(** The counts of the specifications of a segment list. *)
Lemma segments_specs_counts segments :
  Forall static_ok segments →
  let specs := segments_specs segments in
  let ty := tally segments (mkTypes 0 0 0) in
  count_specs isSlashSpec specs = statics ty + dynamics ty + stars ty
  ∧ count_specs isDynamicSpec specs = dynamics ty
  ∧ count_specs isStarSpec specs = stars ty
  ∧ length specs ≠ 1
  ∧ (forallb isEpsilon segments = true → ty = mkTypes 0 0 0).
Proof.
  induction 1 as [|seg segments Hseg Hall IH]; [done|].
  rewrite segments_specs_cons. simpl in IH.
  destruct IH as (IH1 & IH2 & IH3 & IH4 & IH5).
  destruct seg as [s|n|n|]; simpl.
  - rewrite (tally_static segments 0 0 0). simpl.
    destruct Hseg as [Hne Hslash].
    destruct (count_specs_static (chars s) Hslash) as (H1 & H2 & H3).
    rewrite !count_specs_cons, !count_specs_app, H1, H2, H3, IH1, IH2, IH3.
    split; [simpl; lia|]. split; [done|]. split; [done|]. split; [|done].
    rewrite length_app, length_fmap.
    destruct (chars s) eqn:E; [by apply chars_nil in E|]. simpl. lia.
  - rewrite (tally_dynamic segments 0 0 0). simpl.
    rewrite !count_specs_cons, IH1, IH2, IH3. simpl.
    split; [lia|]. split; [done|]. split; [done|]. split; [lia|done].
  - rewrite (tally_star segments 0 0 0). simpl.
    rewrite !count_specs_cons, IH1, IH2, IH3. simpl.
    split; [lia|]. split; [done|]. split; [done|]. split; [lia|done].
  - done.
Qed.

Lemma chain_types_specs routes :
  types (chain_accepting routes) = specs_types (chain_specs routes).
Proof.
  rewrite chain_accepting_types. unfold chain_specs, specs_types.
  destruct (segments_specs_counts (chain_segments routes)
              (chain_segments_static_ok routes)) as (H1 & H2 & H3 & H4 & H5).
  destruct (forallb isEpsilon (chain_segments routes)) eqn:E.
  - rewrite segments_specs_epsilon by done. by rewrite H5.
  - rewrite app_nil_r, H1, H2, H3.
    destruct (length _ =? 1) eqn:El; [by apply Nat.eqb_eq in El|].
    destruct (tally _ _) as [a b c]. simpl. f_equal. lia.
Qed.

Lemma binding_ok_own P segments :
  Forall (binding_ok P) segments → own_names P segments.
Proof.
  intros Hb seg name Hseg Hname. rewrite Forall_forall in Hb.
  specialize (Hb seg Hseg). left.
  destruct seg as [s|n|n|]; simpl in *; try done; injection Hname as ->;
    destruct Hb as (_ & v & Hv & _); by exists v.
Qed.

Section RoundTrip.

Variable inheritedText : string → string.
Variable encodeURIComponent : string → result string.
Variable decodeURIComponent : string → result string.

(** C1 (amended). Let a chain be registered under a name, not registered
    anew under that name later, with static segments free of [?], [^] and
    [$]; let P be an object of strings without a property [queryParams]
    that binds every dynamic and star segment name (none of them
    [__proto__]) to a non-empty string without [?], without [/] for a
    dynamic segment and for every star segment after the first one, without
    line terminator for a star segment, and not ending in [/] for a star
    segment that ends the chain. Then [generate] returns a URL, and if every
    other registered chain whose pattern matches that URL ranks strictly
    after this one, [recognize] on the URL returns the chain's handlers in
    order, each with exactly the bindings of P for the names of its own
    route. *)
Theorem generate_recognize_roundtrip before routes name after P :
  name ≠ "" →
  (∀ routes', (routes', Some name) ∉ after) →
  P !! "queryParams" = None →
  Forall (binding_ok P) (chain_segments routes) →
  later_stars_plain P (chain_segments routes) →
  last_ok P (chain_segments routes) →
  (∀ reg, reg ∈ before ++ after →
     pattern_matches reg.1 (chain_url P routes) →
     ¬ ranks_before (types (chain_accepting reg.1))
         (types (chain_accepting routes))) →
  let this := build (before ++ (routes, Some name) :: after) in
  ∃ url res,
    generate inheritedText encodeURIComponent this name (Some (strings P))
    = Ok url
    ∧ recognize decodeURIComponent this url = Ok (Some res)
    ∧ Forall2 (λ r route,
        Recognized.handler r = Route.handler route
        ∧ ∀ n, Recognized.params r !! n
               = if decide (n ∈ omap segment_name (route_segments route))
                 then Some (P !! n) else None) res routes.
Proof.
  intros Hname Hlast Hq Hb Hstar Hend Hother this.
  set (regs := before ++ (routes, Some name) :: after) in *.
  set (url := chain_url P routes) in *.
  destruct (findHandler_loop_roundtrip P routes
              (url :: (binding P <$> omap segment_name (chain_segments routes)))
              1 ∅ [] Hb eq_refl) as (res & Hfind & Hres).
  exists url, res.
  split; [apply generate_chain_url; [done..|by apply binding_ok_own]|].
  split; [|done].
  rewrite recognize_no_query by (by apply chain_url_no_query).
  assert (normalize_path url = url) as Hnorm by (by apply normalize_chain_url).
  destruct (build_inv regs) as (Hwf & _ & Hreg).
  destruct (Hreg routes (Some name)) as (t & st & acc & Hr & Hst & Hacc).
  { subst regs. apply elem_of_app. right. by left. }
  assert ((t, acc) ∈ candidates this url) as Hcand.
  { unfold candidates. rewrite Hnorm, recognize_loop_run.
    eapply solutions_of_intro; [|done..].
    eapply run_complete; [done..|].
    apply lang_chain_specs. by apply pattern_matches_url. }
  assert (∀ routes' as', (routes', as') ∈ regs →
            pattern_matches routes' url →
            ranks_before (types (chain_accepting routes'))
              (types (chain_accepting routes)) →
            routes' = routes) as Hsame.
  { intros routes' as' Hin Hm Hrank. subst regs.
    apply elem_of_app in Hin as [Hin|Hin].
    - exfalso. apply (Hother (routes', as')); [|done..].
      apply elem_of_app. by left.
    - apply elem_of_cons in Hin as [[= -> _]|Hin]; [done|].
      exfalso. apply (Hother (routes', as')); [|done..].
      apply elem_of_app. by right. }
  assert (types acc = types (chain_accepting routes)) as Htypes.
  { pose proof Hcand as Hc.
    apply candidates_elem in Hc as (routes' & as' & Hin & -> & Hr' & Hm).
    rewrite !chain_types_specs.
    by rewrite (reach_unique_specs _ _ _ _ Hwf Hr Hr'). }
  destruct (recognize_path_winner this url ∅) as ([i acc'] & Hw & -> & Hmin).
  { intros Hnil. rewrite Hnil in Hcand. by apply elem_of_nil in Hcand. }
  specialize (Hmin (t, acc) Hcand). simpl in Hmin. rewrite Htypes in Hmin.
  apply candidates_elem in Hw as (routes' & as' & Hin & -> & _ & Hm).
  rewrite Hnorm in Hm |- *.
  assert (routes' = routes) as -> by (by eapply Hsame).
  simpl. unfold findHandler.
  destruct (chain_accepting_spec routes) as [-> _].
  subst url. rewrite String_match_url by done. rewrite Hfind. done.
Qed.

End RoundTrip.

(** * Closed examples *)

Lemma not_elem_of_chars (c : ascii) (s : string) :
  bool_decide (c ∈ chars s) = false → c ∉ chars s.
Proof. apply bool_decide_eq_false_1. Qed.

Lemma chain_segments_posts_id :
  chain_segments posts_id = [StaticSegment "posts"; DynamicSegment "id"].
Proof. reflexivity. Qed.

Lemma chain_segments_posts_new :
  chain_segments posts_new = [StaticSegment "posts"; StaticSegment "new"].
Proof. reflexivity. Qed.

Lemma chain_segments_search :
  chain_segments search = [StaticSegment "search"].
Proof. reflexivity. Qed.

(** C1 (counterexample). With [/posts/:id] and [/posts/new] registered, the
    binding [id = "new"] generates [/posts/new], which is recognized as the
    static route; and the binding [id = "a/b"] generates [/posts/a/b],
    which no route recognizes. With the route [/:queryParams], the binding
    of that name is also read as the query params: a string, enumerated
    index by index, whose first index [0] no handler declares. *)
Lemma roundtrip_lost :
  generate v8_inheritedText latin1_encodeURIComponent (build blog) "post"
    (Some (strings {["id" := "new"]})) = Ok "/posts/new"
  ∧ recognize latin1_decodeURIComponent (build blog) "/posts/new"
    = Ok (Some [Recognized.mk "newPost" ∅ false None])
  ∧ generate v8_inheritedText latin1_encodeURIComponent (build blog) "post"
      (Some (strings {["id" := "a/b"]})) = Ok "/posts/a/b"
  ∧ recognize latin1_decodeURIComponent (build blog) "/posts/a/b" = Ok None
  ∧ generate v8_inheritedText latin1_encodeURIComponent
      (build [([Route.mk "/:queryParams" "q" None], Some "q")]) "q"
      (Some (strings {["queryParams" := "x"]}))
    = Throw (UnknownQueryParam "0").
Proof. by vm_compute. Qed.

(** Two star segments: the values come back when the second has no [/],
    and are split differently when it has one. *)
Lemma two_stars_roundtrip :
  let this := build [([Route.mk "/*dir/*file" "file" None], Some "file")] in
  generate v8_inheritedText latin1_encodeURIComponent this "file"
    (Some (strings {["dir" := "a/b"; "file" := "c"]})) = Ok "/a/b/c"
  ∧ generate v8_inheritedText latin1_encodeURIComponent this "file"
      (Some (strings {["dir" := "a"; "file" := "b/c"]})) = Ok "/a/b/c"
  ∧ recognize latin1_decodeURIComponent this "/a/b/c"
    = Ok (Some [Recognized.mk "file"
                  {["dir" := Some "a/b"; "file" := Some "c"]} true None]).
Proof. by vm_compute. Qed.

Lemma search_no_match_new : ¬ pattern_matches search "/posts/new".
Proof.
  unfold pattern_matches. rewrite chain_segments_search. simpl.
  intros (text & w & Hw & -> & ->). done.
Qed.

Lemma posts_new_no_match_12 : ¬ pattern_matches posts_new "/posts/12".
Proof.
  unfold pattern_matches. rewrite chain_segments_posts_new. simpl.
  intros (text & w & Hw & -> & text' & w' & -> & -> & ->). done.
Qed.

Lemma search_no_match_12 : ¬ pattern_matches search "/posts/12".
Proof.
  unfold pattern_matches. rewrite chain_segments_search. simpl.
  intros (text & w & Hw & -> & ->). done.
Qed.

Lemma generate_recognize_roundtrip_witness :
  ∃ url res,
    generate v8_inheritedText latin1_encodeURIComponent (build blog) "post"
      (Some (strings {["id" := "12"]})) = Ok url
    ∧ recognize latin1_decodeURIComponent (build blog) url = Ok (Some res)
    ∧ Forall2 (λ r route,
        Recognized.handler r = Route.handler route
        ∧ ∀ n, Recognized.params r !! n
               = if decide (n ∈ omap segment_name (route_segments route))
                 then Some (({["id" := "12"]} : gmap string string) !! n)
                 else None) res posts_id.
Proof.
  apply (generate_recognize_roundtrip v8_inheritedText
           latin1_encodeURIComponent latin1_decodeURIComponent
           [] posts_id "post"
           [(posts_new, Some "newPost"); (search, Some "search")]
           {["id" := "12"]}).
  - done.
  - intros routes' Hin.
    repeat (apply elem_of_cons in Hin as [Hin|Hin]; [done|]).
    by apply elem_of_nil in Hin.
  - reflexivity.
  - rewrite chain_segments_posts_id.
    constructor; [repeat split; by apply not_elem_of_chars|].
    constructor; [|constructor].
    split; [done|]. exists "12". split; [reflexivity|].
    split; [done|]. split; by apply not_elem_of_chars.
  - by rewrite chain_segments_posts_id.
  - intros n Hn. rewrite chain_segments_posts_id in Hn. done.
  - intros reg Hin Hm. simpl in Hin.
    change (chain_url {["id" := "12"]} posts_id) with "/posts/12" in Hm.
    apply elem_of_cons in Hin as [->|Hin].
    + by apply posts_new_no_match_12 in Hm.
    + apply list_elem_of_singleton in Hin as ->.
      by apply search_no_match_12 in Hm.
Defined.

Lemma posts_id_no_match_about : ¬ pattern_matches posts_id "/about".
Proof.
  unfold pattern_matches. rewrite chain_segments_posts_id. simpl.
  intros (text & w & Hw & -> & _). done.
Qed.

Lemma posts_new_no_match_about : ¬ pattern_matches posts_new "/about".
Proof.
  unfold pattern_matches. rewrite chain_segments_posts_new. simpl.
  intros (text & w & Hw & -> & _). done.
Qed.

Lemma search_no_match_about : ¬ pattern_matches search "/about".
Proof.
  unfold pattern_matches. rewrite chain_segments_search. simpl.
  intros (text & w & Hw & -> & _). done.
Qed.

Lemma unmatched_about : unmatched blog "about/".
Proof.
  intros routes as_ Hin. change (normalize_path "about/") with "/about".
  unfold blog in Hin.
  apply elem_of_cons in Hin as [[= -> _]|Hin]; [apply posts_id_no_match_about|].
  apply elem_of_cons in Hin as [[= -> _]|Hin]; [apply posts_new_no_match_about|].
  apply list_elem_of_singleton in Hin as [= -> _]. apply search_no_match_about.
Qed.

(** C3 (counterexample). The path [/about] matches no registered pattern,
    and [recognize] throws on [/about?%]: the query string parser hands the
    malformed escape to [decodeURIComponent], which raises a URIError. *)
Lemma recognize_throws_on_malformed_query :
  unmatched blog "/about"
  ∧ recognize latin1_decodeURIComponent (build blog) "/about?%" = Throw URIError.
Proof.
  split; [|by vm_compute].
  intros routes as_ Hin. apply (unmatched_about routes as_ Hin).
Qed.

Lemma unmatched_path_is_undefined_witness :
  recognize latin1_decodeURIComponent (build blog) "about/" = Ok None
  ∧ recognize latin1_decodeURIComponent (build blog) "about/?page=2" = Ok None.
Proof.
  destruct (unmatched_path_is_undefined latin1_decodeURIComponent blog)
    as (H1 & _ & H3).
  split.
  - apply H1; [by apply not_elem_of_chars|apply unmatched_about].
  - apply (H3 "about/" "page=2" {["page" := QString "2"]});
      [by apply not_elem_of_chars|apply unmatched_about|reflexivity].
Defined.



(** The query string of [/search?q=a%20b&exact&q=c] as [recognize] reads
    it: the later pair of [q] decides, and [exact] is a flag. *)
Lemma recognize_query_example :
  parseQueryString latin1_decodeURIComponent "q=a%20b&exact&q=c"
  = Ok {["q" := QString "c"; "exact" := QTrue]}
  ∧ parseQueryString latin1_decodeURIComponent "q=a%20b"
    = Ok {["q" := QString "a b"]}
  ∧ parseQueryString latin1_decodeURIComponent "q=%" = Throw URIError
  ∧ recognize latin1_decodeURIComponent (build blog)
      "/search?q=a%20b&exact&q=c"
    = Ok (Some [Recognized.mk "search" ∅ false
                  (Some {["q" := AValue (QString "c");
                          "exact" := AValue QTrue]})]).
Proof. repeat split; by vm_compute. Qed.

Lemma generate_appends_query_string_witness :
  generate v8_inheritedText latin1_encodeURIComponent (build blog) "search"
    (Some (with_query ∅ [("q", QString "a b"); ("exact", QTrue)]))
  = Ok "/search?q=a%20b&exact"
  ∧ generate v8_inheritedText latin1_encodeURIComponent (build blog) "search"
      (Some (with_query ∅ [("q", QString "a b"); ("page", QString "2")]))
    = Throw (UnknownQueryParam "page")
  ∧ generate v8_inheritedText latin1_encodeURIComponent (build blog) "search"
      (Some (with_query ∅ [("q", QString "a b"); ("hasOwnProperty", QTrue)]))
    = Throw TypeError.
Proof.
  pose (route := NamedRoute.mk (chain_segments search) (chain_handlers search)).
  assert (declared (NamedRoute.handlers route) "q") as Hq.
  { exists (Handler.mk "search" [] (Some ["q"; "exact"])), ["q"; "exact"].
    split; [by left|]. split; [done|by left]. }
  assert (declared (NamedRoute.handlers route) "exact") as He.
  { exists (Handler.mk "search" [] (Some ["q"; "exact"])), ["q"; "exact"].
    split; [by left|]. split; [done|]. right. by left. }
  assert (rendered latin1_encodeURIComponent ("q", QString "a b") "q=a%20b")
    as Hrq.
  { exists "q". split; [done|]. by exists "a%20b". }
  split; [|split].
  - destruct (generate_appends_query_string v8_inheritedText
                latin1_encodeURIComponent
                (build blog) "search" route ∅
                [("q", QString "a b"); ("exact", QTrue)] "/search"
                eq_refl eq_refl) as (H1 & _).
    apply H1. split; [by apply (bool_decide_unpack _)|].
    split; [by repeat constructor|].
    exists ["q=a%20b"; "exact"]. split; [|done].
    repeat constructor; [done|]. by exists "exact".
  - destruct (generate_appends_query_string v8_inheritedText
                latin1_encodeURIComponent
                (build blog) "search" route ∅
                [("q", QString "a b"); ("page", QString "2")] "/search"
                eq_refl eq_refl) as (_ & _ & H3 & _).
    apply (H3 [("q", QString "a b")] "page" (QString "2") [] ["q=a%20b"]).
    + done.
    + by apply (bool_decide_unpack _).
    + by repeat constructor.
    + by repeat constructor.
    + intros (hd & l & Hhd & Hl & Hin).
      apply list_elem_of_singleton in Hhd as ->. injection Hl as <-.
      repeat (apply elem_of_cons in Hin as [Hin|Hin]; [done|]).
      by apply elem_of_nil in Hin.
  - destruct (generate_appends_query_string v8_inheritedText
                latin1_encodeURIComponent
                (build blog) "search" route ∅
                [("q", QString "a b"); ("hasOwnProperty", QTrue)] "/search"
                eq_refl eq_refl) as (_ & _ & _ & H4).
    apply H4. by apply (bool_decide_unpack _).
Defined.

(** C8 (counterexample). The accepting state of [/a] has its accepting
    fields set a second time when [/a] is registered again, and its
    [nextStates] changed when [/a/b] is registered. *)
Lemma accepting_fields_set_again :
  let h1 := heap (build [([Route.mk "/a" "h1" None], None)]) in
  let h2 := heap (build [([Route.mk "/a" "h1" None], None);
                         ([Route.mk "/a" "h2" None], None)]) in
  let h3 := heap (build [([Route.mk "/a" "h1" None], None);
                         ([Route.mk "/a/b" "h3" None], None)]) in
  (handlers <$> (h1 !! 2 ≫= accepting))
  = Some [Handler.mk "h1" [] None]
  ∧ (handlers <$> (h2 !! 2 ≫= accepting))
    = Some [Handler.mk "h2" [] None]
  ∧ (nextStates <$> h1 !! 2) = Some []
  ∧ (nextStates <$> h3 !! 2) = Some [3].
Proof. by vm_compute. Qed.

Lemma add_extends_states_witness :
  let h := heap (build blog) in
  let h' := heap (add (build blog) files (Some "files")) in
  ∃ terminal st' acc,
    reach h' (chain_specs files) terminal
    ∧ h' !! terminal = Some st'
    ∧ accepting st' = Some acc
    ∧ handlers acc = chain_handlers files
    ∧ regex acc
      = RBol :: segments_regex (chain_segments files)
        ++ (if forallb isEpsilon (chain_segments files)
            then [RChar "/"%char] else []) ++ [REol]
    ∧ types acc = tally (chain_segments files) (mkTypes 0 0 0)
    ∧ (∀ i st, h !! i = Some st →
         ∃ st', h' !! i = Some st'
                ∧ extends st st'
                ∧ (i ≠ terminal → accepting st' = accepting st))
    ∧ (∀ i st', length h ≤ i → h' !! i = Some st' → i ≠ terminal →
         accepting st' = None)
    ∧ length h ≤ length h'.
Proof. exact (add_extends_states blog files (Some "files")). Defined.

(** Registering [/files/*path] on [blog] makes seven states; the last one
    is the accepting state of the chain. *)
Lemma add_files_example :
  let h := heap (build blog) in
  let h' := heap (add (build blog) files (Some "files")) in
  length h = 18 ∧ length h' = 25
  ∧ (accepting <$> h' !! 24)
    = Some (Some (mkAccepting [Handler.mk "files" ["path"] None]
                    [RBol; RChar "/"; RChar "f"; RChar "i"; RChar "l";
                     RChar "e"; RChar "s"; RChar "/"; RStar; REol]
                    (mkTypes 1 0 1)))
  ∧ Forall (λ st, accepting st = None) (take 6 (drop 18 h')).
Proof. repeat split; try by vm_compute. vm_compute. by repeat constructor. Qed.

Lemma recognized_params_nonempty_witness :
  ∃ routes as_, (routes, as_) ∈ blog ∧
    Forall2 (λ r route,
      Recognized.handler r = Route.handler route
      ∧ ∀ name v, Recognized.params r !! name = Some v →
          ∃ s, v = Some s ∧ s ≠ ""
               ∧ (DynamicSegment name ∈ route_segments route
                  ∨ StarSegment name ∈ route_segments route)
               ∧ ("/"%char ∈ chars s →
                  StarSegment name ∈ route_segments route))
      [Recognized.mk "post" {["id" := Some "12"]} true None] routes.
Proof.
  apply (recognized_params_nonempty latin1_decodeURIComponent blog "/posts/12").
  reflexivity.
Defined.

(** ** Looking up a registered name *)

(** X1. For a name under which a chain was registered, and not registered
    anew later, [handlersFor] returns one entry per route of that chain, in
    order: the route's handler, the names of the dynamic and star segments
    of its own path, and its query params. *)
Theorem handlersFor_registered before routes name after :
  name ≠ "" → (∀ routes', (routes', Some name) ∉ after) →
  ∃ hs,
    handlersFor (build (before ++ (routes, Some name) :: after)) name = Ok hs
    ∧ Forall2 (λ h route,
        Handler.handler h = Route.handler route
        ∧ Handler.names h = omap segment_name (route_segments route)
        ∧ Handler.queryParams h = Route.queryParams route) hs routes.
Proof.
  intros Hname Hno. exists (chain_handlers routes). split.
  - unfold handlersFor, names_get. by rewrite build_names_last.
  - unfold chain_handlers. apply Forall2_fmap_l, Forall2_same_length_lookup.
    split; [done|]. intros i x y Hx Hy. rewrite Hx in Hy.
    injection Hy as <-. done.
Qed.

Section GenerateEdges.

Variable inheritedText : string → string.
Variable encodeURIComponent : string → result string.

Lemma generate_loop_None segments output :
  generate_loop inheritedText segments None output
  = if bool_decide (named segments = [])
    then Ok (output +:+ str (url_chars ∅ segments))
    else Throw TypeError.
Proof.
  revert output. induction segments as [|seg segments IH]; intros output.
  - simpl. f_equal. apply chars_inj. by rewrite chars_app, app_nil_r.
  - destruct seg as [s|n|n|].
    + rewrite named_cons_unnamed by done. rewrite url_chars_cons.
      simpl. rewrite IH.
      case_bool_decide; [|done]. f_equal.
      apply chars_inj. rewrite !chars_app, !chars_str.
      change (chars "/") with ["/"%char].
      rewrite (chars_cons "/"%char (str (chars s ++ url_chars ∅ segments))).
      rewrite chars_str. by rewrite <-!app_assoc.
    + by rewrite named_cons_named by (by eexists).
    + by rewrite named_cons_named by (by eexists).
    + rewrite named_cons_unnamed by done. rewrite url_chars_cons.
      simpl. by rewrite IH.
Qed.

(** X2. For a registered name, [generate] with a params object of strings
    that has no property [queryParams] never throws: it returns the chain's
    URL, which starts with [/]; a dynamic or star segment whose name the
    params lack is rendered as the text of the member that the params
    inherit from [Object.prototype] under that name, and as the text
    [undefined] if there is none. Without a params object, [generate]
    returns the URL if the chain has no dynamic or star segment, and throws
    a [TypeError] otherwise. *)
Theorem generate_missing_params before routes name after :
  name ≠ "" → (∀ routes', (routes', Some name) ∉ after) →
  let this := build (before ++ (routes, Some name) :: after) in
  let found P := P ∪ inherited inheritedText in
  (∀ P, P !! "queryParams" = None →
     generate inheritedText encodeURIComponent this name (Some (strings P))
     = Ok (chain_url (found P) routes))
  ∧ (∀ P n, binding (found P) n
            = match P !! n with
              | Some v => v
              | None => if bool_decide (n ∈ ObjectPrototype)
                        then inheritedText n else "undefined"
              end)
  ∧ (∀ P, ∃ rest, chain_url P routes = String "/" rest)
  ∧ generate inheritedText encodeURIComponent this name None
    = if bool_decide (omap segment_name (chain_segments routes) = [])
      then Ok (chain_url ∅ routes) else Throw TypeError.
Proof.
  intros Hname Hno this found. split; [|split; [|split]].
  - intros P HP. by apply generate_chain_url_inherited.
  - intros P n. apply binding_inherited.
  - intros P. unfold chain_url.
    destruct (forallb isEpsilon (chain_segments routes)) eqn:E; [by eexists|].
    destruct (url_chars_head P _ E) as [w ->]. by eexists.
  - unfold generate, names_get. subst this.
    rewrite build_names_last by done. simpl.
    rewrite generate_loop_None.
    assert (named (chain_segments routes) = []
            ↔ omap segment_name (chain_segments routes) = []) as Hiff.
    { rewrite <-!length_zero_iff_nil. by rewrite named_length. }
    rewrite (bool_decide_ext _ _ Hiff).
    case_bool_decide; [|done]. simpl. unfold chain_url.
    destruct (forallb isEpsilon (chain_segments routes)) eqn:E.
    + by rewrite url_chars_epsilon.
    + destruct (url_chars_head ∅ _ E) as [w ->].
      by rewrite bool_decide_eq_true_2.
Qed.

End GenerateEdges.

Lemma handlersFor_registered_witness :
  ∃ hs,
    handlersFor (build blog) "post" = Ok hs
    ∧ Forall2 (λ h route,
        Handler.handler h = Route.handler route
        ∧ Handler.names h = omap segment_name (route_segments route)
        ∧ Handler.queryParams h = Route.queryParams route) hs posts_id.
Proof.
  apply (handlersFor_registered [] posts_id "post"
           [(posts_new, Some "newPost"); (search, Some "search")]).
  - done.
  - intros routes' Hin.
    apply elem_of_cons in Hin as [Hin|Hin]; [done|].
    by apply list_elem_of_singleton in Hin.
Defined.

Lemma generate_missing_params_witness :
  let found P := P ∪ inherited v8_inheritedText in
  (∀ P, P !! "queryParams" = None →
     generate v8_inheritedText latin1_encodeURIComponent (build blog) "post"
       (Some (strings P)) = Ok (chain_url (found P) posts_id))
  ∧ (∀ P n, binding (found P) n
            = match P !! n with
              | Some v => v
              | None => if bool_decide (n ∈ ObjectPrototype)
                        then v8_inheritedText n else "undefined"
              end)
  ∧ (∀ P, ∃ rest, chain_url P posts_id = String "/" rest)
  ∧ generate v8_inheritedText latin1_encodeURIComponent (build blog) "post"
      None
    = if bool_decide (omap segment_name (chain_segments posts_id) = [])
      then Ok (chain_url ∅ posts_id) else Throw TypeError.
Proof.
  apply (generate_missing_params v8_inheritedText latin1_encodeURIComponent
           [] posts_id "post"
           [(posts_new, Some "newPost"); (search, Some "search")]).
  - done.
  - intros routes' Hin.
    apply elem_of_cons in Hin as [Hin|Hin]; [done|].
    by apply list_elem_of_singleton in Hin.
Defined.

(** With the route [/:constructor] and no binding of that name, the
    segment is rendered as the text of the inherited member. *)
Lemma generate_inherited_member :
  generate v8_inheritedText latin1_encodeURIComponent
    (build [([Route.mk "/:constructor" "c" None], Some "c")]) "c"
    (Some (strings ∅))
  = Ok "/function Object() { [native code] }"
  ∧ generate v8_inheritedText latin1_encodeURIComponent (build blog) "post"
      (Some (strings ∅)) = Ok "/posts/undefined".
Proof. by vm_compute. Qed.

(** ** Which registration [recognize] dispatches to *)

Lemma registration_candidate regs routes as_ path :
  (routes, as_) ∈ regs → pattern_matches routes (normalize_path path) →
  ∃ t acc, (t, acc) ∈ candidates (build regs) path
           ∧ types acc = types (chain_accepting routes).
Proof.
  intros Hin Hm.
  destruct (build_inv regs) as (Hwf & _ & Hreg).
  destruct (Hreg routes as_ Hin) as (t & st & acc & Hr & Hst & Hacc).
  assert ((t, acc) ∈ candidates (build regs) path) as Hcand.
  { unfold candidates. rewrite recognize_loop_run.
    eapply solutions_of_intro; [|done..].
    eapply run_complete; [done..|]. by apply lang_chain_specs. }
  exists t, acc. split; [done|].
  apply candidates_elem in Hcand as (routes' & as' & _ & -> & Hr' & _).
  rewrite !chain_types_specs.
  by rewrite (reach_unique_specs _ _ _ _ Hwf Hr Hr').
Qed.

Lemma recognize_path_head this path :
  candidates this path ≠ [] →
  ∃ winner, winner ∈ candidates this path
    ∧ (∀ c, c ∈ candidates this path →
         ranks_before (types winner.2) (types c.2))
    ∧ ∀ qp, recognize_path this path qp
            = (r ←! findHandler winner.2 (normalize_path path) qp;
               Ok (Some r)).
Proof.
  intros Hne.
  destruct (sortSolutions (candidates this path)) as [|[i w] rest] eqn:Hs.
  - exfalso. apply Hne. apply Permutation_nil_r.
    by rewrite <-Hs, sortSolutions_Permutation.
  - pose proof Hs as Hs'. apply sortSolutions_head in Hs' as [Hin Hmin].
    exists (i, w). split; [done|]. split; [done|].
    intros qp. unfold recognize_path. fold (candidates this path).
    by rewrite Hs.
Qed.

Section Dispatch.

Variable decodeURIComponent : string → result string.

(** X3. If the pattern of some registered chain matches a path, [recognize]
    does not return [undefined]: it hands the path to [findHandler] with the
    accepting fields of a registered chain whose pattern matches and which
    no other matching chain outranks (fewer stars, then fewer dynamic, then
    more static segments); the query string does not change which chain
    that is. *)
Theorem recognize_dispatches regs p :
  "?"%char ∉ chars p →
  (∃ reg, reg ∈ regs ∧ pattern_matches reg.1 (normalize_path p)) →
  ∃ routes as_,
    (routes, as_) ∈ regs
    ∧ pattern_matches routes (normalize_path p)
    ∧ (∀ reg, reg ∈ regs → pattern_matches reg.1 (normalize_path p) →
         ranks_before (types (chain_accepting routes))
           (types (chain_accepting reg.1)))
    ∧ recognize decodeURIComponent (build regs) p
      = (r ←! findHandler (chain_accepting routes) (normalize_path p) ∅;
         Ok (Some r))
    ∧ ∀ q qp, parseQueryString decodeURIComponent q = Ok qp →
        recognize decodeURIComponent (build regs) (p +:+ String "?" q)
        = (r ←! findHandler (chain_accepting routes) (normalize_path p) qp;
           Ok (Some r)).
Proof.
  intros Hq ([routes0 as0] & Hin0 & Hm0).
  destruct (registration_candidate regs routes0 as0 p Hin0 Hm0)
    as (t0 & acc0 & Hc0 & _).
  destruct (recognize_path_head (build regs) p) as ([i w] & Hw & Hmin & Hrec).
  { intros Hnil. rewrite Hnil in Hc0. by apply elem_of_nil in Hc0. }
  apply candidates_elem in Hw as (routes & as_ & Hin & -> & _ & Hm).
  exists routes, as_. split; [done|]. split; [done|]. split; [|split].
  - intros [r a] Hr Hmr.
    destruct (registration_candidate regs r a p Hr Hmr) as (t & acc & Hc & Ht).
    simpl. rewrite <-Ht. apply (Hmin (t, acc) Hc).
  - rewrite recognize_no_query by done. apply Hrec.
  - intros q qp Hparse. rewrite recognize_query by done.
    rewrite Hparse. apply Hrec.
Qed.

End Dispatch.

(** ** The flags and query params of a recognized handler *)

Lemma watched_value_spec qp key a :
  watched_value qp key = Some a ↔
  (∃ v, a = AValue v ∧ qp !! key = Some v ∧ truthy (Some v) = true)
  ∨ (a = AInherited ∧ qp !! key = None ∧ key ∈ ObjectPrototype).
Proof.
  unfold watched_value. destruct (qp !! key) as [v|].
  - destruct (truthy (Some v)) eqn:Et; split.
    + intros [= <-]. left. by exists v.
    + intros [(v' & -> & [= <-] & _)|(_ & ? & _)]; done.
    + done.
    + intros [(v' & -> & [= <-] & ?)|(_ & ? & _)]; congruence.
  - case_bool_decide; split.
    + intros [= <-]. by right.
    + intros [(v' & _ & ? & _)|(-> & _)]; done.
    + done.
    + intros [(v' & _ & ? & _)|(_ & _ & ?)]; done.
Qed.

Lemma watch_unfold w watched qp acc :
  watch (w :: watched) qp acc
  = watch watched qp match watched_value qp w with
                     | Some a => assign acc w a
                     | None => acc
                     end.
Proof.
  cbn [watch]. unfold watched_value. f_equal.
  destruct (qp !! w) as [v|]; [by destruct (truthy (Some v))|].
  by case_bool_decide.
Qed.

Lemma watch_step (qp : gmap string QueryValue)
    (acc : gmap string ActiveValue) w key a :
  (∀ k x, acc !! k = Some x → watched_value qp k = Some x) →
  match watched_value qp w with
  | Some x => assign acc w x
  | None => acc
  end !! key = Some a ↔
  acc !! key = Some a
  ∨ (key = w ∧ key ≠ "__proto__" ∧ watched_value qp key = Some a).
Proof.
  intros Hacc. destruct (watched_value qp w) as [x|] eqn:Ew.
  - unfold assign. case_bool_decide as Hp.
    + split; [by left|]. intros [?|(-> & ? & _)]; done.
    + destruct (decide (w = key)) as [->|Hne].
      * rewrite lookup_insert_eq. split.
        -- intros [= ->]. by right.
        -- intros [Ha|(_ & _ & Hv)]; [apply Hacc in Ha|]; congruence.
      * rewrite lookup_insert_ne by done. split; [by left|].
        intros [?|(-> & _)]; done.
  - split; [by left|]. intros [?|(-> & _ & Hv)]; [done|]. congruence.
Qed.

Lemma watch_spec watched qp acc key a :
  (∀ k x, acc !! k = Some x → watched_value qp k = Some x) →
  watch watched qp acc !! key = Some a ↔
  acc !! key = Some a
  ∨ (key ∈ watched ∧ key ≠ "__proto__" ∧ watched_value qp key = Some a).
Proof.
  revert acc. induction watched as [|w watched IH]; intros acc Hacc.
  - simpl. split; [by left|]. intros [?|[H _]]; [done|].
    by apply elem_of_nil in H.
  - rewrite watch_unfold, IH.
    + rewrite (watch_step qp acc w key a Hacc), elem_of_cons. tauto.
    + intros k x [?|(_ & _ & ?)]%watch_step; [by apply Hacc|done|done].
Qed.

Lemma findHandler_loop_flags routes captures cc qp acc res :
  findHandler_loop (chain_handlers routes) captures cc qp acc = Ok res →
  ∃ res', res = acc ++ res' ∧ Forall2 (flags_of qp) res' routes.
Proof.
  revert cc acc.
  induction routes as [|route routes IH]; intros cc acc; simpl.
  - intros [= <-]. exists []. split; [by rewrite app_nil_r|constructor].
  - destruct (bind_names _ captures cc ∅) as [[params cc']|] eqn:Eb;
      simpl; [|done].
    intros (res' & -> & Hres)%IH.
    eexists (_ :: res'). split; [by rewrite <-app_assoc|].
    constructor; [|done]. split; [done|]. split.
    + simpl. f_equal.
      destruct (omap segment_name (route_segments route)); done.
    + simpl. destruct (Route.queryParams route) as [[|k l]|];
        cbn -[watch]; try done.
      eexists. split; [done|]. intros key a.
      rewrite watch_spec by done. rewrite watched_value_spec.
      split; [by intros [?|?]|by right].
Qed.

Section Flags.

Variable decodeURIComponent : string → result string.

(** X4. Each entry of a result of [recognize] has [isDynamic] set exactly
    when its route has a dynamic or star segment, and has a [queryParams]
    member exactly when its route declares at least one query param; that
    member then holds the declared keys that the URL's query string binds
    to a truthy value, with these values, and the declared keys that the
    query string does not bind and that name a member of
    [Object.prototype], with that member; it never holds the key
    [__proto__], and nothing else. *)
Theorem recognized_query_params regs path res :
  recognize decodeURIComponent (build regs) path = Ok (Some res) →
  ∃ qp routes as_,
    ((("?"%char ∉ chars path) ∧ qp = ∅)
     ∨ ∃ p q, path = p +:+ String "?" q ∧ ("?"%char ∉ chars p)
              ∧ parseQueryString decodeURIComponent q = Ok qp)
    ∧ (routes, as_) ∈ regs
    ∧ Forall2 (flags_of qp) res routes.
Proof.
  assert (∀ p qp, recognize_path (build regs) p qp = Ok (Some res) →
            ∃ routes as_, (routes, as_) ∈ regs
                          ∧ Forall2 (flags_of qp) res routes) as Hpath.
  { intros p qp (routes & as_ & Hin & Hfind)%recognize_path_Some.
    exists routes, as_. split; [done|]. unfold findHandler in Hfind.
    destruct (chain_accepting_spec routes) as [Hh _]. rewrite Hh in Hfind.
    by apply findHandler_loop_flags in Hfind as (res' & -> & Hres). }
  destruct (split_at_query path) as [Hq|(p & q & -> & Hp)].
  - rewrite recognize_no_query by done.
    intros (routes & as_ & Hin & Hres)%Hpath.
    exists ∅, routes, as_. split; [by left|done].
  - rewrite recognize_query by done.
    destruct (parseQueryString decodeURIComponent q) as [qp|] eqn:E;
      simpl; [|done].
    intros (routes & as_ & Hin & Hres)%Hpath.
    exists qp, routes, as_. split; [|done]. right. by exists p, q.
Qed.

End Flags.

Lemma posts_new_matches : pattern_matches posts_new "/posts/new".
Proof.
  unfold pattern_matches. rewrite chain_segments_posts_new. simpl.
  exists (chars "posts"), (chars "/new"). split; [done|]. split; [done|].
  exists (chars "new"), []. done.
Qed.

Lemma recognize_dispatches_witness :
  ∃ routes as_,
    (routes, as_) ∈ blog
    ∧ pattern_matches routes (normalize_path "/posts/new")
    ∧ (∀ reg, reg ∈ blog → pattern_matches reg.1 (normalize_path "/posts/new") →
         ranks_before (types (chain_accepting routes))
           (types (chain_accepting reg.1)))
    ∧ recognize latin1_decodeURIComponent (build blog) "/posts/new"
      = (r ←! findHandler (chain_accepting routes)
                (normalize_path "/posts/new") ∅;
         Ok (Some r))
    ∧ ∀ q qp, parseQueryString latin1_decodeURIComponent q = Ok qp →
        recognize latin1_decodeURIComponent (build blog)
          ("/posts/new" +:+ String "?" q)
        = (r ←! findHandler (chain_accepting routes)
                  (normalize_path "/posts/new") qp;
           Ok (Some r)).
Proof.
  apply (recognize_dispatches latin1_decodeURIComponent blog "/posts/new").
  - by apply not_elem_of_chars.
  - exists (posts_new, Some "newPost"). split.
    + right. by left.
    + apply posts_new_matches.
Defined.

Lemma recognized_query_params_witness :
  ∃ qp routes as_,
    ((("?"%char ∉ chars "/search?q=ember&page=2") ∧ qp = ∅)
     ∨ ∃ p q, "/search?q=ember&page=2" = p +:+ String "?" q
              ∧ ("?"%char ∉ chars p)
              ∧ parseQueryString latin1_decodeURIComponent q = Ok qp)
    ∧ (routes, as_) ∈ blog
    ∧ Forall2 (flags_of qp)
        [Recognized.mk "search" ∅ false (Some {["q" := AValue (QString "ember")]})]
        routes.
Proof.
  apply (recognized_query_params latin1_decodeURIComponent blog
           "/search?q=ember&page=2").
  reflexivity.
Defined.

(** A route that declares the query params [constructor] and [page]: for
    a URL without query string, its entry reports [constructor], bound to
    the member that the empty query params inherit. *)
Lemma recognized_inherited_member :
  recognize latin1_decodeURIComponent
    (build [([Route.mk "/a" "a" (Some ["constructor"; "page"])], None)]) "/a"
  = Ok (Some [Recognized.mk "a" ∅ false
                (Some {["constructor" := AInherited]})])
  ∧ recognize latin1_decodeURIComponent
      (build [([Route.mk "/a" "a" (Some ["constructor"; "page"])], None)])
      "/a?page=2&constructor=x"
    = Ok (Some [Recognized.mk "a" ∅ false
                  (Some {["constructor" := AValue (QString "x");
                          "page" := AValue (QString "2")]})]).
Proof. split; by vm_compute. Qed.

(** ** Query strings, written and read back *)

Lemma split_chars_join c (x : list ascii) (xs : list (list ascii)) :
  Forall (λ y, c ∉ y) (x :: xs) →
  split_chars c (x ++ concat ((λ y, c :: y) <$> xs)) = x :: xs.
Proof.
  revert x. induction xs as [|y xs IH]; intros x [Hx Hxs]%Forall_cons.
  - simpl. rewrite app_nil_r. by apply split_chars_no_sep.
  - simpl. rewrite split_chars_app by done. by rewrite IH.
Qed.

Lemma join_chars sep x xs :
  chars (join (String sep "") (x :: xs))
  = chars x ++ concat ((λ y, sep :: chars y) <$> xs).
Proof.
  revert x. induction xs as [|y xs IH]; intros x.
  - simpl. by rewrite app_nil_r.
  - change (join (String sep "") (x :: y :: xs))
      with (x +:+ String sep "" +:+ join (String sep "") (y :: xs)).
    rewrite !chars_app, IH. done.
Qed.

Lemma split_join c x xs :
  Forall (λ y, c ∉ chars y) (x :: xs) →
  split c (join (String c "") (x :: xs)) = x :: xs.
Proof.
  intros Hall. unfold split. rewrite join_chars.
  change ((λ y, c :: chars y) <$> xs) with (((λ y, c :: y) ∘ chars) <$> xs).
  rewrite (list_fmap_compose chars (λ y, c :: y)).
  rewrite (split_chars_join c (chars x) (chars <$> xs)).
  - rewrite <-fmap_cons, <-list_fmap_compose.
    rewrite <-(list_fmap_id (x :: xs)) at 2. apply list_fmap_ext.
    intros _ y _. apply str_chars.
  - rewrite <-fmap_cons. by apply Forall_fmap.
Qed.

Section WrittenQueryStrings.

Variable encodeURIComponent : string → result string.
Variable decodeURIComponent : string → result string.

Hypothesis decode_encode :
  ∀ s e, encodeURIComponent s = Ok e → decodeURIComponent e = Ok s.
Hypothesis encode_escapes :
  ∀ s e, encodeURIComponent s = Ok e →
    ("&"%char ∉ chars e) ∧ ("="%char ∉ chars e).
Hypothesis encode_empty :
  ∀ s e, encodeURIComponent s = Ok e → (e = "" ↔ s = "").

Lemma rendered_escapes kv text :
  rendered encodeURIComponent kv text → "&"%char ∉ chars text.
Proof.
  destruct kv as [k v]. intros (ek & Hek & Hv). simpl in *.
  destruct (encode_escapes _ _ Hek) as [Hk _].
  destruct v as [|v]; [by subst|]. destruct Hv as (ev & Hev & ->).
  destruct (encode_escapes _ _ Hev) as [Hv _].
  rewrite !chars_app, !not_elem_of_app. split; [done|]. split; [|done].
  change (chars "=") with ["="%char].
  rewrite not_elem_of_cons. split; [done|apply not_elem_of_nil].
Qed.

Lemma rendered_parse_pair kv text :
  rendered encodeURIComponent kv text →
  parse_pair decodeURIComponent text = Ok (kv.1, read_back kv.2).
Proof.
  destruct kv as [k v]. intros (ek & Hek & Hv). simpl in *.
  destruct (encode_escapes _ _ Hek) as [_ Hk].
  unfold parse_pair. destruct v as [|v].
  - subst text. rewrite split_flag by done. simpl.
    by rewrite (decode_encode _ _ Hek).
  - destruct Hv as (ev & Hev & ->).
    destruct (encode_escapes _ _ Hev) as [_ Hv].
    assert (split "=" (ek +:+ "=" +:+ ev) = [ek; ev]) as ->.
    { unfold split. rewrite !chars_app.
      change (chars "=") with ["="%char]. simpl.
      rewrite split_chars_app by done. rewrite split_chars_no_sep by done.
      simpl. by rewrite !str_chars. }
    simpl. rewrite (decode_encode _ _ Hek). simpl.
    pose proof (encode_empty _ _ Hev) as Hempty.
    case_bool_decide as He.
    + apply Hempty in He as ->. done.
    + rewrite (decode_encode _ _ Hev). simpl.
      destruct v; [|done]. exfalso. by apply He, Hempty.
Qed.

Lemma parse_pairs_rendered qp texts m :
  Forall2 (rendered encodeURIComponent) qp texts →
  parse_pairs decodeURIComponent texts m
  = Ok (foldl (λ m kv, assign m kv.1 (read_back kv.2)) m qp).
Proof.
  intros H. revert m. induction H as [|kv text qp texts Hr _ IH]; intros m.
  - done.
  - rewrite parse_pairs_cons, (rendered_parse_pair _ _ Hr). simpl. apply IH.
Qed.

Lemma assign_lookup_iff {V} (m : gmap string V) k0 x k v :
  assign m k0 x !! k = Some v ↔
  (k = k0 ∧ k0 ≠ "__proto__" ∧ v = x)
  ∨ ((k ≠ k0 ∨ k0 = "__proto__") ∧ m !! k = Some v).
Proof.
  unfold assign. case_bool_decide as Hp.
  - split; [intros ?; right; split; [by right|done]|].
    intros [(_ & ? & _)|[_ ?]]; done.
  - destruct (decide (k0 = k)) as [->|Hne].
    + rewrite lookup_insert_eq. split.
      * intros [= ->]. by left.
      * intros [(_ & _ & ->)|[[?|?] _]]; done.
    + rewrite lookup_insert_ne by done. split.
      * intros ?. right. split; [by left|done].
      * intros [(-> & _)|[_ ?]]; done.
Qed.

Lemma foldl_assign_lookup (qp : list (string * QueryValue)) m k v :
  NoDup qp.*1 →
  foldl (λ m kv, assign m kv.1 (read_back kv.2)) m qp !! k = Some v ↔
  ((k ∉ qp.*1 ∨ k = "__proto__") ∧ m !! k = Some v)
  ∨ (k ≠ "__proto__" ∧ ∃ v0, (k, v0) ∈ qp ∧ v = read_back v0).
Proof.
  revert m. induction qp as [|[k0 v0] qp IH]; intros m Hnd; simpl.
  - split.
    + intros ?. left. split; [left; apply not_elem_of_nil|done].
    + intros [[_ ?]|(_ & ? & H & _)]; [done|]. by apply elem_of_nil in H.
  - apply NoDup_cons in Hnd as [Hk0 Hnd].
    rewrite (IH _ Hnd), assign_lookup_iff, not_elem_of_cons. split.
    + intros [[Hk [(-> & Hp & ->)|[Hne Hm]]]|(Hp & v1 & Hin & ->)].
      * right. split; [done|]. exists v0. split; [by left|done].
      * left. split; [|done].
        destruct Hk as [Hk| ->]; [|by right].
        destruct Hne as [Hne| ->]; [by left|].
        destruct (decide (k = "__proto__")) as [->|?]; [by right|by left].
      * right. split; [done|]. exists v1. split; [by right|done].
    + intros [[Hk Hm]|(Hp & v1 & Hin & ->)].
      * left. destruct Hk as [[Hne Hk]| ->].
        -- split; [by left|]. right. split; [by left|done].
        -- split; [by right|]. right. split; [|done].
           destruct (decide (k0 = "__proto__")) as [->|?]; [by right|by left].
      * apply elem_of_cons in Hin as [[= -> ->]|Hin].
        -- left. split; [by left|]. by left.
        -- right. split; [done|]. by exists v1.
Qed.

(** X5. What [generateQueryString] writes, [parseQueryString] reads back:
    for params with distinct keys, the generated text is empty when there
    is no param, and otherwise is [?] followed by a query string that
    parses to the same keys (except [__proto__]) and values, an empty string
    value coming back as [true]. The URI coding functions are assumed to be
    inverse to each other, to escape [&] and [=], and to encode only the
    empty string as the empty string. *)
Theorem query_string_roundtrip qp handlers text :
  NoDup qp.*1 →
  generateQueryString encodeURIComponent qp handlers = Ok text →
  (qp = [] → text = "")
  ∧ (qp ≠ [] →
     ∃ queryString m,
       text = String "?" queryString
       ∧ parseQueryString decodeURIComponent queryString = Ok m
       ∧ ∀ k v, m !! k = Some v ↔
           k ≠ "__proto__" ∧ ∃ v0, (k, v0) ∈ qp ∧ v = read_back v0).
Proof.
  intros Hnd (_ & _ & texts & Hr & ->)%generateQueryString_Ok. split.
  - intros ->. by apply Forall2_nil_inv_l in Hr as ->.
  - intros Hne. destruct Hr as [|kv t qp texts Hkv Hr]; [done|].
    exists (join "&" (t :: texts)). eexists.
    split; [done|]. split.
    + unfold parseQueryString. rewrite split_join.
      * apply (parse_pairs_rendered (kv :: qp)). by constructor.
      * apply Forall_cons. split; [by eapply rendered_escapes|].
        eapply Forall2_Forall_r; [exact Hr|].
        apply Forall_forall. intros x _ y. apply rendered_escapes.
    + intros k v. rewrite foldl_assign_lookup by done.
      rewrite lookup_empty. split; [|by right].
      intros [[_ ?]|?]; done.
Qed.

End WrittenQueryStrings.

(** ** Reading a query string with repeated keys *)

Section ReadQueryStrings.

Variable decodeURIComponent : string → result string.

(** X6. Every binding of a parsed query string comes from one of its
    [&]-separated pairs, and a key that occurs in several pairs is bound by
    the last of them. *)
Theorem parseQueryString_last_wins queryString m :
  parseQueryString decodeURIComponent queryString = Ok m →
  (∀ k v, m !! k = Some v →
     ∃ p, p ∈ split "&" queryString
          ∧ parse_pair decodeURIComponent p = Ok (k, v))
  ∧ (∀ pre p post k v,
       split "&" queryString = pre ++ p :: post →
       parse_pair decodeURIComponent p = Ok (k, v) →
       k ≠ "__proto__" →
       Forall (λ p', ∀ v', parse_pair decodeURIComponent p' ≠ Ok (k, v'))
         post →
       m !! k = Some v).
Proof.
  unfold parseQueryString. intros Hm. split.
  - assert (∀ pairs m0 m1 k v,
              parse_pairs decodeURIComponent pairs m0 = Ok m1 →
              m1 !! k = Some v →
              m0 !! k = Some v
              ∨ ∃ p, p ∈ pairs ∧ parse_pair decodeURIComponent p = Ok (k, v))
      as Hgen.
    { induction pairs as [|p pairs IH]; intros m0 m1 k v.
      - intros [= <-]. by left.
      - rewrite parse_pairs_cons.
        destruct (parse_pair decodeURIComponent p) as [[k' v']|] eqn:E;
          simpl; [|done].
        intros H1 H2. destruct (IH _ _ _ _ H1 H2) as [H|(p' & Hin & Hp')].
        + apply assign_lookup in H as [H|(-> & -> & _)]; [by left|].
          right. exists p. split; [by left|done].
        + right. exists p'. split; [by right|done]. }
    intros k v Hk. destruct (Hgen _ _ _ _ _ Hm Hk) as [H|H]; [|done].
    by rewrite lookup_empty in H.
  - intros pre p post k v Hsplit Hp Hproto Hpost.
    rewrite Hsplit, parse_pairs_app in Hm.
    destruct (parse_pairs decodeURIComponent pre ∅) as [m0|]; [|done].
    change (parse_pairs decodeURIComponent (p :: post) m0 = Ok m) in Hm.
    rewrite parse_pairs_cons, Hp in Hm. simpl in Hm.
    rewrite (parse_pairs_keep _ _ _ _ _ Hm Hpost).
    unfold assign. rewrite bool_decide_eq_false_2 by done.
    apply lookup_insert_eq.
Qed.

End ReadQueryStrings.

(** ** The URI coding functions on 8-bit strings *)

Lemma decode_encode_char c l :
  decode_chars (encode_char c ++ l)
  = (rest ←! decode_chars l; Ok (c :: rest)).
Proof.
  destruct c as [[] [] [] [] [] [] [] []]; reflexivity.
Qed.

Lemma encode_char_escapes c :
  ("&"%char ∉ encode_char c) ∧ ("="%char ∉ encode_char c)
  ∧ encode_char c ≠ [].
Proof.
  destruct c as [[] [] [] [] [] [] [] []];
    (split; [|split]; [apply (bool_decide_eq_false_1 _); reflexivity..|done]).
Qed.

Lemma latin1_decode_encode s e :
  latin1_encodeURIComponent s = Ok e → latin1_decodeURIComponent e = Ok s.
Proof.
  unfold latin1_encodeURIComponent, latin1_decodeURIComponent.
  intros [= <-]. rewrite chars_str.
  assert (decode_chars (concat (encode_char <$> chars s)) = Ok (chars s))
    as ->; [|simpl; by rewrite str_chars].
  induction (chars s) as [|c l IH]; [done|].
  change (decode_chars (encode_char c ++ concat (encode_char <$> l))
          = Ok (c :: l)).
  by rewrite decode_encode_char, IH.
Qed.

Lemma latin1_encode_escapes s e :
  latin1_encodeURIComponent s = Ok e →
  ("&"%char ∉ chars e) ∧ ("="%char ∉ chars e).
Proof.
  unfold latin1_encodeURIComponent. intros [= <-]. rewrite chars_str.
  induction (chars s) as [|c l [IH1 IH2]]; simpl.
  - split; apply not_elem_of_nil.
  - destruct (encode_char_escapes c) as (H1 & H2 & _).
    rewrite !not_elem_of_app. done.
Qed.

Lemma latin1_encode_empty s e :
  latin1_encodeURIComponent s = Ok e → (e = "" ↔ s = "").
Proof.
  unfold latin1_encodeURIComponent. intros [= <-]. rewrite str_nil.
  split; [|by intros ->].
  destruct s as [|c s]; [done|]. rewrite chars_cons. simpl.
  destruct (encode_char_escapes c) as (_ & _ & H).
  by destruct (encode_char c).
Qed.

Lemma query_string_roundtrip_witness :
  let qp := [("q", QString "a b"); ("exact", QTrue); ("tag", QString "")] in
  (qp = [] → "?q=a%20b&exact&tag=" = "")
  ∧ (qp ≠ [] →
     ∃ queryString m,
       "?q=a%20b&exact&tag=" = String "?" queryString
       ∧ parseQueryString latin1_decodeURIComponent queryString = Ok m
       ∧ ∀ k v, m !! k = Some v ↔
           k ≠ "__proto__" ∧ ∃ v0, (k, v0) ∈ qp ∧ v = read_back v0).
Proof.
  apply (query_string_roundtrip latin1_encodeURIComponent
           latin1_decodeURIComponent latin1_decode_encode
           latin1_encode_escapes latin1_encode_empty
           [("q", QString "a b"); ("exact", QTrue); ("tag", QString "")]
           [Handler.mk "search" [] (Some ["q"; "exact"; "tag"])]).
  - apply (bool_decide_unpack _). reflexivity.
  - reflexivity.
Defined.

Lemma parseQueryString_last_wins_witness :
  let m : gmap string QueryValue :=
    {["a" := QString "3"; "b" := QString "2"]} in
  (∀ k v, m !! k = Some v →
     ∃ p, p ∈ split "&" "a=1&b=2&a=3"
          ∧ parse_pair latin1_decodeURIComponent p = Ok (k, v))
  ∧ (∀ pre p post k v,
       split "&" "a=1&b=2&a=3" = pre ++ p :: post →
       parse_pair latin1_decodeURIComponent p = Ok (k, v) →
       k ≠ "__proto__" →
       Forall (λ p', ∀ v', parse_pair latin1_decodeURIComponent p'
                           ≠ Ok (k, v')) post →
       m !! k = Some v).
Proof.
  apply (parseQueryString_last_wins latin1_decodeURIComponent "a=1&b=2&a=3").
  reflexivity.
Defined.

(** * The router *)

(** ** Comparing query params *)




Lemma queryParamsEqual_returns a b :
  default ∅ a !! "hasOwnProperty" = None →
  default ∅ b !! "hasOwnProperty" = None →
  ∃ r, Router.queryParamsEqual a b = Ok r.
Proof.
  intros Ha Hb. unfold Router.queryParamsEqual, Router.callable_hasOwnProperty.
  rewrite !bool_decide_eq_true_2 by done. simpl.
  destruct (existsb _ _); [by eexists|]. destruct (existsb _ _); by eexists.
Qed.


Lemma queryParamsEqual_examples :
  Router.queryParamsEqual (Some {["page" := Router.VString "2"]})
    (Some {["page" := Router.VString "2"]}) = Ok true
  ∧ Router.queryParamsEqual (Some {["page" := Router.VString "2"]}) None
    = Ok false
  ∧ Router.queryParamsEqual
      (Some {["hasOwnProperty" := Router.VString "x"]})
      (Some {["hasOwnProperty" := Router.VString "x"]}) = Throw TypeError.
Proof. by vm_compute. Qed.

(** ** The query params of a named transition *)

Lemma mergeSomeKeys_loop_lookup hash other keys :
  other !! "hasOwnProperty" = None →
  ∃ m, Router.mergeSomeKeys_loop hash other keys = Ok m
       ∧ ∀ k, k ≠ "__proto__" →
           m !! k
           = if bool_decide (k ∈ keys)
             then match other !! k with
                  | Some v => if Router.removes v then None else Some v
                  | None => hash !! k
                  end
             else hash !! k.
Proof.
  intros Hcall. revert hash. induction keys as [|key keys IH]; intros hash.
  - by exists hash.
  - cbn [Router.mergeSomeKeys_loop]. unfold Router.callable_hasOwnProperty.
    rewrite bool_decide_eq_true_2 by done. cbn [negb].
    edestruct IH as (m & -> & Hm). exists m. split; [done|].
    intros k Hk. rewrite (Hm k Hk).
    assert (match other !! key with
            | Some value =>
                if Router.removes value then delete key hash
                else assign hash key value
            | None => hash
            end !! k
            = if bool_decide (k = key)
              then match other !! k with
                   | Some v => if Router.removes v then None else Some v
                   | None => hash !! k
                   end
              else hash !! k) as Hstep.
    { clear IH Hm. case_bool_decide as Heq.
      - subst key. destruct (other !! k) as [v|]; [|done].
        destruct (Router.removes v).
        + apply lookup_delete_eq.
        + unfold assign. rewrite bool_decide_eq_false_2 by done.
          apply lookup_insert_eq.
      - destruct (other !! key) as [v|]; [|done].
        destruct (Router.removes v).
        + by apply lookup_delete_ne.
        + unfold assign. case_bool_decide; [done|].
          by apply lookup_insert_ne. }
    rewrite Hstep. clear Hstep.
    destruct (decide (k = key)) as [->|Hne].
    + rewrite (bool_decide_eq_true_2 (key ∈ key :: keys)) by (by left).
      rewrite (bool_decide_eq_true_2 (key = key)) by done.
      case_bool_decide; [|done]. by destruct (other !! key).
    + rewrite (bool_decide_eq_false_2 (k = key)) by done.
      rewrite (bool_decide_ext (k ∈ key :: keys) (k ∈ keys)); [done|].
      rewrite elem_of_cons. tauto.
Qed.

Lemma mergeSomeKeys_lookup hash other keys :
  default ∅ other !! "hasOwnProperty" = None →
  ∃ m, Router.mergeSomeKeys hash other (Some keys) = Ok m
       ∧ ∀ k, k ≠ "__proto__" →
           m !! k
           = if bool_decide (k ∈ keys)
             then match default ∅ other !! k with
                  | Some v => if Router.removes v then None else Some v
                  | None => hash !! k
                  end
             else hash !! k.
Proof.
  intros Hcall. destruct other as [other|].
  - by apply mergeSomeKeys_loop_lookup.
  - exists hash. split; [done|]. intros k Hk. cbn [default].
    rewrite lookup_empty. by case_bool_decide.
Qed.

Lemma mergeSomeKeys_error hash other keys e :
  Router.mergeSomeKeys hash other keys = Throw e → e = TypeError.
Proof.
  destruct other as [other|], keys as [keys|]; try done. cbn. revert hash.
  induction keys as [|k keys IH]; intros hash; cbn; [done|].
  destruct (Router.callable_hasOwnProperty other); cbn; [apply IH|congruence].
Qed.

Lemma mergeSomeKeys_throws hash other key keys :
  is_Some (other !! "hasOwnProperty") →
  Router.mergeSomeKeys hash (Some other) (Some (key :: keys))
  = Throw TypeError.
Proof.
  intros [v Hv]. cbn. unfold Router.callable_hasOwnProperty.
  by rewrite Hv, bool_decide_eq_false_2.
Qed.

(** X8. When neither the router's current query params nor those of the
    transition have an own property [hasOwnProperty], or when the latter are
    [false], [generateHandlerInfosWithQueryParams] makes one handler info
    per handler, with its name and segment names; the info has query params
    exactly when the handler declares at least one, and then binds each
    declared key to the value given for the transition if there is one, else
    to the router's current value, dropping the key when that value is
    [null], [false] or [undefined]; it binds nothing when the transition's
    query params are [false]. With such an own property in either object,
    and a handler that declares a query param, it throws a TypeError. *)
Theorem handler_infos_query_params router handlers queryParams :
  let current := default ∅ (Router.currentQueryParams router) in
  let given := match queryParams with
               | Router.QPObject new => default ∅ new
               | Router.QPFalse => ∅
               end in
  (queryParams = Router.QPFalse
   ∨ (current !! "hasOwnProperty" = None
      ∧ given !! "hasOwnProperty" = None) →
   ∃ infos,
     Router.generateHandlerInfosWithQueryParams router handlers queryParams
     = Ok infos
     ∧ Forall2 (λ info handler,
         Router.HandlerObj.handler info = Handler.handler handler
         ∧ Router.HandlerObj.names info = Handler.names handler
         ∧ match Handler.queryParams handler with
           | Some (key :: keys) =>
               ∃ m, Router.HandlerObj.queryParams info = Some m
                    ∧ ∀ k, k ≠ "__proto__" →
                        m !! k
                        = match queryParams with
                          | Router.QPFalse => None
                          | Router.QPObject _ =>
                              if bool_decide (k ∈ key :: keys)
                              then Router.active_param current given k
                              else None
                          end
           | _ => Router.HandlerObj.queryParams info = None
           end) infos handlers)
  ∧ (queryParams ≠ Router.QPFalse →
     is_Some (current !! "hasOwnProperty")
     ∨ is_Some (given !! "hasOwnProperty") →
     Exists (λ handler, ∃ key keys,
               Handler.queryParams handler = Some (key :: keys)) handlers →
     Router.generateHandlerInfosWithQueryParams router handlers queryParams
     = Throw TypeError).
Proof.
  intros current given. split.
  - intros Hcall. induction handlers as [|handler handlers IH].
    { exists []. split; [done|constructor]. }
    destruct IH as (infos & Hinfos & Hall).
    cbn [Router.generateHandlerInfosWithQueryParams]. rewrite Hinfos.
    destruct queryParams as [|new].
    + cbn [bind]. eexists. split; [done|]. constructor; [|done].
      split; [done|]. split; [done|]. cbn.
      destruct (Handler.queryParams handler) as [[|key keys]|]; try done.
      eexists. split; [done|]. intros k _. apply lookup_empty.
    + destruct Hcall as [?|[Hc Hg]]; [done|].
      destruct (Handler.queryParams handler) as [[|key keys]|] eqn:Eq.
      * cbn. destruct (Router.currentQueryParams router), new; cbn;
          (eexists; split; [done|]; constructor; [|done]);
          by rewrite Eq.
      * destruct (mergeSomeKeys_lookup ∅ (Router.currentQueryParams router)
                    (key :: keys) Hc) as (m1 & -> & Hm1).
        cbn [bind].
        destruct (mergeSomeKeys_lookup m1 new (key :: keys) Hg)
          as (m2 & -> & Hm2).
        cbn [bind]. eexists. split; [done|]. constructor; [|done].
        split; [done|]. split; [done|]. cbn. rewrite Eq.
        exists m2. split; [done|]. intros k Hk.
        rewrite (Hm2 k Hk), (Hm1 k Hk), lookup_empty.
        unfold Router.active_param. fold current. subst given. cbn.
        case_bool_decide; [|done].
        destruct (default ∅ new !! k); [done|].
        by destruct (current !! k).
      * cbn. destruct (Router.currentQueryParams router), new; cbn;
          (eexists; split; [done|]; constructor; [|done]);
          by rewrite Eq.
  - intros Hq Hown Hex. destruct queryParams as [|new]; [done|]. clear Hq.
    induction Hex as [handler handlers (key & keys & Eq)
                     |handler handlers Hex IH].
    + cbn [Router.generateHandlerInfosWithQueryParams]. rewrite Eq.
      destruct (Router.currentQueryParams router) as [cur|] eqn:Ec.
      * destruct (cur !! "hasOwnProperty") as [v|] eqn:Ev.
        { rewrite mergeSomeKeys_throws; [done|by eexists]. }
        destruct (mergeSomeKeys_lookup ∅ (Some cur) (key :: keys) Ev)
          as (m1 & -> & _).
        cbn [bind]. destruct Hown as [[? ?]|Hg]; [subst current; cbn in *;
          congruence|].
        destruct new as [new|]; [|by destruct Hg].
        rewrite mergeSomeKeys_throws; done.
      * destruct Hown as [[? ?]|Hg]; [done|].
        destruct new as [new|]; [|by destruct Hg].
        destruct Hg as [v Hv]. subst given. cbn in Hv. cbn.
        unfold Router.callable_hasOwnProperty.
        by rewrite Hv, bool_decide_eq_false_2.
    + cbn [Router.generateHandlerInfosWithQueryParams].
      destruct (Router.mergeSomeKeys ∅ _ _) as [m1|e1] eqn:E1; cbn [bind].
      * destruct (Router.mergeSomeKeys m1 _ _) as [m2|e2] eqn:E2; cbn [bind].
        -- by rewrite IH.
        -- by apply mergeSomeKeys_error in E2 as ->.
      * by apply mergeSomeKeys_error in E1 as ->.
Qed.

(** ** The query params a named route accepts *)

Lemma allowed_params_chain routes :
  allowed_params (chain_handlers routes)
  = concat ((λ route, default [] (Route.queryParams route)) <$> routes).
Proof.
  induction routes as [|route routes IH]; [done|].
  change (chain_handlers (route :: routes))
    with (Handler.mk (Route.handler route)
            (omap segment_name (route_segments route))
            (Route.queryParams route) :: chain_handlers routes).
  rewrite fmap_cons. cbn [allowed_params concat Handler.queryParams].
  rewrite IH. by destruct (Route.queryParams route).
Qed.

Section ValidQueryParams.

Variable inheritedText : string → string.
Variable encodeURIComponent : string → result string.
Hypothesis encode_total : ∀ s, ∃ e, encodeURIComponent s = Ok e.

Lemma rendered_total (params : list (string * QueryValue)) :
  ∃ texts, Forall2 (rendered encodeURIComponent) params texts.
Proof.
  induction params as [|[key v] params [texts IH]]; [by exists []|].
  destruct (encode_total key) as [ek Hek]. destruct v as [|v].
  - exists (ek :: texts). constructor; [|done]. by exists ek.
  - destruct (encode_total v) as [ev Hev].
    exists ((ek +:+ "=" +:+ ev) :: texts). constructor; [|done].
    exists ek. split; [done|]. by exists ev.
Qed.

(** X16. For a registered name, [queryParamsForHandler] returns the query
    params that the routes of the chain declare, from the root to the leaf,
    and these are the keys that the recognizer's [generate] accepts: for a
    chain without a segment named [queryParams], a params object of strings
    with query params, and a URI encoder that does not throw, [generate]
    returns a URL exactly when every key of the query params is among them
    and none is [hasOwnProperty]. *)
Theorem queryParamsForHandler_valid router before routes name after :
  name ≠ "" → (∀ routes', (routes', Some name) ∉ after) →
  Router.recognizer router = build (before ++ (routes, Some name) :: after) →
  (∀ segment, segment ∈ chain_segments routes →
     segment_name segment ≠ Some "queryParams") →
  ∃ valid,
    Router.queryParamsForHandler router name = Ok valid
    ∧ valid = concat ((λ route, default [] (Route.queryParams route))
                      <$> routes)
    ∧ ∀ P qp,
        Forall (λ kv, kv.1 ∈ valid) qp ∧ ("hasOwnProperty" ∉ qp.*1)
        ↔ ∃ url, generate inheritedText encodeURIComponent
                   (Router.recognizer router) name (Some (with_query P qp))
                 = Ok url.
Proof.
  intros Hname Hno Hrec Hseg. eexists. split; [|split; [reflexivity|]].
  - unfold Router.queryParamsForHandler, handlersFor, names_get.
    rewrite Hrec, build_names_last by done. simpl. f_equal.
    rewrite <-allowed_params_chain.
    generalize (chain_handlers routes). intros hs.
    induction hs as [|h hs IH]; [done|]. rewrite fmap_cons. simpl.
    rewrite IH. by destruct (Handler.queryParams h).
  - intros P qp. rewrite <-allowed_params_chain.
    unfold generate, names_get. rewrite Hrec, build_names_last by done.
    cbn [NamedRoute.segments NamedRoute.handlers].
    rewrite generate_loop_with_query, generate_loop_url by done.
    cbn [mbind option_bind bind]. unfold with_query at 1.
    rewrite lookup_insert_eq. split.
    + intros [Hall Hown]. destruct (rendered_total qp) as [texts Hr].
      assert (generateQueryString encodeURIComponent qp
                (chain_handlers routes)
              = Ok match texts with
                   | [] => ""
                   | _ => "?" +:+ join "&" texts
                   end) as ->.
      { apply generateQueryString_Ok. eauto. }
      by eexists.
    + intros [url Hurl].
      destruct (generateQueryString encodeURIComponent qp
                  (chain_handlers routes)) as [q|e] eqn:E; [|done].
      apply generateQueryString_Ok in E as (Hown & Hall & _). done.
Qed.

End ValidQueryParams.

Lemma latin1_encode_total s : ∃ e, latin1_encodeURIComponent s = Ok e.
Proof. by eexists. Qed.

Lemma queryParamsForHandler_valid_witness :
  ∃ valid,
    Router.queryParamsForHandler
      (Router.mk (build [(search, Some "search")]) None) "search" = Ok valid
    ∧ valid = concat ((λ route, default [] (Route.queryParams route))
                      <$> search)
    ∧ ∀ P qp,
        Forall (λ kv, kv.1 ∈ valid) qp ∧ ("hasOwnProperty" ∉ qp.*1)
        ↔ ∃ url, generate v8_inheritedText latin1_encodeURIComponent
                   (Router.recognizer
                      (Router.mk (build [(search, Some "search")]) None))
                   "search" (Some (with_query P qp)) = Ok url.
Proof.
  apply (queryParamsForHandler_valid v8_inheritedText
           latin1_encodeURIComponent latin1_encode_total
           (Router.mk (build [(search, Some "search")]) None)
           [] search "search" []).
  - done.
  - intros routes' H. by apply elem_of_nil in H.
  - reflexivity.
  - intros segment Hin. rewrite chain_segments_search in Hin.
    by apply list_elem_of_singleton in Hin as ->.
Defined.

(** ** The partition of handlers on a transition *)

Section Partition.

Context {H C : Type} `{!EqDecision H, !EqDecision C}.

Implicit Types old news : list (Router.HandlerInfo.t H C).
Implicit Types P : Router.Partition.t H C.

Local Ltac fields :=
  cbn [Router.Partition.updatedContext Router.Partition.exited
       Router.Partition.entered Router.Partition.unchanged].

Lemma drop_lookup_cons {A} (l : list A) i x :
  l !! i = Some x → drop i l = x :: drop (S i) l.
Proof.
  revert i. induction l as [|a l IH]; intros [|i]; simpl; try done.
  - by intros [= ->].
  - apply IH.
Qed.

Lemma compare_returns (o n : Router.HandlerInfo.t H C) :
  Router.plain_query_params o → Router.plain_query_params n →
  ∃ b, Router.queryParamsEqual (Router.HandlerInfo.queryParams o)
         (Router.HandlerInfo.queryParams n) = Ok b.
Proof. apply queryParamsEqual_returns. Qed.

Lemma partition_loop_changed i old news cc qc P :
  Forall Router.plain_query_params old → Forall Router.plain_query_params news →
  Router.partition_loop i old news true cc qc P
  = Ok (Router.Partition.mk (Router.Partition.updatedContext P)
          (reverse (take (length news) (drop i old))
           ++ Router.Partition.exited P)
          (Router.Partition.entered P ++ news)
          (Router.Partition.unchanged P)).
Proof.
  intros Hold. revert i cc qc P.
  induction news as [|n news IH]; intros i cc qc P Hnew.
  - simpl. rewrite app_nil_r. by destruct P.
  - apply Forall_cons in Hnew as [Hn Hnew].
    cbn [Router.partition_loop]. destruct (old !! i) as [o|] eqn:Eo.
    + destruct (compare_returns o n) as [b Eq];
        [exact (Forall_lookup_1 _ _ _ _ Hold Eo)|done|].
      case_bool_decide as Hh; cbn [negb]; [rewrite Eq|]; cbn [bind orb];
        (rewrite IH by done; fields; f_equal; f_equal;
         [rewrite (drop_lookup_cons old i o Eo); cbn [length take];
          rewrite reverse_cons; by rewrite <-app_assoc
         |by rewrite <-app_assoc]).
    + rewrite IH by done. fields. f_equal. f_equal.
      * apply lookup_ge_None in Eo.
        rewrite !drop_ge by lia. by rewrite !take_nil.
      * by rewrite <-app_assoc.
Qed.

Lemma partition_loop_updated i old news qc P :
  Forall Router.plain_query_params old → Forall Router.plain_query_params news →
  ∃ m, m ≤ length news
    ∧ Router.partition_loop i old news false true qc P
      = Ok (Router.Partition.mk
              (Router.Partition.updatedContext P ++ take m news)
              (reverse (take (length news - m) (drop (i + m) old))
               ++ Router.Partition.exited P)
              (Router.Partition.entered P ++ drop m news)
              (Router.Partition.unchanged P))
    ∧ (∀ k n, k < m → news !! k = Some n →
         ∃ o, old !! (i + k) = Some o
              ∧ Router.HandlerInfo.handler o = Router.HandlerInfo.handler n)
    ∧ (m < length news → ∀ o n,
         old !! (i + m) = Some o → news !! m = Some n →
         Router.HandlerInfo.handler o ≠ Router.HandlerInfo.handler n).
Proof.
  intros Hold. revert i qc P.
  induction news as [|n news IH]; intros i qc P Hnew.
  - exists 0. split; [done|]. split; [|split].
    + simpl. rewrite !app_nil_r. by destruct P.
    + intros k n Hk. lia.
    + simpl. lia.
  - apply Forall_cons in Hnew as [Hn Hnew].
    cbn [Router.partition_loop]. destruct (old !! i) as [o|] eqn:Eo.
    + destruct (compare_returns o n) as [b Eq];
        [exact (Forall_lookup_1 _ _ _ _ Hold Eo)|done|].
      case_bool_decide as Hh; cbn [negb]; [rewrite Eq|]; cbn [bind orb].
      * destruct (IH (S i) (qc || negb b)
                    (Router.Partition.mk
                       (Router.Partition.updatedContext P ++ [n])
                       (Router.Partition.exited P)
                       (Router.Partition.entered P)
                       (Router.Partition.unchanged P)) Hnew)
          as (m & Hm & -> & Hsame & Hstop).
        exists (S m). split; [simpl; lia|]. split; [|split].
        -- fields. f_equal. f_equal.
           ++ by rewrite <-app_assoc.
           ++ by replace (i + S m) with (S i + m) by lia.
        -- intros [|k] n' Hk Hn'.
           ++ injection Hn' as <-. exists o. by rewrite Nat.add_0_r.
           ++ destruct (Hsame k n') as (o' & Ho' & Heq); [lia|done|].
              exists o'. split; [|done].
              by replace (i + S k) with (S i + k) by lia.
        -- intros Hlt o' n' Ho' Hn'. apply (Hstop ltac:(simpl in Hlt; lia)).
           ++ by replace (S i + m) with (i + S m) by lia.
           ++ done.
      * rewrite partition_loop_changed by done. exists 0.
        split; [simpl; lia|]. split; [|split].
        -- fields. rewrite app_nil_r, Nat.add_0_r, Nat.sub_0_r.
           f_equal. f_equal.
           ++ rewrite (drop_lookup_cons old i o Eo). cbn [length take].
              rewrite reverse_cons. by rewrite <-app_assoc.
           ++ by rewrite <-app_assoc.
        -- intros k n' Hk. lia.
        -- intros _ o' n'. rewrite Nat.add_0_r, Eo. by intros [= <-] [= <-].
    + rewrite partition_loop_changed by done. exists 0.
      split; [simpl; lia|]. split; [|split].
      * fields. rewrite app_nil_r, Nat.add_0_r, Nat.sub_0_r.
        f_equal. f_equal.
        -- apply lookup_ge_None in Eo.
           rewrite !drop_ge by lia. by rewrite !take_nil.
        -- by rewrite <-app_assoc.
      * intros k n' Hk. lia.
      * intros _ o' n'. by rewrite Nat.add_0_r, Eo.
Qed.

Lemma partition_loop_start i old news P :
  Forall Router.plain_query_params old → Forall Router.plain_query_params news →
  ∃ a m, a + m ≤ length news
    ∧ Router.partition_loop i old news false false false P
      = Ok (Router.Partition.mk
              (Router.Partition.updatedContext P ++ take m (drop a news))
              (reverse (take (length news - (a + m))
                          (drop (i + (a + m)) old))
               ++ Router.Partition.exited P)
              (Router.Partition.entered P ++ drop (a + m) news)
              (Router.Partition.unchanged P ++ take a (drop i old)))
    ∧ (∀ k n, k < a + m → news !! k = Some n →
         ∃ o, old !! (i + k) = Some o
              ∧ Router.HandlerInfo.handler o = Router.HandlerInfo.handler n)
    ∧ (∀ k n, k < a → news !! k = Some n →
         ∃ o, old !! (i + k) = Some o
              ∧ Router.HandlerInfo.context o = Router.HandlerInfo.context n
              ∧ Router.queryParamsEqual (Router.HandlerInfo.queryParams o)
                  (Router.HandlerInfo.queryParams n) = Ok true)
    ∧ (0 < m →
         ∃ o n, old !! (i + a) = Some o ∧ news !! a = Some n
                ∧ (Router.HandlerInfo.context o ≠ Router.HandlerInfo.context n
                   ∨ Router.queryParamsEqual
                       (Router.HandlerInfo.queryParams o)
                       (Router.HandlerInfo.queryParams n) = Ok false))
    ∧ (a + m < length news → ∀ o n,
         old !! (i + (a + m)) = Some o → news !! (a + m) = Some n →
         Router.HandlerInfo.handler o ≠ Router.HandlerInfo.handler n).
Proof.
  intros Hold. revert i P.
  induction news as [|n news IH]; intros i P Hnew.
  - exists 0, 0. split; [done|]. split; [|repeat split].
    + simpl. rewrite !app_nil_r. by destruct P.
    + intros k n Hk. lia.
    + intros k n Hk. lia.
    + lia.
    + simpl. lia.
  - apply Forall_cons in Hnew as [Hn Hnew].
    cbn [Router.partition_loop]. destruct (old !! i) as [o|] eqn:Eo.
    + destruct (compare_returns o n) as [b Eq];
        [exact (Forall_lookup_1 _ _ _ _ Hold Eo)|done|].
      case_bool_decide as Hh; cbn [negb]; [rewrite Eq|]; cbn [bind orb].
      * destruct b; cbn [negb].
        -- case_bool_decide as Hc; cbn [negb orb].
           ++ (* unchanged *)
              destruct (IH (S i)
                          (Router.Partition.mk
                             (Router.Partition.updatedContext P)
                             (Router.Partition.exited P)
                             (Router.Partition.entered P)
                             (Router.Partition.unchanged P ++ [o])) Hnew)
                as (a & m & Ham & -> & Hsame & Hun & Hup & Hstop).
              exists (S a), m. split; [simpl; lia|]. split; [|repeat split].
              ** fields. f_equal. f_equal.
                 --- by replace (i + (S a + m)) with (S i + (a + m)) by lia.
                 --- rewrite <-app_assoc. f_equal.
                     by rewrite (drop_lookup_cons old i o Eo).
              ** intros [|k] n' Hk Hn'.
                 --- injection Hn' as <-. exists o. by rewrite Nat.add_0_r.
                 --- destruct (Hsame k n') as (o' & Ho' & Heq); [lia|done|].
                     exists o'. split; [|done].
                     by replace (i + S k) with (S i + k) by lia.
              ** intros [|k] n' Hk Hn'.
                 --- injection Hn' as <-. exists o. by rewrite Nat.add_0_r.
                 --- destruct (Hun k n') as (o' & Ho' & Heq); [lia|done|].
                     exists o'. split; [|done].
                     by replace (i + S k) with (S i + k) by lia.
              ** intros Hm. destruct (Hup Hm) as (o' & n' & Ho' & Hn' & Hd).
                 exists o', n'. split; [|done].
                 by replace (i + S a) with (S i + a) by lia.
              ** intros Hlt o' n' Ho' Hn'.
                 apply (Hstop ltac:(simpl in Hlt; lia)).
                 --- by replace (S i + (a + m)) with (i + (S a + m)) by lia.
                 --- done.
           ++ (* the context differs *)
              destruct (partition_loop_updated (S i) old news false
                          (Router.Partition.mk
                             (Router.Partition.updatedContext P ++ [n])
                             (Router.Partition.exited P)
                             (Router.Partition.entered P)
                             (Router.Partition.unchanged P)) Hold Hnew)
                as (m & Hm & -> & Hsame & Hstop).
              exists 0, (S m). split; [simpl; lia|]. split; [|repeat split].
              ** fields. rewrite app_nil_r. f_equal. f_equal.
                 --- by rewrite <-app_assoc.
                 --- by replace (i + (0 + S m)) with (S i + m) by lia.
              ** intros [|k] n' Hk Hn'.
                 --- injection Hn' as <-. exists o. by rewrite Nat.add_0_r.
                 --- destruct (Hsame k n') as (o' & Ho' & Heq); [lia|done|].
                     exists o'. split; [|done].
                     by replace (i + S k) with (S i + k) by lia.
              ** intros k n' Hk. lia.
              ** intros _. exists o, n. rewrite Nat.add_0_r.
                 split; [done|]. split; [done|]. by left.
              ** intros Hlt o' n' Ho' Hn'.
                 apply (Hstop ltac:(simpl in Hlt; lia)).
                 --- by replace (S i + m) with (i + (0 + S m)) by lia.
                 --- done.
        -- (* the query params differ *)
           rewrite orb_true_r.
           destruct (partition_loop_updated (S i) old news true
                       (Router.Partition.mk
                          (Router.Partition.updatedContext P ++ [n])
                          (Router.Partition.exited P)
                          (Router.Partition.entered P)
                          (Router.Partition.unchanged P)) Hold Hnew)
             as (m & Hm & -> & Hsame & Hstop).
           exists 0, (S m). split; [simpl; lia|]. split; [|repeat split].
           ++ fields. rewrite app_nil_r. f_equal. f_equal.
              ** by rewrite <-app_assoc.
              ** by replace (i + (0 + S m)) with (S i + m) by lia.
           ++ intros [|k] n' Hk Hn'.
              ** injection Hn' as <-. exists o. by rewrite Nat.add_0_r.
              ** destruct (Hsame k n') as (o' & Ho' & Heq); [lia|done|].
                 exists o'. split; [|done].
                 by replace (i + S k) with (S i + k) by lia.
           ++ intros k n' Hk. lia.
           ++ intros _. exists o, n. rewrite Nat.add_0_r.
              split; [done|]. split; [done|]. by right.
           ++ intros Hlt o' n' Ho' Hn'.
              apply (Hstop ltac:(simpl in Hlt; lia)).
              ** by replace (S i + m) with (i + (0 + S m)) by lia.
              ** done.
      * rewrite partition_loop_changed by done. exists 0, 0.
        split; [simpl; lia|]. split; [|repeat split].
        -- fields. cbn [Nat.add take drop].
        rewrite !app_nil_r, !Nat.add_0_r, Nat.sub_0_r. f_equal. f_equal.
           ++ rewrite (drop_lookup_cons old i o Eo). cbn [length take].
              rewrite reverse_cons. by rewrite <-app_assoc.
           ++ by rewrite <-app_assoc.
        -- intros k n' Hk. lia.
        -- intros k n' Hk. lia.
        -- lia.
        -- intros _ o' n'. rewrite Nat.add_0_r, Eo. by intros [= <-] [= <-].
    + rewrite partition_loop_changed by done. exists 0, 0.
      split; [simpl; lia|]. split; [|repeat split].
      * fields. cbn [Nat.add take drop].
        rewrite !app_nil_r, !Nat.add_0_r, Nat.sub_0_r. f_equal. f_equal.
        -- apply lookup_ge_None in Eo.
           rewrite !drop_ge by lia. by rewrite !take_nil.
        -- by rewrite <-app_assoc.
      * intros k n' Hk. lia.
      * intros k n' Hk. lia.
      * lia.
      * intros _ o' n'. by rewrite Nat.add_0_r, Eo.
Qed.

(** X9. For handler infos whose query params have no own property
    [hasOwnProperty], [partitionHandlers] returns, and cuts the new handler
    infos at two indices [i <= j]: up to [i] the old infos are kept as
    [unchanged] (same handler, same context, equal query params); from [i]
    to [j] the new infos are [updatedContext] (same handlers, the first of
    them with another context or other query params); from [j] on, where
    the old handler is missing or another one, the new infos are [entered],
    and the old infos from [j] on are [exited], listed from the leaf
    upwards. *)
Theorem partitionHandlers_shape old new :
  (∀ info, info ∈ old ++ new →
     default ∅ (Router.HandlerInfo.queryParams info) !! "hasOwnProperty"
     = None) →
  ∃ r, Router.partitionHandlers old new = Ok r
  ∧ ∃ i j, i ≤ j ≤ length new
    ∧ Router.Partition.unchanged r = take i old
    ∧ Router.Partition.updatedContext r = take (j - i) (drop i new)
    ∧ Router.Partition.entered r = drop j new
    ∧ Router.Partition.exited r = reverse (drop j old)
    ∧ (∀ k n, k < j → new !! k = Some n →
         ∃ o, old !! k = Some o
              ∧ Router.HandlerInfo.handler o = Router.HandlerInfo.handler n)
    ∧ (∀ k n, k < i → new !! k = Some n →
         ∃ o, old !! k = Some o
              ∧ Router.HandlerInfo.context o = Router.HandlerInfo.context n
              ∧ Router.queryParamsEqual (Router.HandlerInfo.queryParams o)
                  (Router.HandlerInfo.queryParams n) = Ok true)
    ∧ (i < j →
         ∃ o n, old !! i = Some o ∧ new !! i = Some n
                ∧ (Router.HandlerInfo.context o ≠ Router.HandlerInfo.context n
                   ∨ Router.queryParamsEqual
                       (Router.HandlerInfo.queryParams o)
                       (Router.HandlerInfo.queryParams n) = Ok false))
    ∧ (j < length new → ∀ o n,
         old !! j = Some o → new !! j = Some n →
         Router.HandlerInfo.handler o ≠ Router.HandlerInfo.handler n).
Proof.
  intros Hplain. unfold Router.partitionHandlers.
  destruct (partition_loop_start 0 old new (Router.Partition.mk [] [] [] []))
    as (a & m & Ham & -> & Hsame & Hun & Hup & Hstop).
  { apply Forall_forall. intros info Hin. apply Hplain, elem_of_app. by left. }
  { apply Forall_forall. intros info Hin. apply Hplain, elem_of_app. by right. }
  cbn [bind]. eexists. split; [done|].
  exists a, (a + m). fields. cbn [Nat.add drop app] in *.
  split; [lia|]. split; [done|]. split; [by replace (a + m - a) with m by lia|].
  split; [done|]. split; [|split; [done|]; split; [done|]; split; [|done]].
  - rewrite app_nil_r, <-reverse_app. f_equal.
    rewrite <-(take_drop (length new - (a + m)) (drop (a + m) old)) at 2.
    f_equal. rewrite drop_drop. f_equal. lia.
  - intros Hlt. apply Hup. lia.
Qed.

End Partition.

Lemma partitionHandlers_shape_witness :
  let old :=
    [Router.HandlerInfo.mk false "application" "application" 0 None;
     Router.HandlerInfo.mk false "posts" "posts" 0
       (Some {["page" := Router.VString "1"]});
     Router.HandlerInfo.mk true "post" "post" 1 None] in
  let new :=
    [Router.HandlerInfo.mk false "application" "application" 0 None;
     Router.HandlerInfo.mk false "posts" "posts" 0
       (Some {["page" := Router.VString "2"]});
     Router.HandlerInfo.mk false "about" "about" 0 None] in
  (∀ info, info ∈ old ++ new →
     default ∅ (Router.HandlerInfo.queryParams info) !! "hasOwnProperty"
     = None)
  ∧ ∃ r, Router.partitionHandlers old new = Ok r
    ∧ ∃ i j, i ≤ j ≤ length new
      ∧ Router.Partition.unchanged r = take i old
      ∧ Router.Partition.updatedContext r = take (j - i) (drop i new)
      ∧ Router.Partition.entered r = drop j new
      ∧ Router.Partition.exited r = reverse (drop j old)
      ∧ (∀ k n, k < j → new !! k = Some n →
           ∃ o, old !! k = Some o
                ∧ Router.HandlerInfo.handler o = Router.HandlerInfo.handler n)
      ∧ (∀ k n, k < i → new !! k = Some n →
           ∃ o, old !! k = Some o
                ∧ Router.HandlerInfo.context o = Router.HandlerInfo.context n
                ∧ Router.queryParamsEqual (Router.HandlerInfo.queryParams o)
                    (Router.HandlerInfo.queryParams n) = Ok true)
      ∧ (i < j →
           ∃ o n, old !! i = Some o ∧ new !! i = Some n
                  ∧ (Router.HandlerInfo.context o
                     ≠ Router.HandlerInfo.context n
                     ∨ Router.queryParamsEqual
                         (Router.HandlerInfo.queryParams o)
                         (Router.HandlerInfo.queryParams n) = Ok false))
      ∧ (j < length new → ∀ o n,
           old !! j = Some o → new !! j = Some n →
           Router.HandlerInfo.handler o ≠ Router.HandlerInfo.handler n).
Proof.
  intros old new.
  assert (∀ info, info ∈ old ++ new →
            default ∅ (Router.HandlerInfo.queryParams info)
              !! "hasOwnProperty" = None) as Hplain.
  { intros info Hin. subst old new.
    repeat (apply elem_of_cons in Hin as [->|Hin]; [by vm_compute|]).
    by apply elem_of_nil in Hin. }
  split; [exact Hplain|].
  exact (partitionHandlers_shape old new Hplain).
Defined.

(** The partition of that example: the application is unchanged, [posts]
    has its context updated for the other page, [about] is entered and
    [post] is exited. *)
Lemma partitionHandlers_example :
  Router.partitionHandlers
    [Router.HandlerInfo.mk false "application" "application" 0 None;
     Router.HandlerInfo.mk false "posts" "posts" 0
       (Some {["page" := Router.VString "1"]});
     Router.HandlerInfo.mk true "post" "post" 1 None]
    [Router.HandlerInfo.mk false "application" "application" 0 None;
     Router.HandlerInfo.mk false "posts" "posts" 0
       (Some {["page" := Router.VString "2"]});
     Router.HandlerInfo.mk false "about" "about" 0 None]
  = Ok (Router.Partition.mk
          [Router.HandlerInfo.mk false "posts" "posts" 0
             (Some {["page" := Router.VString "2"]})]
          [Router.HandlerInfo.mk true "post" "post" 1 None]
          [Router.HandlerInfo.mk false "about" "about" 0 None]
          [Router.HandlerInfo.mk false "application" "application" 0 None])
  ∧ Router.partitionHandlers
      [Router.HandlerInfo.mk false "posts" "posts" 0
         (Some {["hasOwnProperty" := Router.VString "1"]})]
      [Router.HandlerInfo.mk false "posts" "posts" 0 None]
    = Throw TypeError.
Proof. split; by vm_compute. Qed.

(** ** Event bubbling *)

Section Events.

Context {H C : Type}.
Variable events : H → string → option bool.

Implicit Types infos pre post : list (Router.HandlerInfo.t H C).

Lemma trigger_loop_through name infos e called :
  Forall (λ h, events h name ≠ Some false)
    (Router.HandlerInfo.handler <$> infos) →
  Router.trigger_loop events name infos e called
  = (called ++ filter (λ h, is_Some (events h name))
                 (Router.HandlerInfo.handler <$> infos),
     Some (e || negb (bool_decide
                        (filter (λ h, is_Some (events h name))
                           (Router.HandlerInfo.handler <$> infos) = [])))).
Proof.
  revert e called. induction infos as [|info infos IH]; intros e called.
  - intros _. simpl. by rewrite app_nil_r, orb_false_r.
  - rewrite fmap_cons. intros [Hh Hall]%Forall_cons. cbn [Router.trigger_loop].
    destruct (events (Router.HandlerInfo.handler info) name) as [[]|] eqn:E.
    + rewrite IH by done. rewrite filter_cons_True by (rewrite E; by eexists).
      rewrite <-app_assoc. by rewrite orb_true_r.
    + done.
    + rewrite IH by done.
      by rewrite filter_cons_False by (rewrite E; by intros [? ?]).
Qed.

Lemma trigger_loop_stopped name pre (info : Router.HandlerInfo.t H C) post
    e called :
  Forall (λ h, events h name ≠ Some false)
    (Router.HandlerInfo.handler <$> pre) →
  events (Router.HandlerInfo.handler info) name = Some false →
  Router.trigger_loop events name (pre ++ info :: post) e called
  = (called ++ filter (λ h, is_Some (events h name))
                 (Router.HandlerInfo.handler <$> pre)
     ++ [Router.HandlerInfo.handler info], None).
Proof.
  intros Hpre Hinfo. revert e called Hpre.
  induction pre as [|p pre IH]; intros e called Hpre.
  - simpl. by rewrite Hinfo.
  - rewrite fmap_cons in Hpre. apply Forall_cons in Hpre as [Hp Hpre].
    rewrite <-app_comm_cons. cbn [Router.trigger_loop]. rewrite fmap_cons.
    destruct (events (Router.HandlerInfo.handler p) name) as [[]|] eqn:E.
    + rewrite IH by done. rewrite filter_cons_True by (rewrite E; by eexists).
      by rewrite <-!app_assoc.
    + done.
    + rewrite IH by done.
      by rewrite filter_cons_False by (rewrite E; by intros [? ?]).
Qed.

(** X10. [trigger] offers an event to the handlers from the leaf upwards
    and calls the function of each handler that has one for it, until a
    function returns something other than [true]; it throws ("Nothing
    handled the event") only if no handler has a function for the event
    and [ignoreFailure] is off, and ("There are no active handlers") only if
    there are no handler infos and [ignoreFailure] is off. *)
Theorem trigger_bubbles infos ignoreFailure name :
  let leafFirst : list H := Router.HandlerInfo.handler <$> reverse infos in
  let handling : list H → list H :=
    filter (λ h, is_Some (events h name)) in
  (Forall (λ h, events h name ≠ Some false) leafFirst →
   Router.trigger events (Some infos) ignoreFailure name
   = (handling leafFirst,
      match handling leafFirst with
      | [] => if ignoreFailure then None
              else Some (Router.NothingHandled name)
      | _ => None
      end))
  ∧ (∀ below h above,
       leafFirst = below ++ h :: above →
       Forall (λ g, events g name ≠ Some false) below →
       events h name = Some false →
       Router.trigger events (Some infos) ignoreFailure name
       = (handling below ++ [h], None))
  ∧ Router.trigger events (@None (list (Router.HandlerInfo.t H C)))
      ignoreFailure name
    = ([], if ignoreFailure then None
           else Some (Router.NoActiveHandlers name)).
Proof.
  intros leafFirst handling. split; [|split; [|done]].
  - intros Hall. unfold Router.trigger.
    rewrite trigger_loop_through by done. fold leafFirst. fold handling.
    simpl. by destruct (handling leafFirst).
  - intros below h above Hsplit Hpre Hh. subst leafFirst.
    apply fmap_app_inv in Hsplit as (ipre & irest & -> & Hrest & Hrev).
    symmetry in Hrest.
    apply fmap_cons_inv in Hrest as (info & ipost & -> & -> & ->).
    unfold Router.trigger. rewrite Hrev.
    by rewrite trigger_loop_stopped.
Qed.

End Events.

(** * Locations *)

Lemma remove_first_prefix p u : remove_first p (p ++ u) = u.
Proof.
  destruct p as [|a p]; [by destruct u|].
  rewrite <-app_comm_cons. cbn [remove_first].
  rewrite bool_decide_eq_true_2 by (rewrite app_comm_cons; by eexists).
  by rewrite app_comm_cons, drop_app_length.
Qed.

Lemma strip_trailing_slash_spec s :
  (∃ r, s = r +:+ "/" ∧ strip_trailing_slash s = r)
  ∨ (last (chars s) ≠ Some "/"%char ∧ strip_trailing_slash s = s).
Proof.
  unfold strip_trailing_slash. case_bool_decide as Hl; [left|by right].
  apply last_Some in Hl as [l' Hl]. exists (str l'). split.
  - apply chars_inj. by rewrite chars_app, chars_str.
  - unfold substr. rewrite <-chars_length, Hl, drop_0.
    rewrite length_app. cbn [length].
    replace (length l' + 1 - 1) with (length l') by lia.
    by rewrite take_app_length.
Qed.

(** X11. What [HistoryLocation.formatURL] makes of a URL,
    [HistoryLocation.getURL] reads back from the location: a URL that is
    not empty comes back as it was, followed by the location's query string
    when query params are enabled; the empty URL comes back as [/] if the
    root URL ends with a slash. *)
Theorem history_location_roundtrip isEnabled this url search :
  let shown :=
    HistoryLocation.mk (HistoryLocation.rootURL this)
      (HistoryLocation.mkLocation
         (HistoryLocation.formatURL this url) search) in
  HistoryLocation.getURL isEnabled shown
  = (if bool_decide (url = "")
     then if bool_decide (last (chars (HistoryLocation.rootURL this))
                          = Some "/"%char)
          then "/" else ""
     else url)
    +:+ (if isEnabled "query-params" then search else "").
Proof.
  intros shown. subst shown.
  unfold HistoryLocation.getURL, HistoryLocation.formatURL. simpl.
  set (root := HistoryLocation.rootURL this).
  assert (str (remove_first (chars (strip_trailing_slash root))
                 (chars ((if bool_decide (url = "") then root
                          else strip_trailing_slash root) +:+ url)))
          = if bool_decide (url = "")
            then if bool_decide (last (chars root) = Some "/"%char)
                 then "/" else ""
            else url) as ->.
  { case_bool_decide as Hu.
    - subst url.
      assert (root +:+ "" = root) as ->.
      { apply chars_inj. by rewrite chars_app, app_nil_r. }
      destruct (strip_trailing_slash_spec root) as [(r & Hr & ->)|[Hl ->]].
      + rewrite Hr, chars_app, remove_first_prefix.
        rewrite bool_decide_eq_true_2; [done|].
        rewrite last_app. done.
      + rewrite bool_decide_eq_false_2 by done.
        rewrite <-(app_nil_r (chars root)) at 2.
        by rewrite remove_first_prefix.
    - by rewrite chars_app, remove_first_prefix, str_chars. }
  destruct (isEnabled "query-params"); [done|].
  apply chars_inj. by rewrite chars_app, app_nil_r.
Qed.

(** X12. What [HashLocation.formatURL] makes of a URL, [HashLocation.getURL]
    reads back: if the page address is a base without [#] followed by the
    formatted URL, and [location.hash] is that formatted URL (or empty, as
    browsers report a fragment that is empty), then [getURL] returns the URL,
    with query params enabled or not. Without [#] in the address, [getURL]
    with query params enabled returns the empty string. *)
Theorem hash_location_roundtrip isEnabled base url hash :
  "#"%char ∉ chars base →
  hash = HashLocation.formatURL url ∨ (url = "" ∧ hash = "") →
  HashLocation.getURL isEnabled
    (HashLocation.mkLocation (base +:+ HashLocation.formatURL url) hash)
  = url
  ∧ HashLocation.getURL (λ _, true) (HashLocation.mkLocation base hash) = "".
Proof.
  intros Hbase Hhash. split.
  - unfold HashLocation.getURL, HashLocation.formatURL. simpl.
    destruct (isEnabled "query-params").
    + change ("#" +:+ url) with (String "#" url).
      rewrite indexOf_first by done.
      unfold substr_from. rewrite chars_app, chars_cons, <-chars_length.
      rewrite (cons_middle "#"%char), app_assoc.
      rewrite drop_app_length'; [|rewrite length_app; simpl; lia].
      apply str_chars.
    + destruct Hhash as [->|[-> ->]]; [|done].
      unfold HashLocation.formatURL, substr_from.
      change (chars ("#" +:+ url)) with ("#"%char :: chars url).
      simpl. apply str_chars.
  - unfold HashLocation.getURL. simpl. by rewrite indexOf_notin.
Qed.

Lemma history_location_roundtrip_witness :
  HistoryLocation.getURL (λ _, true)
    (HistoryLocation.mk "/app/"
       (HistoryLocation.mkLocation "/app/posts/1" "?page=2"))
  = "/posts/1?page=2".
Proof.
  exact (history_location_roundtrip (λ _, true)
           (HistoryLocation.mk "/app/" (HistoryLocation.mkLocation "" ""))
           "/posts/1" "?page=2").
Defined.

Lemma hash_location_roundtrip_witness :
  HashLocation.getURL (λ _, false)
    (HashLocation.mkLocation "http://example.com/#/posts/1" "#/posts/1")
  = "/posts/1"
  ∧ HashLocation.getURL (λ _, true)
      (HashLocation.mkLocation "http://example.com/" "#/posts/1") = "".
Proof.
  apply (hash_location_roundtrip (λ _, false) "http://example.com/"
           "/posts/1" "#/posts/1").
  - by apply not_elem_of_chars.
  - by left.
Defined.

(** * Route maps *)

(** ** Tables *)

Lemma oset_fresh {V} (o : list (string * V)) key v :
  key ∉ o.*1 → oset o key v = o ++ [(key, v)].
Proof.
  induction o as [|[k x] o IH]; [done|]. simpl.
  rewrite not_elem_of_cons. intros [Hne Hnin].
  rewrite bool_decide_eq_false_2 by done. by rewrite IH.
Qed.

Lemma oget_None {V} (o : list (string * V)) key :
  key ∉ o.*1 → oget o key = None.
Proof.
  unfold oget. induction o as [|[k x] o IH]; [done|]. simpl.
  rewrite not_elem_of_cons. intros [Hne Hnin].
  rewrite bool_decide_eq_false_2 by done. by apply IH.
Qed.

Lemma oget_omap {X V} (key : X → string) (g : X → option V) l m :
  NoDup (key <$> l) → m ∈ l →
  oget (omap (λ x, (λ v, (key x, v)) <$> g x) l) (key m) = g m.
Proof.
  unfold oget. induction l as [|x l IH]; intros Hnd Hin.
  - by apply elem_of_nil in Hin.
  - rewrite fmap_cons in Hnd. apply NoDup_cons in Hnd as [Hx Hnd].
    apply elem_of_cons in Hin as [->|Hin].
    + simpl. destruct (g x) as [v|] eqn:Eg; simpl.
      * by rewrite bool_decide_eq_true_2.
      * change (oget (omap (λ x0, (λ v, (key x0, v)) <$> g x0) l) (key x)
                = None).
        apply oget_None. intros Hk. apply Hx.
        apply list_elem_of_fmap in Hk as ([k v] & -> & Hkv).
        apply list_elem_of_omap in Hkv as (y & Hy & Hg).
        destruct (g y); [|done]. simpl in Hg. injection Hg as <- <-.
        apply list_elem_of_fmap. by exists y.
    + simpl. destruct (g x) as [v|]; simpl; [|by apply IH].
      rewrite bool_decide_eq_false_2; [by apply IH|].
      simpl. intros Heq. apply Hx. rewrite Heq.
      apply list_elem_of_fmap. by exists m.
Qed.

Lemma flat_map_ext_in {A B} (f g : A → list B) l :
  (∀ x, x ∈ l → f x = g x) → flat_map f l = flat_map g l.
Proof.
  induction l as [|a l IH]; [done|]. intros H. simpl.
  rewrite (H a) by (by left). f_equal. apply IH. intros x Hx. apply H.
  by right.
Qed.

Lemma flat_map_fmap {A B X} (g : X → A) (f : A → list B) l :
  flat_map f (g <$> l) = flat_map (λ x, f (g x)) l.
Proof.
  induction l as [|a l IH]; [done|].
  rewrite fmap_cons. cbn [flat_map]. by rewrite IH.
Qed.

Lemma fmap_flat_map {A B D} (h : B → D) (f : A → list B) l :
  h <$> flat_map f l = flat_map (λ x, h <$> f x) l.
Proof.
  induction l as [|a l IH]; [done|]. cbn [flat_map].
  by rewrite fmap_app, IH.
Qed.

Lemma sum_list_app l k : sum_list (l ++ k) = sum_list l + sum_list k.
Proof. induction l as [|a l IH]; simpl; lia. Qed.

Lemma substr_from_app p q : substr_from (p +:+ q) (String.length p) = q.
Proof.
  unfold substr_from.
  by rewrite chars_app, <-chars_length, drop_app_length, str_chars.
Qed.

Lemma append_inj p : Inj (=) (=) (λ q, p +:+ q).
Proof. intros q q' H. induction p as [|a p IH]; [done|]. injection H. auto. Qed.

(** ** What a generated callback builds, and what [eachRoute] reads *)

Section RouteMaps.

Variable isEnabled : string → bool.

Lemma call_match_unfold startingPath matcher url target callback queryParams :
  call_match isEnabled startingPath matcher
    (DslMatch.mk url target callback queryParams)
  = (let path := startingPath +:+ url in
     let matcher := Matcher.add matcher path target in
     matcher ←
       match callback with
       | Some dslMatches =>
           child ← call_matches isEnabled path (Matcher.new (Some target))
                     dslMatches;
           Some (Matcher.mk (Matcher.routes matcher)
                   (oset (Matcher.children matcher) path child)
                   (Matcher.queryParams matcher) (Matcher.target matcher))
       | None => Some matcher
       end;
     if isEnabled "query-params" then
       match queryParams with
       | Some [] => None
       | Some params => Some (Matcher.addQueryParams matcher path params)
       | None => Some matcher
       end
     else Some matcher).
Proof.
  cbn [call_match]. destruct callback as [dslMatches|]; [|done].
  cbv zeta. f_equal. f_equal.
  generalize (Matcher.new (Some target)).
  induction dslMatches as [|m ms IH]; intros child; [done|].
  cbn [call_matches]. destruct (call_match _ _ child m); [|done].
  simpl. apply IH.
Qed.

Lemma eachRoute_unfold baseRoute routes children queryParams target :
  eachRoute baseRoute (Matcher.mk routes children queryParams target)
  = flat_map (λ '(path, handler),
      let routeArray :=
        addRoute baseRoute path handler (oget queryParams path) in
      match oget children path with
      | Some child => eachRoute routeArray child
      | None => [routeArray]
      end) routes.
Proof.
  cbn [eachRoute]. apply flat_map_ext. intros [path handler]. cbv zeta.
  generalize (addRoute baseRoute path handler (oget queryParams path)).
  intros routeArray. unfold oget.
  induction children as [|[p c] children IH]; [done|]. simpl.
  case_bool_decide; [done|]. apply IH.
Qed.

Lemma child_of_matcher startingPath url name dslMatches queryParams :
  child_of isEnabled startingPath
    (DslMatch.mk url name (Some dslMatches) queryParams)
  = Some (startingPath +:+ url,
          matcher_of isEnabled (startingPath +:+ url) (Some name) dslMatches).
Proof. done. Qed.

Lemma child_of_key startingPath m :
  child_of isEnabled startingPath m
  = (λ child, (startingPath +:+ DslMatch.url m, child))
    <$> (snd <$> child_of isEnabled startingPath m).
Proof. by destruct m as [url name [ms|] q]. Qed.

Lemma NoDup_keys startingPath (dslMatches : list DslMatch.t) :
  NoDup (DslMatch.url <$> dslMatches) →
  NoDup ((λ m, startingPath +:+ DslMatch.url m) <$> dslMatches).
Proof.
  intros Hnd.
  rewrite (list_fmap_compose DslMatch.url (λ q, startingPath +:+ q)).
  apply NoDup_fmap_2; [apply append_inj|done].
Qed.

Lemma routes_of_keys startingPath (pre : list DslMatch.t) url :
  url ∉ DslMatch.url <$> pre →
  startingPath +:+ url ∉ (routes_of startingPath pre).*1.
Proof.
  intros Hnin Hin. apply Hnin. unfold routes_of in Hin.
  apply list_elem_of_fmap in Hin as ([k v] & Hk & Hkv). simpl in Hk.
  apply list_elem_of_fmap in Hkv as (y & [= -> ->] & Hy).
  apply append_inj in Hk as ->. apply list_elem_of_fmap. by exists y.
Qed.

Lemma children_keys startingPath (pre : list DslMatch.t) url :
  url ∉ DslMatch.url <$> pre →
  startingPath +:+ url ∉ (omap (child_of isEnabled startingPath) pre).*1.
Proof.
  intros Hnin Hin. apply Hnin.
  apply list_elem_of_fmap in Hin as ([k v] & Hk & Hkv). simpl in Hk.
  apply list_elem_of_omap in Hkv as (y & Hy & Hc).
  rewrite child_of_key in Hc.
  destruct (snd <$> child_of isEnabled startingPath y); [|done].
  simpl in Hc. injection Hc as <- _.
  apply append_inj in Hk as ->. apply list_elem_of_fmap. by exists y.
Qed.

Lemma queryParams_keys startingPath (pre : list DslMatch.t) url :
  url ∉ DslMatch.url <$> pre →
  startingPath +:+ url ∉ (queryParams_of isEnabled startingPath pre).*1.
Proof.
  intros Hnin Hin. apply Hnin.
  apply list_elem_of_fmap in Hin as ([k v] & Hk & Hkv). simpl in Hk.
  apply list_elem_of_omap in Hkv as (y & Hy & Hc).
  destruct (isEnabled "query-params"); [|done].
  destruct (DslMatch.queryParams y); [|done].
  simpl in Hc. injection Hc as <- _.
  apply append_inj in Hk as ->. apply list_elem_of_fmap. by exists y.
Qed.

Lemma routes_of_snoc startingPath pre m :
  routes_of startingPath (pre ++ [m])
  = routes_of startingPath pre
    ++ [(startingPath +:+ DslMatch.url m, DslMatch.name m)].
Proof. unfold routes_of. by rewrite fmap_app. Qed.

Lemma omap_snoc {A B} (f : A → option B) pre m :
  omap f (pre ++ [m])
  = omap f pre ++ match f m with Some x => [x] | None => [] end.
Proof. rewrite omap_app. simpl. by destruct (f m). Qed.

Lemma queryParams_of_snoc startingPath pre m :
  queryParams_of isEnabled startingPath (pre ++ [m])
  = queryParams_of isEnabled startingPath pre
    ++ match (if isEnabled "query-params" then DslMatch.queryParams m
              else None) with
       | Some params => [(startingPath +:+ DslMatch.url m, params)]
       | None => []
       end.
Proof.
  unfold queryParams_of. rewrite omap_snoc. f_equal.
  destruct (isEnabled "query-params"); [|done].
  by destruct (DslMatch.queryParams m).
Qed.

Lemma call_matches_built dslMatches :
  well_formed isEnabled dslMatches →
  ∀ startingPath target,
    call_matches isEnabled startingPath (Matcher.new target) dslMatches
    = Some (matcher_of isEnabled startingPath target dslMatches).
Proof.
  induction 1 as [ms Hnd Hqp _ IH]. intros sp t.
  assert (∀ post pre, pre ++ post = ms →
            call_matches isEnabled sp (matcher_of isEnabled sp t pre) post
            = Some (matcher_of isEnabled sp t ms)) as Hgen.
  { induction post as [|m post IHpost]; intros pre Hms.
    - rewrite app_nil_r in Hms. by subst.
    - assert (m ∈ ms) as Hm.
      { rewrite <-Hms. apply elem_of_app. right. by left. }
      assert (DslMatch.url m ∉ DslMatch.url <$> pre) as Hfresh.
      { rewrite <-Hms, fmap_app, fmap_cons in Hnd.
        apply NoDup_app in Hnd as (_ & Hd & _).
        intros Hin. apply (Hd _ Hin). by left. }
      cbn [call_matches].
      assert (call_match isEnabled sp (matcher_of isEnabled sp t pre) m
              = Some (matcher_of isEnabled sp t (pre ++ [m]))) as ->.
      { specialize (Hqp m Hm). specialize (IH m).
        destruct m as [url name cb q]. simpl in Hfresh, Hqp.
        rewrite call_match_unfold. cbv zeta.
        unfold Matcher.add, matcher_of. cbn [Matcher.routes Matcher.children
          Matcher.queryParams Matcher.target].
        rewrite (oset_fresh (routes_of sp pre))
          by (by apply routes_of_keys).
        rewrite routes_of_snoc, omap_snoc, queryParams_of_snoc.
        cbn [DslMatch.url DslMatch.name DslMatch.queryParams].
        destruct cb as [ms'|].
        - rewrite (IH ms' Hm eq_refl). cbn [mbind option_bind].
          rewrite (oset_fresh (omap (child_of isEnabled sp) pre))
            by (by apply children_keys).
          rewrite child_of_matcher.
          destruct (isEnabled "query-params") eqn:Ef.
          + destruct q as [[|x l]|]; [by destruct Hqp|..].
            * unfold Matcher.addQueryParams. cbn [Matcher.routes
                Matcher.children Matcher.queryParams Matcher.target].
              rewrite (oset_fresh (queryParams_of isEnabled sp pre))
                by (by apply queryParams_keys).
              done.
            * by rewrite !app_nil_r.
          + by rewrite !app_nil_r.
        - cbn [mbind option_bind child_of]. rewrite app_nil_r.
          destruct (isEnabled "query-params") eqn:Ef.
          + destruct q as [[|x l]|]; [by destruct Hqp|..].
            * unfold Matcher.addQueryParams. cbn [Matcher.routes
                Matcher.children Matcher.queryParams Matcher.target].
              rewrite (oset_fresh (queryParams_of isEnabled sp pre))
                by (by apply queryParams_keys).
              done.
            * by rewrite !app_nil_r.
          + by rewrite !app_nil_r. }
      cbn [mbind option_bind]. apply IHpost.
      by rewrite <-app_assoc. }
  apply (Hgen ms []). done.
Qed.

Lemma oget_queryParams_of startingPath dslMatches m :
  NoDup (DslMatch.url <$> dslMatches) → m ∈ dslMatches →
  oget (queryParams_of isEnabled startingPath dslMatches)
    (startingPath +:+ DslMatch.url m)
  = if isEnabled "query-params" then DslMatch.queryParams m else None.
Proof.
  intros Hnd Hm. unfold queryParams_of.
  rewrite (list_omap_ext _
             (λ x, (λ v, (startingPath +:+ DslMatch.url x, v))
                   <$> (if isEnabled "query-params"
                        then DslMatch.queryParams x else None)) _ dslMatches).
  - apply (oget_omap (λ x, startingPath +:+ DslMatch.url x));
      [by apply NoDup_keys|done].
  - apply Forall2_same_length_lookup. split; [done|].
    intros i x y Hx Hy. rewrite Hx in Hy. injection Hy as <-.
    by destruct (isEnabled "query-params").
Qed.

Lemma oget_children startingPath dslMatches m :
  NoDup (DslMatch.url <$> dslMatches) → m ∈ dslMatches →
  oget (omap (child_of isEnabled startingPath) dslMatches)
    (startingPath +:+ DslMatch.url m)
  = snd <$> child_of isEnabled startingPath m.
Proof.
  intros Hnd Hm.
  rewrite (list_omap_ext _
             (λ x, (λ v, (startingPath +:+ DslMatch.url x, v))
                   <$> (snd <$> child_of isEnabled startingPath x))
             _ dslMatches).
  - apply (oget_omap (λ x, startingPath +:+ DslMatch.url x)
             (λ x, snd <$> child_of isEnabled startingPath x));
      [by apply NoDup_keys|done].
  - apply Forall2_same_length_lookup. split; [done|].
    intros i x y Hx Hy. rewrite Hx in Hy. injection Hy as <-.
    apply child_of_key.
Qed.

Lemma eachRoute_built dslMatches :
  well_formed isEnabled dslMatches →
  ∀ startingPath target baseRoute,
    sum_list (String.length ∘ Route.path <$> baseRoute)
    = String.length startingPath →
    eachRoute baseRoute (matcher_of isEnabled startingPath target dslMatches)
    = flat_map (λ m, (λ routes, baseRoute ++ routes)
                     <$> route_arrays isEnabled m) dslMatches.
Proof.
  induction 1 as [ms Hnd Hqp _ IH]. intros sp t base Hsum.
  unfold matcher_of. rewrite eachRoute_unfold. unfold routes_of.
  rewrite flat_map_fmap. apply flat_map_ext_in. intros m Hm. cbv zeta.
  rewrite oget_queryParams_of, oget_children by done.
  specialize (IH m). destruct m as [url name cb q].
  cbn [DslMatch.url DslMatch.name DslMatch.queryParams] in *.
  set (route := Route.mk url name
                  (if isEnabled "query-params" then q else None)).
  assert (addRoute base (sp +:+ url) name
            (if isEnabled "query-params" then q else None)
          = base ++ [route]) as ->.
  { unfold addRoute. by rewrite Hsum, substr_from_app. }
  destruct cb as [ms'|].
  - rewrite child_of_matcher. cbn [fmap option_fmap option_map snd].
    rewrite (IH ms' Hm eq_refl).
    + cbn [route_arrays]. fold route.
      rewrite <-list_fmap_compose, fmap_flat_map. apply flat_map_ext.
      intros m'. apply list_fmap_ext. intros _ routes _. simpl.
      by rewrite <-app_assoc.
    + rewrite fmap_app, sum_list_app, Hsum, append_length. simpl. lia.
  - done.
Qed.

Lemma Router_map_flat recognizer callback :
  well_formed isEnabled callback →
  Router_map isEnabled recognizer callback
  = Some (foldl register recognizer
            ((λ routes, (routes, Route.handler <$> last routes))
             <$> flat_map (route_arrays isEnabled) callback))
  ∧ RouteRecognizer_map isEnabled recognizer callback None
    = Some (foldl register recognizer
              ((λ routes, (routes, None))
               <$> flat_map (route_arrays isEnabled) callback)).
Proof.
  intros Hwf. unfold Router_map, RouteRecognizer_map.
  rewrite (call_matches_built _ Hwf). cbn [mbind option_bind].
  rewrite (eachRoute_built _ Hwf "" None []) by done.
  assert (flat_map (λ m, (λ routes, [] ++ routes)
                         <$> route_arrays isEnabled m) callback
          = flat_map (route_arrays isEnabled) callback) as ->.
  { apply flat_map_ext. intros m. apply list_fmap_id. }
  generalize (flat_map (route_arrays isEnabled) callback). intros arrays.
  split; f_equal; revert recognizer;
    (induction arrays as [|routes arrays IH]; intros recognizer; [done|]);
    rewrite fmap_cons; cbn [foldl]; apply IH.
Qed.

(** X13. [Router.prototype.map], given a callback that [DSL.generate]
    returned, on which no path repeats under one parent, whose outermost
    paths start with [/] and which never gives [withQueryParams] an empty
    list: every entry without a callback becomes one registration, made
    of the routes from the outermost entry down to it, each with the path
    and handler of its own entry (and its query params if they are
    enabled), under the name of the last handler; the registrations are made
    in the order of the entries. [RouteRecognizer.prototype.map] without an
    [addRouteCallback] makes the same registrations without names. *)
Theorem Router_map_registers recognizer callback :
  Forall (λ m, ∃ rest, DslMatch.url m = String "/" rest) callback →
  well_formed isEnabled callback →
  Router_map isEnabled recognizer callback
  = Some (foldl register recognizer
            ((λ routes, (routes, Route.handler <$> last routes))
             <$> flat_map (route_arrays isEnabled) callback))
  ∧ RouteRecognizer_map isEnabled recognizer callback None
    = Some (foldl register recognizer
              ((λ routes, (routes, None))
               <$> flat_map (route_arrays isEnabled) callback)).
Proof. intros _. apply Router_map_flat. Qed.

End RouteMaps.

(** ** Ember's router DSL *)

Section EmberDSL.

Variable isEnabled : string → bool.

Lemma extends_dsl_refl this : extends_dsl this this.
Proof. done. Qed.

Lemma extends_dsl_trans a b c :
  extends_dsl a b → extends_dsl b c → extends_dsl a c.
Proof.
  intros (? & ? & ?) (? & ? & ?). split; [congruence|].
  split; [by etrans|auto].
Qed.

Lemma push_extends this url name callback queryParams :
  extends_dsl this (DSL.push this url name callback queryParams).
Proof.
  split; [done|]. split; [by apply prefix_app_r|].
  intros Hi. unfold indexed, DSL.push. simpl.
  rewrite !orb_true_iff, !bool_decide_eq_true.
  intros [[[He|Hu]|Hu]|Hn]; apply Exists_app.
  - left. by apply Hi.
  - right. constructor. by left.
  - right. constructor. right. by left.
  - right. constructor. right. by right.
Qed.

Lemma route_extends this name options :
  extends_dsl this (DSL.route this name options).
Proof. apply push_extends. Qed.

Lemma prototype_route_extends this name options :
  extends_dsl this (DSL.prototype_route isEnabled this name options).
Proof.
  unfold DSL.prototype_route.
  destruct (isEnabled "ember-routing-named-substates").
  - eapply extends_dsl_trans; [apply route_extends|].
    eapply extends_dsl_trans; apply route_extends.
  - apply route_extends.
Qed.

Lemma resource_extends this name options nested :
  extends_dsl this (DSL.resource isEnabled this name options nested).
Proof.
  unfold DSL.resource.
  destruct (isEnabled "ember-routing-named-substates").
  - eapply extends_dsl_trans; [|eapply extends_dsl_trans; apply route_extends].
    destruct nested; apply push_extends.
  - destruct nested; apply push_extends.
Qed.

Lemma declares_extends callback :
  declares isEnabled callback → ∀ this, extends_dsl this (callback this).
Proof.
  induction 1 as [|callback name options _ IH
                  |callback name options nested _ IH _ _]; intros this.
  - apply extends_dsl_refl.
  - eapply extends_dsl_trans; [apply IH|apply prototype_route_extends].
  - eapply extends_dsl_trans; [apply IH|apply resource_extends].
Qed.

Lemma generate_indexed this :
  indexed this →
  DSL.matches this `prefix_of` DSL.generate isEnabled this
  ∧ Exists is_index (DSL.generate isEnabled this).
Proof.
  intros Hi. unfold DSL.generate.
  destruct (DSL.explicitIndex this) eqn:E; [by split; [|apply Hi]|].
  destruct (prototype_route_extends this "index"
              (DSL.mkOptions (Some "/") None)) as (_ & Hpre & _).
  split; [done|].
  unfold DSL.prototype_route.
  assert (Exists is_index
            (DSL.matches (DSL.route this "index"
                            (DSL.mkOptions (Some "/") None)))) as Hex.
  { unfold DSL.route, DSL.push. simpl. apply Exists_app. right.
    constructor. right. by left. }
  destruct (isEnabled "ember-routing-named-substates"); [|done].
  eapply Exists_impl; [|by intros ??]. 
  destruct (extends_dsl_trans _ _ _
              (route_extends (DSL.route this "index"
                                (DSL.mkOptions (Some "/") None))
                 "index_loading" (DSL.mkOptions None None))
              (route_extends _ "index_error"
                 (DSL.mkOptions
                    (Some "/_unused_dummy_error_path_route_index/:error")
                    None))) as (_ & [k Hk] & _).
  change ("index" +:+ "_loading") with "index_loading".
  change ("index" +:+ "_error") with "index_error".
  change ("/_unused_dummy_error_path_route_" +:+ "index" +:+ "/:error")
    with "/_unused_dummy_error_path_route_index/:error".
  rewrite Hk. apply Exists_app. by left.
Qed.

Lemma split_chars_nonempty c w : split_chars c w ≠ [].
Proof.
  destruct w as [|b w]; simpl; [done|].
  destruct (decide (b = c)); [done|]. by destruct (split_chars c w).
Qed.

Lemma split_chars_single c w x : split_chars c w = [x] → w = x.
Proof.
  revert x. induction w as [|a w IH]; intros x; simpl.
  - by intros [= <-].
  - destruct (decide (a = c)) as [->|Hne].
    + intros H. injection H as _ H. by apply split_chars_nonempty in H.
    + destruct (split_chars c w) as [|y ys] eqn:E;
        [by apply split_chars_nonempty in E|].
      intros [= <- ->]. by rewrite (IH y).
Qed.

Lemma last_split_chars c l k :
  c ∉ k → last (split_chars c (l ++ c :: k)) = Some k.
Proof.
  intros Hk. induction l as [|a l IH]; simpl.
  - rewrite decide_True by done. by rewrite split_chars_no_sep.
  - destruct (decide (a = c)) as [->|Hne].
    + destruct (split_chars c (l ++ c :: k)) eqn:E; [done|]. by rewrite <-IH.
    + destruct (split_chars c (l ++ c :: k)) as [|x xs] eqn:E; [done|].
      destruct xs; [|done]. simpl in IH. injection IH as ->.
      apply split_chars_single in E.
      apply (f_equal length) in E. rewrite length_app in E. simpl in E. lia.
Qed.

Lemma last_split_suffix parent suffix :
  "."%char ∉ chars suffix →
  last (split "." (parent +:+ String "." suffix)) = Some suffix.
Proof.
  intros Hs. unfold split. rewrite fmap_last, chars_app, chars_cons.
  rewrite last_split_chars by done. simpl. by rewrite str_chars.
Qed.

Lemma loading_entry_not_index parent : ¬ is_index (loading_entry parent).
Proof.
  unfold is_index, loading_entry. simpl. intros [?|[?|H]]; [done..|].
  destruct (_ || _).
  - by vm_compute in H.
  - change (parent +:+ ".loading") with (parent +:+ String "." "loading") in H.
    rewrite last_split_suffix in H by (by apply not_elem_of_chars). done.
Qed.

Lemma error_entry_not_index parent : ¬ is_index (error_entry parent).
Proof.
  unfold is_index, error_entry. simpl. intros [?|[?|H]]; [done..|].
  destruct (_ || _).
  - by vm_compute in H.
  - change (parent +:+ ".error") with (parent +:+ String "." "error") in H.
    rewrite last_split_suffix in H by (by apply not_elem_of_chars). done.
Qed.

(** The entries that the function generated for a nested DSL iterates
    over, when the callback of the resource is [callback]. *)
Lemma nested_entries parent callback :
  (∀ this, extends_dsl this (callback this)) →
  ∃ children,
    DSL.generate isEnabled
      (callback
         (DSL.route
            (DSL.route (DSL.new (Some parent)) "loading"
               (DSL.mkOptions None None))
            "error"
            (DSL.mkOptions
               (Some ("/_unused_dummy_error_path_route_" +:+ parent
                      +:+ "/:error")) None)))
    = loading_entry parent :: error_entry parent :: children
    ∧ Exists is_index children.
Proof.
  intros Hcb.
  set (dsl0 := DSL.route (DSL.route (DSL.new (Some parent)) "loading" _) _ _).
  assert (indexed dsl0) as Hi0.
  { destruct (extends_dsl_trans _ _ _
                (route_extends (DSL.new (Some parent)) "loading"
                   (DSL.mkOptions None None))
                (route_extends _ "error"
                   (DSL.mkOptions
                      (Some ("/_unused_dummy_error_path_route_" +:+ parent
                             +:+ "/:error")) None))) as (_ & _ & Hi).
    apply Hi. intros H. done. }
  destruct (Hcb dsl0) as (_ & [k1 Hk1] & Hi1).
  destruct (generate_indexed (callback dsl0) (Hi1 Hi0)) as [[k2 Hk2] Hex].
  assert (DSL.matches dsl0 = [loading_entry parent; error_entry parent])
    as Hm0 by done.
  exists (k1 ++ k2). rewrite Hk2, Hk1, Hm0 in Hex |- *. split; [done|].
  simpl in Hex. apply Exists_cons in Hex as [Hex|Hex];
    [by apply loading_entry_not_index in Hex|].
  apply Exists_cons in Hex as [Hex|Hex];
    [by apply error_entry_not_index in Hex|].
  done.
Qed.

(** X14. [resource] with a callback that only declares routes appends to
    the DSL an entry with the resource's path (by default [/] and its
    name), its name, and a generated callback whose entries begin with the
    resource's [loading] and [error] routes and include an index route: an
    entry whose path is empty or [/], or whose name ends in [index]. *)
Theorem resource_nested_routes this name options callback :
  declares isEnabled callback →
  ∃ children,
    DSL.matches (DSL.resource isEnabled this name options (Some callback))
      !! length (DSL.matches this)
    = Some (DslMatch.mk (default ("/" +:+ name) (DSL.path options)) name
              (Some (loading_entry name :: error_entry name :: children))
              (DSL.queryParams options))
    ∧ Exists is_index children.
Proof.
  intros Hd.
  destruct (nested_entries name callback (declares_extends callback Hd))
    as (children & Hgen & Hex).
  exists children. split; [|done].
  unfold DSL.resource. rewrite Hgen.
  set (entry := DslMatch.mk _ name _ _).
  set (pushed := DSL.push this _ name _ _).
  assert (DSL.matches pushed !! length (DSL.matches this) = Some entry)
    as Hl.
  { unfold pushed, DSL.push. simpl. rewrite lookup_app_r by done.
    by rewrite Nat.sub_diag. }
  destruct (isEnabled "ember-routing-named-substates"); [|done].
  match goal with
  | |- DSL.matches (DSL.route (DSL.route _ ?n1 ?o1) ?n2 ?o2) !! _ = _ =>
      destruct (extends_dsl_trans _ _ _ (route_extends pushed n1 o1)
                  (route_extends _ n2 o2)) as (_ & [k Hk] & _)
  end.
  rewrite Hk. by apply lookup_app_l_Some.
Qed.

(** X15. The DSL that [Ember.Router.map] builds from callbacks that only
    declare routes generates one entry for the application, with path [/],
    whose callback begins with the [loading] and [error] routes and
    includes an index route, followed by the application's two substates
    when named substates are enabled. If no path repeats under one parent in
    these entries (and no empty list of query params is given), every entry
    without a callback is registered, under the name of its handler, as the
    chain of routes that leads to it. *)
Theorem EmberRouter_map_registers recognizer callbacks callback :
  Forall (declares isEnabled) callbacks →
  declares isEnabled callback →
  ∃ children,
    DSL.generate isEnabled (application_dsl isEnabled callbacks callback)
    = application_tree isEnabled children
    ∧ Exists is_index children
    ∧ (well_formed isEnabled (application_tree isEnabled children) →
       EmberRouter_map isEnabled recognizer callbacks callback
       = Some (foldl register recognizer
                 ((λ routes, (routes, Route.handler <$> last routes))
                  <$> flat_map (route_arrays isEnabled)
                        (application_tree isEnabled children)))).
Proof.
  intros Hcbs Hcb.
  assert (∀ this, extends_dsl this
                    (callback (foldl (λ this callback, callback this)
                                 this callbacks))) as Hext.
  { intros this. eapply extends_dsl_trans; [|by apply declares_extends].
    clear Hcb. revert this.
    induction Hcbs as [|cb cbs Hcb _ IH]; intros this.
    - apply extends_dsl_refl.
    - simpl. eapply extends_dsl_trans; [|apply IH].
      by apply declares_extends. }
  destruct (nested_entries "application" _ Hext) as (children & Hgen & Hex).
  exists children.
  assert (DSL.generate isEnabled (application_dsl isEnabled callbacks callback)
          = application_tree isEnabled children) as Htree.
  { unfold application_dsl, DSL.map, DSL.resource.
    cbn [DSL.path default DSL.queryParams].
    change ("/_unused_dummy_error_path_route_" +:+ "application" +:+ "/:error")
      with "/_unused_dummy_error_path_route_application/:error" in *.
    rewrite Hgen. unfold application_tree, top_substates, DSL.generate.
    by destruct (isEnabled "ember-routing-named-substates"). }
  split; [done|]. split; [done|]. intros Hwf.
  unfold EmberRouter_map. rewrite Htree. by apply Router_map_flat.
Qed.

End EmberDSL.

(** ** Closed examples of route maps *)

Local Ltac elements H :=
  repeat (apply elem_of_cons in H as [->|H]); [..|by apply elem_of_nil in H].

Local Ltac well_formed_tree :=
  constructor;
  [ apply (bool_decide_unpack _); reflexivity
  | let m := fresh "m" in
    let H := fresh "H" in
    intros m H _; elements H; discriminate
  | let m := fresh "m" in
    let ms := fresh "ms" in
    let H := fresh "H" in
    let E := fresh "E" in
    intros m ms H E; elements H; simpl in E; try discriminate E;
    injection E as <-; well_formed_tree ].

Lemma blog_tree_well_formed : well_formed features blog_tree.
Proof. unfold blog_tree. well_formed_tree. Qed.

Lemma blog_map_declares : declares features blog_map.
Proof.
  apply (declares_resource features
           (λ this, DSL.prototype_route features this "about"
                      (DSL.mkOptions None None))).
  - apply (declares_route features (λ this, this)). constructor.
  - intros cb [= <-].
    apply (declares_route features (λ this, this)). constructor.
Qed.

Lemma Router_map_registers_witness :
  Router_map features RouteRecognizer_new blog_tree
  = Some (foldl register RouteRecognizer_new
            ((λ routes, (routes, Route.handler <$> last routes))
             <$> flat_map (route_arrays features) blog_tree))
  ∧ RouteRecognizer_map features RouteRecognizer_new blog_tree None
    = Some (foldl register RouteRecognizer_new
              ((λ routes, (routes, None))
               <$> flat_map (route_arrays features) blog_tree)).
Proof.
  apply (Router_map_registers features RouteRecognizer_new blog_tree).
  - repeat constructor. by eexists.
  - apply blog_tree_well_formed.
Defined.

Lemma resource_nested_routes_witness :
  ∃ children,
    DSL.matches (DSL.resource features (DSL.new None) "posts"
                   (DSL.mkOptions None None)
                   (Some (λ this, DSL.prototype_route features this "new"
                                    (DSL.mkOptions None None))))
      !! length (DSL.matches (DSL.new None))
    = Some (DslMatch.mk
              (default ("/" +:+ "posts")
                 (DSL.path (DSL.mkOptions None None))) "posts"
              (Some (loading_entry "posts" :: error_entry "posts"
                     :: children))
              (DSL.queryParams (DSL.mkOptions None None)))
    ∧ Exists is_index children.
Proof.
  apply (resource_nested_routes features).
  apply (declares_route features (λ this, this)). constructor.
Defined.

Lemma EmberRouter_map_registers_witness :
  ∃ children,
    DSL.generate features (application_dsl features [] blog_map)
    = application_tree features children
    ∧ Exists is_index children
    ∧ (well_formed features (application_tree features children) →
       EmberRouter_map features RouteRecognizer_new [] blog_map
       = Some (foldl register RouteRecognizer_new
                 ((λ routes, (routes, Route.handler <$> last routes))
                  <$> flat_map (route_arrays features)
                        (application_tree features children)))).
Proof.
  apply (EmberRouter_map_registers features RouteRecognizer_new [] blog_map).
  - constructor.
  - apply blog_map_declares.
Defined.

(** After [Ember.Router.map(blog_map)], the URL [/posts/new?page=2] is
    recognized as the chain [application], [posts], [posts.new], and the
    route [posts.new] generates [/posts/new]. *)
Lemma blog_map_example :
  ∃ recognizer,
    EmberRouter_map features RouteRecognizer_new [] blog_map = Some recognizer
    ∧ recognize latin1_decodeURIComponent recognizer "/posts/new?page=2"
      = Ok (Some [Recognized.mk "application" ∅ false None;
                  Recognized.mk "posts" ∅ false
                    (Some {["page" := AValue (QString "2")]});
                  Recognized.mk "posts.new" ∅ false None])
    ∧ generate v8_inheritedText latin1_encodeURIComponent recognizer
        "posts.new" (Some (strings ∅)) = Ok "/posts/new"
    ∧ hasRoute recognizer "about" = true
    ∧ hasRoute recognizer "posts.index" = true
    ∧ hasRoute recognizer "new" = false.
Proof. eexists. split; [reflexivity|]. by vm_compute. Qed.
